(** * lazy-sorted-array: a shallow embedding of [SortedArray] and its
    properties.

    The development follows [sorted-array.ts]: the [get] and [set] traps of
    the proxy [Handler], the comparator utilities, the public and interface
    methods of [SortedArray] (those that take a callback in the module
    [Callbacks]), and its private helpers ([_sort], [wrapOne],
    [reduceInsertionOrders], [search], [searchNth], [searchExact],
    [searchAll]).

    Conventions.
    - A JavaScript number that is only used as an integer is a [Z]; the
      value returned by a compare function is a [number], an integer carrying
      its sign or [NaN] (the code observes such a value only through
      [=== 0], [< 0] and [> 0], or hands it to [Array.prototype.sort]).
    - A method is a function from the receiver's state to a completion
      (value returned or exception thrown) paired with the state it leaves.
    - [this.array] is a [list] of nodes; a node object is identified by its
      position in that list (every node is created by one call of [wrapOne]
      and stored once, so no two positions alias).
    - A compare function is a pure function of its two arguments: a
      comparator that calls back into the collection while it sorts, the
      case the [sorting] guard is there for, is not expressible.  The
      callbacks of [every], [map], [filter] and the like are pure functions
      of their arguments too.
    - Sequence numbers and the insertion counter are integers of [Z];
      [C7_renumbering_keeps_order] shows that they stay within the safe
      integers, where JavaScript's arithmetic on them is exact. *)

From Stdlib Require Import ZArith List Lia Bool String Permutation Sorted.
From stdpp Require Import base list sorting.

Local Open Scope Z_scope.

(** ** JavaScript values the code manipulates *)

(** The result of a compare function. *)
Inductive number : Type :=
  | Num (z : Z)
  | NaN.

(** [n === 0], [n < 0], [n > 0]; all three are false on [NaN]. *)
Definition is_zero (n : number) : bool :=
  match n with Num z => z =? 0 | NaN => false end.
Definition is_neg (n : number) : bool :=
  match n with Num z => z <? 0 | NaN => false end.
Definition is_pos (n : number) : bool :=
  match n with Num z => 0 <? z | NaN => false end.

(** Exceptions: [new Error(msg)], [new RangeError(msg)], the [RangeError]
    built by [SortedArray.oob] (its message interpolates the offending index
    and [this.array.length - 1], kept here as numbers), and the [TypeError]
    raised by the engine when a property of [undefined] is read.
    [OutOfFuel] is no JavaScript exception: it is what a loop of the model
    answers when its fuel is spent, and is shown never to happen. *)
Inductive exn : Type :=
  | Error (msg : string)
  | RangeError (msg : string)
  | OutOfBounds (idx upper : Z)
  | TypeError
  | OutOfFuel.

Inductive completion (A : Type) : Type :=
  | Return (a : A)
  | Throw (e : exn).
Arguments Return {A} a.
Arguments Throw {A} e.

Definition MAX_SAFE_INTEGER : Z := 2 ^ 53 - 1.
Definition MIN_SAFE_INTEGER : Z := - (2 ^ 53 - 1).

(** [l[i]] for a JavaScript number [i] holding an integer: [None] stands for
    [undefined], which is what an index outside [0 .. length-1] reads. *)
Definition nth_js {A} (l : list A) (i : Z) : option A :=
  if i <? 0 then None else l !! Z.to_nat i.

(** ** [Array.prototype.sort]

    ECMAScript's [SortCompare] turns a [NaN] from the compare function into
    [+0].  The sort itself is modelled by a stable insertion sort; for a
    consistent compare function under which no two elements of the array are
    equal, every sorting algorithm returns the same array
    ([Array_sort_unique] below), which is the case of both sorts of the
    library. *)
Definition SortCompare {A} (comparefn : A -> A -> number) (x y : A) : Z :=
  match comparefn x y with Num v => v | NaN => 0 end.

Fixpoint sorted_insert {A} (comparefn : A -> A -> number) (x : A) (l : list A)
  : list A :=
  match l with
  | [] => [x]
  | y :: l' =>
      if SortCompare comparefn x y <=? 0 then x :: y :: l'
      else y :: sorted_insert comparefn x l'
  end.

Definition Array_sort {A} (comparefn : A -> A -> number) (l : list A) : list A :=
  foldr (sorted_insert comparefn) [] l.

(** ** Nodes and the state of a [SortedArray] *)

Record SANode (T : Type) : Type := mkNode { obj : T; index : Z }.
Arguments mkNode {T} obj index.
Arguments obj {T} s.
Arguments index {T} s.

(** The fields of the class.  [originalCompareFn] is assigned once by the
    constructor and never again, so it is a parameter of the methods below
    rather than a field; [compareFn] is derived from it. *)
Record SortedArray (T : Type) : Type := mkSA {
  array : list (SANode T);
  sorted : bool;
  insertionCounter : Z;
  sorting : bool
}.
Arguments mkSA {T} array sorted insertionCounter sorting.
Arguments array {T} s.
Arguments sorted {T} s.
Arguments insertionCounter {T} s.
Arguments sorting {T} s.

Definition set_array {T} (a : list (SANode T)) (s : SortedArray T) :=
  mkSA a (sorted s) (insertionCounter s) (sorting s).
Definition set_sorted {T} (b : bool) (s : SortedArray T) :=
  mkSA (array s) b (insertionCounter s) (sorting s).
Definition set_insertionCounter {T} (c : Z) (s : SortedArray T) :=
  mkSA (array s) (sorted s) c (sorting s).
Definition set_sorting {T} (b : bool) (s : SortedArray T) :=
  mkSA (array s) (sorted s) (insertionCounter s) b.

(** [FindResult]: a payload with its position in the sorted array. *)
Record FindResult (T : Type) : Type := mkFind { fr_obj : T; fr_index : Z }.
Arguments mkFind {T} fr_obj fr_index.
Arguments fr_obj {T} f.
Arguments fr_index {T} f.

(** The object [{ index, found }] returned by [search]; [searchNth] returns
    the same shape, but its exact branch reads the index out of an array and
    may so produce [undefined] ([None]). *)
Record SearchResult : Type := mkSearch { sr_index : Z; sr_found : bool }.
Record NthResult : Type := mkNth { nr_index : option Z; nr_found : bool }.

(** The argument [n] of [findNth]: an integer, or the negative zero that the
    code tells apart with [Object.is(-0, n)]. *)
Inductive jsint : Type :=
  | Int (z : Z)
  | NegZero.

Definition jsint_val (n : jsint) : Z :=
  match n with Int z => z | NegZero => 0 end.

(** [Math.sign(n) || (Object.is(-0, n) ? -1 : 1)] *)
Definition direction_of (n : jsint) : Z :=
  match n with
  | Int z => if z =? 0 then 1 else Z.sgn z
  | NegZero => -1
  end.

(** [ltIndex] and [gtIndex] of [findNearest] may be [-Infinity] and
    [Infinity]. *)
Inductive extint : Type :=
  | MinusInfinity
  | Finite (z : Z)
  | PlusInfinity.

Section SortedArray.

Context {T : Type}.
(** [a === b] on payloads: reference identity. *)
Context `{EqDecision T}.
Variable originalCompareFn : T -> T -> number.

Abbreviation SA := (SortedArray T).
Abbreviation Node := (SANode T).

(** [this.compareFn], built by the constructor. *)
Definition compareFn (a b : Node) : number :=
  let compare := originalCompareFn (obj a) (obj b) in
  if is_zero compare then Num (index a - index b) else compare.

(** *** Private methods *)

Definition _sort (s : SA) : SA :=
  let s :=
    if negb (sorted s) && negb (sorting s) then
      let s := set_sorting true s in
      let s := set_array (Array_sort compareFn (array s)) s in
      set_sorting false s
    else s in
  set_sorted true s.

Definition unwrap (items : list Node) : list T := obj <$> items.

(** [reduceInsertionOrders].  [copy] holds the very node objects of
    [this.array], here their positions, sorted by [index]; the loop then
    writes the fresh counter values into those nodes
    ([element.index = this.insertionCounter++]). *)
Definition index_at (arr : list Node) (p : nat) : Z :=
  from_option index 0 (arr !! p).

Definition by_index (arr : list Node) (a b : nat) : number :=
  Num (index_at arr a - index_at arr b).

Definition reduce_assign (s : SA) (element : nat) : SA :=
  let c := insertionCounter s in
  let s := set_insertionCounter (c + 1) s in
  set_array (alter (fun nd => mkNode (obj nd) c) element (array s)) s.

Definition reduceInsertionOrders (s : SA) : SA :=
  let copy := Array_sort (by_index (array s)) (seq 0 (length (array s))) in
  let s := set_insertionCounter MIN_SAFE_INTEGER s in
  fold_left reduce_assign copy s.

Definition wrapOne (o : T) (emulateEndInsertion : bool)
    (emulateEndInsertionIncrement : option Z) (s : SA) : Node * SA :=
  let index := insertionCounter s + default 0 emulateEndInsertionIncrement in
  if negb emulateEndInsertion then
    let s := set_insertionCounter (insertionCounter s + 1) s in
    if MAX_SAFE_INTEGER <=? insertionCounter s then
      let s := reduceInsertionOrders s in
      let index := insertionCounter s in
      let s := set_insertionCounter (insertionCounter s + 1) s in
      (mkNode o index, s)
    else (mkNode o index, s)
  else (mkNode o index, s).

(** [wrap]: [objs.map((obj) => this.wrapOne(obj))].  It only runs inside the
    constructor, before [this.array] is assigned; the counter then starts at
    [MIN_SAFE_INTEGER], so the renumbering branch of [wrapOne] would need
    more than [2^54 - 3] elements and is out of reach of an array. *)
Definition wrap_push (acc : list Node * SA) (o : T) : list Node * SA :=
  let '(nd, s) := wrapOne o false None (snd acc) in
  (fst acc ++ [nd], s).

Definition wrap (objs : list T) (s : SA) : list Node * SA :=
  fold_left wrap_push objs ([], s).

(** *** Constructor *)
Definition new_SortedArray (elements : option (list T)) : SA :=
  let s := mkSA [] false MIN_SAFE_INTEGER false in
  match elements with
  | Some elements =>
      let '(nodes, s) := wrap elements s in
      set_sorted false (set_array nodes s)
  | None => set_sorted false (set_array [] s)
  end.

(** *** Public methods *)

Definition oob (i : Z) (s : SA) : exn :=
  OutOfBounds i (Z.of_nat (length (array s)) - 1).

Definition uo (operation : string) : exn :=
  Error (String.append operation " is an invalid operation on a sorted array").

Definition get (i : Z) (s : SA) : completion T * SA :=
  if (i <? 0) || (Z.of_nat (length (array s)) <=? i) then (Throw (oob i s), s)
  else
    let s := _sort s in
    match nth_js (array s) i with
    | Some nd => (Return (obj nd), s)
    | None => (Throw TypeError, s)
    end.

Definition addAll_push (s : SA) (item : T) : SA :=
  let '(nd, s) := wrapOne item false None s in
  set_array (array s ++ [nd]) s.

Definition addAll (items : list T) (s : SA) : completion Z * SA :=
  let s := set_sorted false s in
  let s := fold_left addAll_push items s in
  (Return (Z.of_nat (length (array s))), s).

Definition add (items : list T) (s : SA) : completion Z * SA := addAll items s.

Definition toArray (s : SA) : completion (list T) * SA :=
  let s := _sort s in
  (Return (unwrap (array s)), s).

(** *** The search family *)

(** [search].  [min] and [max] are integers here, so of the source's
    validation ([isFinite], [Math.floor(x) === x], sign, upper bound) only
    the sign and the upper bound can fail.  The loop is run with fuel;
    [search_fuel] shows that the fuel [search] supplies is never
    exhausted. *)
Definition min_error : exn := Error "min must be a positive finite integer!".
Definition max_error : exn :=
  Error "max must be a positive finite integer and must not be larger than the length of this array!".
Definition nan_error : exn := Error "Compare function cannot return NaN".

Fixpoint search_loop (fuel : nat) (o : T) (arr : list Node) (min max cur : Z)
  : completion (SearchResult) :=
  match fuel with
  | O => Throw OutOfFuel
  | S fuel =>
      if min <=? max then
        match nth_js arr cur with
        | None => Throw TypeError
        | Some nd =>
            let compare := originalCompareFn o (obj nd) in
            if is_zero compare then Return (mkSearch cur true)
            else if is_neg compare then
              let max := cur - 1 in
              search_loop fuel o arr min max ((min + max) / 2)
            else if is_pos compare then
              let min := cur + 1 in
              search_loop fuel o arr min max ((min + max) / 2)
            else Throw nan_error
        end
      else Return (mkSearch cur false)
  end.

Definition search (o : T) (min max : option Z) (s : SA)
  : completion SearchResult * SA :=
  let len := Z.of_nat (length (array s)) in
  match (match min with
         | Some min => if min <? 0 then Throw min_error else Return min
         | None => Return 0
         end) with
  | Throw e => (Throw e, s)
  | Return min =>
      match (match max with
             | Some max =>
                 if (max <? 0) || (len <? max) then Throw max_error
                 else Return max
             | None => Return (len - 1)
             end) with
      | Throw e => (Throw e, s)
      | Return max =>
          if len =? 0 then (Return (mkSearch 0 false), s)
          else
            let s := _sort s in
            let '(searchObj, s) := wrapOne o true None s in
            let cur := max / 2 in
            (search_loop (Z.to_nat max + 2) (obj searchObj) (array s) min max cur, s)
      end
  end.

(** The two scanning loops of [searchAll]: indices upwards from [i] while
    [i <= max] and the payload matches, and downwards while [i >= min]. *)
Fixpoint searchAll_up (fuel : nat) (o : T) (arr : list Node) (max i : Z)
    (results : list Z) : completion (list Z) :=
  match fuel with
  | O => Throw OutOfFuel
  | S fuel =>
      if i <=? max then
        match nth_js arr i with
        | None => Throw TypeError
        | Some nd =>
            if is_zero (originalCompareFn o (obj nd))
            then searchAll_up fuel o arr max (i + 1) (results ++ [i])
            else Return results
        end
      else Return results
  end.

Fixpoint searchAll_down (fuel : nat) (o : T) (arr : list Node) (min i : Z)
    (results : list Z) : completion (list Z) :=
  match fuel with
  | O => Throw OutOfFuel
  | S fuel =>
      if min <=? i then
        match nth_js arr i with
        | None => Throw TypeError
        | Some nd =>
            if is_zero (originalCompareFn o (obj nd))
            then searchAll_down fuel o arr min (i - 1) (i :: results)
            else Return results
        end
      else Return results
  end.

Definition searchAll (o : T) (min max : option Z) (s : SA)
  : completion (list Z) * SA :=
  let len := Z.of_nat (length (array s)) in
  let min := default 0 min in
  let max := default (len - 1) max in
  match search o (Some min) (Some max) s with
  | (Throw e, s) => (Throw e, s)
  | (Return result, s) =>
      if negb (sr_found result) then (Return [], s)
      else
        let fuel := S (S (length (array s))) in
        match searchAll_up fuel o (array s) max (sr_index result) [] with
        | Throw e => (Throw e, s)
        | Return results =>
            (searchAll_down fuel o (array s) min (sr_index result - 1) results, s)
        end
  end.

Definition searchExact (o : T) (min max : option Z) (s : SA)
  : completion (list Z) * SA :=
  match searchAll o min max s with
  | (Throw e, s) => (Throw e, s)
  | (Return result, s) =>
      (* [result.filter((v) => this.array[v].obj === obj)] *)
      (foldr
         (fun v (acc : completion (list Z)) =>
            match acc with
            | Throw e => Throw e
            | Return acc =>
                match nth_js (array s) v with
                | None => Throw TypeError
                | Some nd => Return (if decide (obj nd = o) then v :: acc else acc)
                end
            end)
         (Return []) result, s)
  end.

(** The scanning loops of [searchNth]: [for (++index; index < length &&
    compare(obj, array[index].obj) === 0; index++);] and its mirror image. *)
Fixpoint searchNth_up (fuel : nat) (o : T) (arr : list Node) (i : Z)
  : completion Z :=
  match fuel with
  | O => Throw OutOfFuel
  | S fuel =>
      if i <? Z.of_nat (length arr) then
        match nth_js arr i with
        | None => Throw TypeError
        | Some nd =>
            if is_zero (originalCompareFn o (obj nd))
            then searchNth_up fuel o arr (i + 1)
            else Return i
        end
      else Return i
  end.

Fixpoint searchNth_down (fuel : nat) (o : T) (arr : list Node) (i : Z)
  : completion Z :=
  match fuel with
  | O => Throw OutOfFuel
  | S fuel =>
      if 0 <=? i then
        match nth_js arr i with
        | None => Throw TypeError
        | Some nd =>
            if is_zero (originalCompareFn o (obj nd))
            then searchNth_down fuel o arr (i - 1)
            else Return i
        end
      else Return i
  end.

(** [searchNth].  With [n] undefined, [direction] and [offset] stay
    undefined: [offset >= result.length] is then false and
    [result[NaN]] reads [undefined]. *)
Definition searchNth (o : T) (n : option jsint) (min max : option Z)
    (exact : bool) (s : SA) : completion NthResult * SA :=
  let direction := direction_of <$> n in
  let offset := jsint_val <$> n in
  if exact then
    match searchExact o min max s with
    | (Throw e, s) => (Throw e, s)
    | (Return result, s) =>
        let len := Z.of_nat (length result) in
        match offset with
        | Some offset =>
            if len <=? offset then (Return (mkNth (Some (-1)) false), s)
            else
              let index :=
                (if decide (direction = Some 1) then 0 else len - 1) + offset in
              (Return (mkNth (nth_js result index) true), s)
        | None => (Return (mkNth None true), s)
        end
    end
  else
    match search o min max s with
    | (Throw e, s) => (Throw e, s)
    | (Return result, s) =>
        match n with
        | None => (Return (mkNth (Some (sr_index result)) (sr_found result)), s)
        | Some n =>
            if negb (sr_found result)
            then (Return (mkNth (Some (sr_index result)) (sr_found result)), s)
            else
              let arr := array s in
              let fuel := S (S (length arr)) in
              let index := sr_index result in
              let scanned :=
                if decide (direction_of n = -1) then
                  match searchNth_up fuel o arr (index + 1) with
                  | Return index => Return (index + jsint_val n - 1)
                  | Throw e => Throw e
                  end
                else
                  match searchNth_down fuel o arr (index - 1) with
                  | Return index => Return (index + jsint_val n + 1)
                  | Throw e => Throw e
                  end in
              match scanned with
              | Throw e => (Throw e, s)
              | Return index =>
                  if (0 <=? index) && (index <? Z.of_nat (length arr)) then
                    match nth_js arr index with
                    | None => (Throw TypeError, s)
                    | Some nd =>
                        (Return (mkNth (Some index)
                                   (is_zero (originalCompareFn o (obj nd)))), s)
                    end
                  else (Return (mkNth (Some index) false), s)
              end
        end
    end.

(** [{ obj: this.array[i].obj, index: i }], where [i] may be [undefined]. *)
Definition find_result (arr : list Node) (i : option Z)
  : completion (FindResult T) :=
  match i with
  | None => Throw TypeError
  | Some i =>
      match nth_js arr i with
      | None => Throw TypeError
      | Some nd => Return (mkFind (obj nd) i)
      end
  end.

Definition findNth (o : T) (n : option jsint) (exact : bool) (s : SA)
  : completion (option (FindResult T)) * SA :=
  let s := _sort s in
  match searchNth o n None None exact s with
  | (Throw e, s) => (Throw e, s)
  | (Return result, s) =>
      if negb (nr_found result) then (Return None, s)
      else
        match find_result (array s) (nr_index result) with
        | Throw e => (Throw e, s)
        | Return r => (Return (Some r), s)
        end
  end.

Definition findAll (o : T) (exact : bool) (s : SA)
  : completion (list (FindResult T)) * SA :=
  let s := _sort s in
  match (if exact then searchExact o None None s else searchAll o None None s) with
  | (Throw e, s) => (Throw e, s)
  | (Return result, s) =>
      (foldr
         (fun v (acc : completion (list (FindResult T))) =>
            match acc, find_result (array s) (Some v) with
            | Throw e, _ => Throw e
            | _, Throw e => Throw e
            | Return acc, Return r => Return (r :: acc)
            end)
         (Return []) result, s)
  end.

(** The two shapes [findNearest] returns. *)
Inductive Nearest : Type :=
  | NearestEq (found : FindResult T)
  | NearestLtGt (lt gt : option (FindResult T)).

Definition ext_ltb (a : extint) (z : Z) : bool :=
  match a with MinusInfinity => true | Finite a => a <? z | PlusInfinity => false end.
Definition ext_geb (a : extint) (z : Z) : bool :=
  match a with MinusInfinity => false | Finite a => z <=? a | PlusInfinity => true end.

(** [this.array[i].obj] for an index that may be infinite. *)
Definition find_result_ext (arr : list Node) (i : extint)
  : completion (FindResult T) :=
  match i with
  | Finite i => find_result arr (Some i)
  | _ => Throw TypeError
  end.

Definition findNearest (o : T) (s : SA) : completion Nearest * SA :=
  match search o None None s with
  | (Throw e, s) => (Throw e, s)
  | (Return result, s) =>
      let len := Z.of_nat (length (array s)) in
      if sr_found result then
        match find_result (array s) (Some (sr_index result)) with
        | Throw e => (Throw e, s)
        | Return r => (Return (NearestEq r), s)
        end
      else
        let indices : completion (extint * extint) :=
          if sr_index result <? 0 then Return (MinusInfinity, Finite 0)
          else if len <=? sr_index result then Return (Finite (len - 1), PlusInfinity)
          else
            match nth_js (array s) (sr_index result) with
            | None => Throw TypeError
            | Some nd =>
                let compare := originalCompareFn o (obj nd) in
                Return (Finite (sr_index result - Z.b2z (is_neg compare)),
                        Finite (sr_index result + Z.b2z (is_pos compare)))
            end in
        match indices with
        | Throw e => (Throw e, s)
        | Return (ltIndex, gtIndex) =>
            let lt :=
              if ext_ltb ltIndex 0 then Return None
              else match find_result_ext (array s) ltIndex with
                   | Throw e => Throw e
                   | Return r => Return (Some r)
                   end in
            match lt with
            | Throw e => (Throw e, s)
            | Return lt =>
                let gt :=
                  if ext_geb gtIndex len then Return None
                  else match find_result_ext (array s) gtIndex with
                       | Throw e => Throw e
                       | Return r => Return (Some r)
                       end in
                match gt with
                | Throw e => (Throw e, s)
                | Return gt => (Return (NearestLtGt lt gt), s)
                end
            end
        end
  end.

(** *** Removal *)

(** The loop of [removeAll] over the already sorted [indices]; [i] counts the
    elements removed so far and [this.array.splice(index, 1)] is [delete]. *)
Fixpoint removeAll_loop (indices : list Z) (i : Z) (acc : list T) (s : SA)
  : completion (list T) * SA :=
  match indices with
  | [] => (Return acc, s)
  | x :: indices =>
      let index := x - i in
      if (index <? 0) || (Z.of_nat (length (array s)) <=? index)
      then (Throw (oob index s), s)
      else
        match nth_js (array s) index with
        | None => (Throw TypeError, s)
        | Some nd =>
            removeAll_loop indices (i + 1) (acc ++ [obj nd])
              (set_array (delete (Z.to_nat index) (array s)) s)
        end
  end.

(** [removeAll].  [indices.sort((a, b) => a - b)] sorts the caller's array in
    place; the model keeps the sorted copy local. *)
Definition removeAll (indices : list Z) (s : SA) : completion (list T) * SA :=
  let s := _sort s in
  let indices := Array_sort (fun a b => Num (a - b)) indices in
  removeAll_loop indices 0 [] s.

Definition remove (indices : list Z) (s : SA) : completion (list T) * SA :=
  removeAll indices s.

(** *** Interface methods *)

(** [this.array.pop().obj]: on an empty array [pop()] is [undefined]. *)
Definition pop (s : SA) : completion T * SA :=
  let s := _sort s in
  match last (array s) with
  | None => (Throw TypeError, s)
  | Some nd => (Return (obj nd), set_array (removelast (array s)) s)
  end.

Definition shift (s : SA) : completion T * SA :=
  let s := _sort s in
  match array s with
  | [] => (Throw TypeError, s)
  | nd :: rest => (Return (obj nd), set_array rest s)
  end.

Definition push (items : list T) (s : SA) : completion Z * SA :=
  (Throw (uo "push"), s).
Definition concat (items : list (list T)) (s : SA) : completion (list T) * SA :=
  (Throw (uo "concat"), s).
Definition reverse (s : SA) : completion (list T) * SA :=
  (Throw (uo "reverse"), s).
Definition unshift (items : list T) (s : SA) : completion Z * SA :=
  (Throw (uo "unshift"), s).
Definition fill (value : T) (start end_ : option Z) (s : SA)
  : completion unit * SA :=
  (Throw (uo "fill"), s).
Definition copyWithin (target start : Z) (end_ : option Z) (s : SA)
  : completion unit * SA :=
  (Throw (uo "copyWithin"), s).

(** The relative index arithmetic shared by [Array.prototype.slice] and
    [Array.prototype.splice]: a negative index counts from the end, and the
    result is clamped to [0 .. len]. *)
Definition relative_index (len i : Z) : Z :=
  if i <? 0 then Z.max (len + i) 0 else Z.min i len.

Definition Array_slice {A} (l : list A) (start end_ : option Z) : list A :=
  let len := Z.of_nat (length l) in
  let k := relative_index len (default 0 start) in
  let final := relative_index len (default len end_) in
  take (Z.to_nat (final - k)) (drop (Z.to_nat k) l).

Definition slice (start end_ : option Z) (s : SA) : completion (list T) * SA :=
  let s := _sort s in
  (Return (unwrap (Array_slice (array s) start end_)), s).

(** [sort]: any function passed as [compareFn] is truthy. *)
Definition sort (compareFn' : option (T -> T -> number)) (s : SA)
  : completion unit * SA :=
  match compareFn' with
  | Some _ =>
      (Throw (Error "sort is an invalid operation on a sorted array when providing a new compare function"), s)
  | None =>
      let s := set_sorted false s in
      let s := _sort s in
      (Return tt, s)
  end.

(** [splice].  The inner [this.array.splice(start, deleteCount)] always gets
    two arguments, so an undefined [deleteCount] converts to [0]. *)
Definition splice (start : Z) (deleteCount : option Z) (items : list T) (s : SA)
  : completion (list T) * SA :=
  if 0 <? Z.of_nat (length items) then
    (Throw (Error "splice is an invalid operation on a sorted array when providing replacement items"), s)
  else
    let s := _sort s in
    let len := Z.of_nat (length (array s)) in
    let actualStart := relative_index len start in
    let actualDeleteCount :=
      Z.min (Z.max (default 0 deleteCount) 0) (len - actualStart) in
    let removed :=
      take (Z.to_nat actualDeleteCount) (drop (Z.to_nat actualStart) (array s)) in
    let kept :=
      take (Z.to_nat actualStart) (array s)
      ++ drop (Z.to_nat (actualStart + actualDeleteCount)) (array s) in
    (Return (unwrap removed), set_array kept s).

(** [calcTrueIndex]; an undefined index stays undefined. *)
Definition calcTrueIndex (i : option jsint) (s : SA) : option Z :=
  match i with
  | None => None
  | Some NegZero => Some (Z.of_nat (length (array s)) + 0 - 1)
  | Some (Int z) =>
      if z <? 0 then Some (Z.of_nat (length (array s)) + z - 1) else Some z
  end.

Definition includes (searchElement : T) (fromIndex toIndex : option jsint)
    (exact : bool) (s : SA) : completion bool * SA :=
  let s := _sort s in
  let fromIndex := calcTrueIndex fromIndex s in
  let toIndex := calcTrueIndex toIndex s in
  if exact then
    match searchExact searchElement fromIndex toIndex s with
    | (Throw e, s) => (Throw e, s)
    | (Return results, s) => (Return (0 <? Z.of_nat (length results)), s)
    end
  else
    match searchNth searchElement None fromIndex toIndex false s with
    | (Throw e, s) => (Throw e, s)
    | (Return results, s) => (Return (nr_found results), s)
    end.

(** [indexOf] and [lastIndexOf] differ in the end of the match list they
    read and in the [n] they pass to [searchNth]. *)
Definition indexOf_with (from_end : bool) (searchElement : T)
    (fromIndex toIndex : option jsint) (exact : bool) (s : SA)
  : completion (option Z) * SA :=
  let s := _sort s in
  let fromIndex := calcTrueIndex fromIndex s in
  let toIndex := calcTrueIndex toIndex s in
  if exact then
    match searchExact searchElement fromIndex toIndex s with
    | (Throw e, s) => (Throw e, s)
    | (Return results, s) =>
        if 0 <? Z.of_nat (length results)
        then (Return (if from_end then last results else head results), s)
        else (Return (Some (-1)), s)
    end
  else
    match searchNth searchElement
            (Some (if from_end then NegZero else Int 0)) fromIndex toIndex false s with
    | (Throw e, s) => (Throw e, s)
    | (Return results, s) =>
        if nr_found results then (Return (nr_index results), s)
        else (Return (Some (-1)), s)
    end.

Definition indexOf := indexOf_with false.
Definition lastIndexOf := indexOf_with true.

(** [[Symbol.iterator]] sorts, then hands out a generator over the live
    [this.array]; [iterator_next] is one step of that generator from cursor
    [k], and [iterate] runs it to completion with no call in between, as a
    [for ... of] loop whose body leaves the array alone does. *)
Definition iterator (s : SA) : nat * SA := (O, _sort s).

Definition iterator_next (k : nat) (s : SA) : option T * nat :=
  match array s !! k with
  | Some nd => (Some (obj nd), S k)
  | None => (None, k)
  end.

Fixpoint iterator_drain (fuel : nat) (k : nat) (s : SA) : completion (list T) :=
  match fuel with
  | O => Throw OutOfFuel
  | S fuel =>
      match iterator_next k s with
      | (Some v, k) =>
          match iterator_drain fuel k s with
          | Return vs => Return (v :: vs)
          | Throw e => Throw e
          end
      | (None, _) => Return []
      end
  end.

Definition iterate (s : SA) : completion (list T) * SA :=
  let '(k, s) := iterator s in
  (iterator_drain (S (length (array s))) k s, s).

(** *** The [Handler] proxy traps

    A property key is classified the way the traps do it: first
    [Handler.checkInteger(p)], then [p === "length"].  Any other key is passed
    on to [Reflect.get]/[Reflect.set] and lies outside the model. *)
Inductive PropertyKey : Type :=
  | IndexKey (n : Z)
  | LengthKey.

(** [Handler.set]; [value] is [Handler.checkInteger(value)], which only the
    [length] branch looks at. *)
Definition Handler_set (p : PropertyKey) (value : option Z) (s : SA)
  : completion bool * SA :=
  match p with
  | IndexKey _ => (Throw (Error "set is an invalid operation on a sorted array"), s)
  | LengthKey =>
      match value with
      | None => (Throw (RangeError "Invalid array length"), s)
      | Some newLength =>
          if newLength <? 0 then (Throw (RangeError "Invalid array length"), s)
          else if Z.of_nat (length (array s)) <? newLength then
            (Throw (RangeError "The length of a SortedArray may not be extended"), s)
          else (Return true, set_array (take (Z.to_nat newLength) (array s)) s)
      end
  end.

End SortedArray.

(** ** [SortedArray.CompareFunctions] *)

Definition NumericSort (a b : Z) : number := Num (a - b).

Definition SortInverter {U} (f : U -> U -> number) (a b : U) : number :=
  match f a b with Num z => Num (- z) | NaN => NaN end.

(** A JavaScript string is its sequence of UTF-16 code units. *)
Definition jsstring : Type := list Z.

(** [s.charCodeAt(i)]: [NaN] outside the string. *)
Definition charCodeAt (s : jsstring) (i : Z) : number :=
  match nth_js s i with Some c => Num c | None => NaN end.

Definition num_sub (a b : number) : number :=
  match a, b with Num a, Num b => Num (a - b) | _, _ => NaN end.

Section DefaultSort.

(** The defined values of type [any]; [undefined] is [None].  [strict_eq] is
    [===] on defined values and [String_] the conversion [String(a)]. *)
Context {V : Type}.
Variable strict_eq : V -> V -> bool.
Variable String_ : V -> jsstring.

(** The [do ... while (compare === 0 && i < len)] loop; it returns [compare].
    The fuel [DefaultSort] passes is [len], which is never spent
    ([DefaultSort_loop_spec]). *)
Fixpoint DefaultSort_loop (fuel : nat) (a b : jsstring) (len i : Z) : number :=
  let ai := charCodeAt a i in
  let bi := charCodeAt b i in
  let compare := num_sub ai bi in
  let i := i + 1 in
  if is_zero compare && (i <? len) then
    match fuel with
    | O => NaN
    | S fuel => DefaultSort_loop fuel a b len i
    end
  else compare.

Definition DefaultSort (a b : option V) : number :=
  match a, b with
  | None, None => Num 0
  | None, Some _ => Num 1
  | Some _, None => Num (-1)
  | Some a, Some b =>
      if strict_eq a b then Num 0
      else
        let a := String_ a in
        let b := String_ b in
        if decide (a = b) then Num 0
        else if Z.of_nat (length a) =? 0 then Num (-1)
        else if Z.of_nat (length b) =? 0 then Num 1
        else
          let len := Z.min (Z.of_nat (length a)) (Z.of_nat (length b)) in
          let compare := DefaultSort_loop (Z.to_nat len) a b len 0 in
          if is_zero compare then
            (if Z.of_nat (length a) <? Z.of_nat (length b) then Num (-1) else Num 1)
          else compare
  end.

(** The constructor's [if (compareFn === undefined) { compareFn =
    SortedArray.CompareFunctions.DefaultSort; }]: the function it stores as
    [this.originalCompareFn]. *)
Definition constructor_originalCompareFn
    (compareFn : option (option V -> option V -> number))
  : option V -> option V -> number :=
  match compareFn with
  | Some compareFn => compareFn
  | None => DefaultSort
  end.

End DefaultSort.

(** Lexicographic comparison of two sequences of integers, the shorter
    first when it is a prefix of the longer. *)
Fixpoint lex_compare (a b : list Z) : comparison :=
  match a, b with
  | [], [] => Eq
  | [], _ :: _ => Lt
  | _ :: _, [] => Gt
  | x :: a, y :: b =>
      match x ?= y with
      | Eq => lex_compare a b
      | c => c
      end
  end.

(** The code points a string encodes: a high surrogate followed by a low
    surrogate is one supplementary code point, any other code unit stands
    for itself. *)
Fixpoint code_points (s : jsstring) : list Z :=
  match s with
  | [] => []
  | hi :: rest =>
      match rest with
      | lo :: rest' =>
          if (55296 <=? hi) && (hi <=? 56319) && (56320 <=? lo) && (lo <=? 57343)
          then ((hi - 55296) * 1024 + (lo - 56320) + 65536) :: code_points rest'
          else hi :: code_points rest
      | [] => [hi]
      end
  end.

(** The sign of a compare result, as a [comparison]. *)
Definition number_sign (n : number) : option comparison :=
  match n with
  | Num z => Some (z ?= 0)
  | NaN => None
  end.

(** ** Sequences of calls *)

Section Calls.

Context {T : Type} `{EqDecision T}.
Variable originalCompareFn : T -> T -> number.

(** The calls that change what a [SortedArray] holds.  [MSetLength] is the
    assignment [sa.length = n] through the proxy, [MSortPass] any call whose
    only effect on the state is [_sort] (every read is one). *)
Inductive mutation : Type :=
  | MAdd (items : list T)
  | MRemoveAll (indices : list Z)
  | MPop
  | MShift
  | MSplice (start : Z) (deleteCount : option Z)
  | MSetLength (n : Z)
  | MSort
  | MSortPass.

(** The state a call leaves, whether it returned or threw. *)
Definition step (m : mutation) (s : SortedArray T) : SortedArray T :=
  match m with
  | MAdd items => snd (addAll items s)
  | MRemoveAll indices => snd (removeAll originalCompareFn indices s)
  | MPop => snd (pop originalCompareFn s)
  | MShift => snd (shift originalCompareFn s)
  | MSplice start deleteCount =>
      snd (splice originalCompareFn start deleteCount [] s)
  | MSetLength n => snd (Handler_set LengthKey (Some n) s)
  | MSort => snd (sort originalCompareFn None s)
  | MSortPass => _sort originalCompareFn s
  end.

Definition run (ms : list mutation) (s : SortedArray T) : SortedArray T :=
  fold_left (fun s m => step m s) ms s.

(** The calls that return order-dependent data, and what they return. *)
Inductive reader : Type :=
  | RToArray
  | RGet (i : Z)
  | RSlice (start end_ : option Z)
  | RIterate
  | RFindNth (o : T) (n : option jsint) (exact : bool)
  | RFindAll (o : T) (exact : bool)
  | RFindNearest (o : T)
  | RIncludes (o : T) (fromIndex toIndex : option jsint) (exact : bool)
  | RIndexOf (o : T) (fromIndex toIndex : option jsint) (exact : bool)
  | RLastIndexOf (o : T) (fromIndex toIndex : option jsint) (exact : bool).

Inductive observation : Type :=
  | ObsPayloads (l : list T)
  | ObsPayload (o : T)
  | ObsFind (r : option (FindResult T))
  | ObsFinds (l : list (FindResult T))
  | ObsNearest (n : Nearest (T:=T))
  | ObsBool (b : bool)
  | ObsIndex (i : option Z).

Definition observe {A} (f : A -> observation) (r : completion A * SortedArray T)
  : completion observation * SortedArray T :=
  match r with
  | (Return a, s) => (Return (f a), s)
  | (Throw e, s) => (Throw e, s)
  end.

Definition read (r : reader) (s : SortedArray T)
  : completion observation * SortedArray T :=
  match r with
  | RToArray => observe ObsPayloads (toArray originalCompareFn s)
  | RGet i => observe ObsPayload (get originalCompareFn i s)
  | RSlice start end_ => observe ObsPayloads (slice originalCompareFn start end_ s)
  | RIterate => observe ObsPayloads (iterate originalCompareFn s)
  | RFindNth o n exact => observe ObsFind (findNth originalCompareFn o n exact s)
  | RFindAll o exact => observe ObsFinds (findAll originalCompareFn o exact s)
  | RFindNearest o => observe ObsNearest (findNearest originalCompareFn o s)
  | RIncludes o f t exact =>
      observe ObsBool (includes originalCompareFn o f t exact s)
  | RIndexOf o f t exact =>
      observe ObsIndex (indexOf originalCompareFn o f t exact s)
  | RLastIndexOf o f t exact =>
      observe ObsIndex (lastIndexOf originalCompareFn o f t exact s)
  end.

End Calls.

Arguments mutation T : clear implicits.
Arguments reader T : clear implicits.

(** ** Notions the properties are stated with *)

(** A consistent compare function: it never answers [NaN], swapping its
    arguments swaps the sign of its answer, and "not after" is transitive. *)
Definition consistent {A} (c : A -> A -> number) : Prop :=
  (forall a b, c a b <> NaN) /\
  (forall a b,
      (SortCompare c a b < 0 /\ 0 < SortCompare c b a) \/
      (SortCompare c a b = 0 /\ SortCompare c b a = 0) \/
      (0 < SortCompare c a b /\ SortCompare c b a < 0)) /\
  (forall a b d,
      SortCompare c a b <= 0 -> SortCompare c b d <= 0 -> SortCompare c a d <= 0).

(** [x] is not after [y] under [c]. *)
Definition not_after {A} (c : A -> A -> number) (x y : A) : Prop :=
  SortCompare c x y <= 0.





(** The elements of [l] whose positions, counted from [p], are not listed in
    [positions]. *)
Fixpoint keep_except {A} (positions : list Z) (p : Z) (l : list A) : list A :=
  match l with
  | [] => []
  | x :: l =>
      if decide (p ∈ positions) then keep_except positions (p + 1) l
      else x :: keep_except positions (p + 1) l
  end.

(** The lazy-sort invariant: outside of a sort the guard is down, and a
    clean array is sorted by the augmented compare function. *)
Definition lazy_ok {T} (cmp : T -> T -> number) (s : SortedArray T) : Prop :=
  sorting s = false /\
  (sorted s = true -> StronglySorted (not_after (compareFn cmp)) (array s)).

(** The position of [p] in [l] (the length of [l] when [p] is absent). *)
Fixpoint position_of (p : nat) (l : list nat) : nat :=
  match l with
  | [] => O
  | x :: l => if decide (x = p) then O else S (position_of p l)
  end.


(** [s'] holds some of the nodes of [s], in the same order, and nothing else
    differs: what a removal does to a state. *)
Definition shrinks {T} (s' s : SortedArray T) : Prop :=
  array s' `sublist_of` array s /\
  sorted s' = sorted s /\
  sorting s' = sorting s /\
  insertionCounter s' = insertionCounter s.

(** The place the renumbering pass gives to the node at position [p]: its
    position in [copy], the array's positions sorted by sequence number. *)
Definition renumber_rank {T} (arr : list (SANode T)) (p : nat) : nat :=
  position_of p (Array_sort (by_index arr) (seq 0 (length arr))).

(** The compare function of the repository's examples and tests,
    [(a, b) => a[0] - b[0]] on two-element arrays. *)
Definition by_first (a b : Z * Z) : number := Num (fst a - fst b).

(** What [findNearest] promises about the sorted payloads [snap]: either an
    element that compares equal to the key, with its position; or, when the
    key would be inserted at position [k], the element before [k] (the
    greatest one strictly below the key) and the element at [k] (the least
    one strictly above it), each absent at the corresponding end. *)
Definition nearest_spec {T} (cmp : T -> T -> number) (o : T) (snap : list T)
    (res : Nearest (T:=T)) : Prop :=
  match res with
  | NearestEq r =>
      0 <= fr_index r /\
      snap !! Z.to_nat (fr_index r) = Some (fr_obj r) /\
      is_zero (cmp o (fr_obj r)) = true
  | NearestLtGt lt gt =>
      exists k : nat,
        (forall i x, snap !! i = Some x -> (i < k)%nat -> is_pos (cmp o x) = true) /\
        (forall i x, snap !! i = Some x -> (k <= i)%nat -> is_neg (cmp o x) = true) /\
        lt = match k with
             | O => None
             | S k' => (fun x => mkFind x (Z.of_nat k')) <$> snap !! k'
             end /\
        gt = (fun x => mkFind x (Z.of_nat k)) <$> snap !! k
  end.

(** The same compare function on payloads that carry their reference: a
    payload is a reference paired with the array's contents, and [===]
    compares the whole payload. *)
Definition by_first_ref (a b : nat * (Z * Z)) : number :=
  Num (fst (snd a) - fst (snd b)).

(** The payloads found at the positions [indices], in the order of
    [indices]. *)
Definition payloads_at {A} (snap : list A) (indices : list Z) : list A :=
  omap (nth_js snap) indices.

(** A completion that is not the model's own [OutOfFuel]. *)
Definition no_fuel_error {A} (c : completion A) : Prop :=
  match c with
  | Throw OutOfFuel => False
  | _ => True
  end.

(** ** Notions for the lookup methods *)

(** The number of payloads of [snap] strictly below the key [o], and the
    number of payloads that compare equal to it. *)
Definition lower_bound {T} (cmp : T -> T -> number) (o : T) (snap : list T) : Z :=
  Z.of_nat (length (filter (fun x => is_pos (cmp o x) = true) snap)).

Definition match_count {T} (cmp : T -> T -> number) (o : T) (snap : list T) : Z :=
  Z.of_nat (length (filter (fun x => is_zero (cmp o x) = true) snap)).

(** The position [findNth] is documented to answer with, given that the
    matches occupy the [count] positions from [first] on: the [n]-th match
    counted from the first one, or from the last one when [n] is negative or
    the negative zero. *)
Definition nth_position (first count : Z) (n : jsint) : option Z :=
  match n with
  | Int z =>
      if z <? 0 then (if - z <? count then Some (first + count - 1 + z) else None)
      else (if z <? count then Some (first + z) else None)
  | NegZero => if 0 <? count then Some (first + count - 1) else None
  end.

(** The [FindResult] for position [i] of the payloads [snap]. *)
Definition result_at {T} (snap : list T) (i : Z) : option (FindResult T) :=
  (fun x => mkFind x i) <$> nth_js snap i.


(** ** The [get] trap of the proxy *)

(** What reading a property through the proxy yields: an element of the
    collection for an integer key, a number for [length]. *)
Inductive PropertyValue (T : Type) : Type :=
  | ElementValue (v : T)
  | LengthValue (n : Z).
Arguments ElementValue {T} v.
Arguments LengthValue {T} n.

(** [Handler.get], on the keys [Handler_set] classifies: an integer key is
    [target.get(index)], and [length] is the length of the inner array. *)
Definition Handler_get {T} (originalCompareFn : T -> T -> number)
    (p : PropertyKey) (s : SortedArray T)
  : completion (PropertyValue T) * SortedArray T :=
  match p with
  | IndexKey i =>
      match get originalCompareFn i s with
      | (Return v, s) => (Return (ElementValue v), s)
      | (Throw e, s) => (Throw e, s)
      end
  | LengthKey => (Return (LengthValue (Z.of_nat (length (array s)))), s)
  end.

(** ** The interface methods that take a callback

    A callback is a pure function of its arguments, as the compare function
    is; [callbackfn_length] is the [length] property of the function object,
    the number of parameters it declares, which decides whether the methods
    build the array argument ([unwrap()]) or pass [undefined].  The module
    keeps the methods' names apart from the list functions of the same
    name. *)
Module Callbacks.
Section Callbacks.

Context {T : Type} `{EqDecision T}.
Variable originalCompareFn : T -> T -> number.

(** [let array; if (callbackfn.length >= n) { array = this.unwrap(); }] *)
Definition array_argument (n callbackfn_length : Z) (s : SortedArray T)
  : option (list T) :=
  if n <=? callbackfn_length then Some (unwrap (array s)) else None.

(** The loops [for (let i = 0; i < this.array.length; i++)], from position
    [i] on, over the elements [arr] still ahead. *)
Fixpoint every_loop (callbackfn : T -> Z -> option (list T) -> bool)
    (array_arg : option (list T)) (i : Z) (arr : list (SANode T)) : bool :=
  match arr with
  | [] => true
  | nd :: arr =>
      if negb (callbackfn (obj nd) i array_arg) then false
      else every_loop callbackfn array_arg (i + 1) arr
  end.

Definition every (callbackfn : T -> Z -> option (list T) -> bool)
    (callbackfn_length : Z) (s : SortedArray T) : completion bool * SortedArray T :=
  let s := _sort originalCompareFn s in
  let array_arg := array_argument 3 callbackfn_length s in
  (Return (every_loop callbackfn array_arg 0 (array s)), s).

Fixpoint some_loop (callbackfn : T -> Z -> option (list T) -> bool)
    (array_arg : option (list T)) (i : Z) (arr : list (SANode T)) : bool :=
  match arr with
  | [] => false
  | nd :: arr =>
      if callbackfn (obj nd) i array_arg then true
      else some_loop callbackfn array_arg (i + 1) arr
  end.

Definition some (callbackfn : T -> Z -> option (list T) -> bool)
    (callbackfn_length : Z) (s : SortedArray T) : completion bool * SortedArray T :=
  let s := _sort originalCompareFn s in
  let array_arg := array_argument 3 callbackfn_length s in
  (Return (some_loop callbackfn array_arg 0 (array s)), s).

Fixpoint map_loop {U} (callbackfn : T -> Z -> option (list T) -> U)
    (array_arg : option (list T)) (i : Z) (arr : list (SANode T)) : list U :=
  match arr with
  | [] => []
  | nd :: arr =>
      callbackfn (obj nd) i array_arg :: map_loop callbackfn array_arg (i + 1) arr
  end.

Definition map {U} (callbackfn : T -> Z -> option (list T) -> U)
    (callbackfn_length : Z) (s : SortedArray T)
  : completion (list U) * SortedArray T :=
  let s := _sort originalCompareFn s in
  let array_arg := array_argument 3 callbackfn_length s in
  (Return (map_loop callbackfn array_arg 0 (array s)), s).

Fixpoint filter_loop (callbackfn : T -> Z -> option (list T) -> bool)
    (array_arg : option (list T)) (i : Z) (arr : list (SANode T)) : list T :=
  match arr with
  | [] => []
  | nd :: arr =>
      if callbackfn (obj nd) i array_arg
      then obj nd :: filter_loop callbackfn array_arg (i + 1) arr
      else filter_loop callbackfn array_arg (i + 1) arr
  end.

Definition filter (callbackfn : T -> Z -> option (list T) -> bool)
    (callbackfn_length : Z) (s : SortedArray T)
  : completion (list T) * SortedArray T :=
  let s := _sort originalCompareFn s in
  let array_arg := array_argument 3 callbackfn_length s in
  (Return (filter_loop callbackfn array_arg 0 (array s)), s).

(** [reduce] starts from [initialValue] whether or not the caller gave one:
    an omitted initial value is the [undefined] of [U]. *)
Fixpoint reduce_loop {U} (callbackfn : U -> T -> Z -> option (list T) -> U)
    (array_arg : option (list T)) (value : U) (i : Z) (arr : list (SANode T)) : U :=
  match arr with
  | [] => value
  | nd :: arr =>
      reduce_loop callbackfn array_arg (callbackfn value (obj nd) i array_arg)
        (i + 1) arr
  end.

Definition reduce {U} (callbackfn : U -> T -> Z -> option (list T) -> U)
    (callbackfn_length : Z) (initialValue : U) (s : SortedArray T)
  : completion U * SortedArray T :=
  let s := _sort originalCompareFn s in
  let array_arg := array_argument 4 callbackfn_length s in
  (Return (reduce_loop callbackfn array_arg initialValue 0 (array s)), s).

(** [for (let i = this.array.length - 1; i >= 0; i--)]: [arr] holds the
    elements at the positions below [i], the last of them visited first. *)
Fixpoint reduceRight_loop {U} (callbackfn : U -> T -> Z -> option (list T) -> U)
    (array_arg : option (list T)) (value : U) (i : Z) (arr : list (SANode T)) : U :=
  match arr with
  | [] => value
  | nd :: arr =>
      reduceRight_loop callbackfn array_arg
        (callbackfn value (obj nd) (i - 1) array_arg) (i - 1) arr
  end.

Definition reduceRight {U} (callbackfn : U -> T -> Z -> option (list T) -> U)
    (callbackfn_length : Z) (initialValue : U) (s : SortedArray T)
  : completion U * SortedArray T :=
  let s := _sort originalCompareFn s in
  let array_arg := array_argument 4 callbackfn_length s in
  (Return (reduceRight_loop callbackfn array_arg initialValue
             (Z.of_nat (length (array s))) (rev (array s))), s).

(** [find] answers [undefined], here [None], when no element passes. *)
Fixpoint find_loop (predicate : T -> Z -> option (list T) -> bool)
    (array_arg : option (list T)) (i : Z) (arr : list (SANode T)) : option T :=
  match arr with
  | [] => None
  | nd :: arr =>
      if predicate (obj nd) i array_arg then Some (obj nd)
      else find_loop predicate array_arg (i + 1) arr
  end.

Definition find (predicate : T -> Z -> option (list T) -> bool)
    (predicate_length : Z) (s : SortedArray T)
  : completion (option T) * SortedArray T :=
  let s := _sort originalCompareFn s in
  let array_arg := array_argument 3 predicate_length s in
  (Return (find_loop predicate array_arg 0 (array s)), s).

Fixpoint findIndex_loop (predicate : T -> Z -> option (list T) -> bool)
    (array_arg : option (list T)) (i : Z) (arr : list (SANode T)) : Z :=
  match arr with
  | [] => -1
  | nd :: arr =>
      if predicate (obj nd) i array_arg then i
      else findIndex_loop predicate array_arg (i + 1) arr
  end.

Definition findIndex (predicate : T -> Z -> option (list T) -> bool)
    (predicate_length : Z) (s : SortedArray T)
  : completion Z * SortedArray T :=
  let s := _sort originalCompareFn s in
  let array_arg := array_argument 3 predicate_length s in
  (Return (findIndex_loop predicate array_arg 0 (array s)), s).

End Callbacks.
End Callbacks.

(** The order [DefaultSort] is shown to implement: defined values by the
    code units of their strings, [undefined] last. *)
Definition DefaultSort_order {V} (String_ : V -> jsstring) (a b : option V)
  : comparison :=
  match a, b with
  | None, None => Eq
  | None, Some _ => Gt
  | Some _, None => Lt
  | Some x, Some y => lex_compare (String_ x) (String_ y)
  end.

(** Nodes numbered in the order they are stored, below the counter, which
    counts them from [MIN_SAFE_INTEGER]: the state of the backing array as
    long as nothing has sorted it. *)
Definition numbered {T} (nodes : list (SANode T)) (counter : Z) : Prop :=
  StronglySorted (fun a b => index a < index b) nodes /\
  Forall (fun n => index n < counter) nodes /\
  counter = MIN_SAFE_INTEGER + Z.of_nat (length nodes).

(** * Properties *)

(** ** [Array.prototype.sort] sorts *)

Section SortFacts.

Context {A : Type}.
Variable c : A -> A -> number.

Lemma sorted_insert_Permutation (x : A) (l : list A) :
  sorted_insert c x l ≡ₚ x :: l.
Proof.
  induction l as [|y l IH]; simpl; [done|].
  destruct (SortCompare c x y <=? 0); [done|].
  rewrite IH. apply Permutation_swap.
Qed.

Lemma Array_sort_Permutation (l : list A) : Array_sort c l ≡ₚ l.
Proof.
  induction l as [|x l IH]; simpl; [done|].
  rewrite sorted_insert_Permutation. by rewrite IH.
Qed.

Lemma Array_sort_length (l : list A) : length (Array_sort c l) = length l.
Proof. apply Permutation_length, Array_sort_Permutation. Qed.

Lemma elem_of_Array_sort (x : A) (l : list A) : x ∈ Array_sort c l <-> x ∈ l.
Proof. by rewrite Array_sort_Permutation. Qed.

Hypothesis Hc : consistent c.

Lemma consistent_Num (a b : A) : c a b = Num (SortCompare c a b).
Proof using Hc.
  destruct Hc as (Hn & _). unfold SortCompare.
  specialize (Hn a b). by destruct (c a b).
Qed.

Lemma not_after_total (a b : A) : not_after c a b \/ not_after c b a.
Proof using Hc.
  destruct Hc as (_ & Ha & _). unfold not_after. specialize (Ha a b). lia.
Qed.

Lemma not_after_trans (a b d : A) :
  not_after c a b -> not_after c b d -> not_after c a d.
Proof using Hc. destruct Hc as (_ & _ & Ht). apply Ht. Qed.

Lemma sorted_insert_sorted (x : A) (l : list A) :
  StronglySorted (not_after c) l ->
  StronglySorted (not_after c) (sorted_insert c x l).
Proof using Hc.
  induction 1 as [|y l Hl IH Hy]; simpl.
  - repeat constructor.
  - destruct (Z.leb_spec (SortCompare c x y) 0) as [Hxy|Hxy].
    + constructor; [by constructor|].
      constructor; [done|].
      eapply Forall_impl; [exact Hy|].
      intros z Hz. by apply not_after_trans with y.
    + constructor; [done|].
      rewrite sorted_insert_Permutation. constructor; [|done].
      destruct (not_after_total x y) as [H|H]; [|done].
      unfold not_after in H. lia.
Qed.

Lemma Array_sort_sorted (l : list A) :
  StronglySorted (not_after c) (Array_sort c l).
Proof using Hc.
  induction l as [|x l IH]; simpl; [constructor|].
  by apply sorted_insert_sorted.
Qed.

(** Any other sorting algorithm returns the same array when no two elements
    of the array tie. *)
Lemma Array_sort_unique (l l' : list A) :
  (forall x y, x ∈ l -> y ∈ l ->
               not_after c x y -> not_after c y x -> x = y) ->
  l' ≡ₚ l ->
  StronglySorted (not_after c) l' ->
  l' = Array_sort c l.
Proof using Hc.
  intros Hanti Hperm Hsorted.
  apply (StronglySorted_unique_strong (not_after c)); [|done|..].
  - intros x y Hx Hy. rewrite Hperm in Hx. rewrite elem_of_Array_sort in Hy.
    by apply Hanti.
  - apply Array_sort_sorted.
  - by rewrite Array_sort_Permutation.
Qed.

(** Sorting a sorted array again leaves it as it is. *)
Lemma sorted_insert_head (x : A) (l : list A) :
  Forall (not_after c x) l -> sorted_insert c x l = x :: l.
Proof.
  destruct 1 as [|y l Hy _]; simpl; [done|].
  unfold not_after in Hy. by destruct (Z.leb_spec (SortCompare c x y) 0); [|lia].
Qed.

Lemma Array_sort_sorted_id (l : list A) :
  StronglySorted (not_after c) l -> Array_sort c l = l.
Proof.
  induction 1 as [|x l Hl IH Hx]; simpl; [done|].
  rewrite IH. by apply sorted_insert_head.
Qed.

End SortFacts.

(** ** The augmented compare function *)

Section Augmented.

Context {T : Type} `{EqDecision T}.
Variable cmp : T -> T -> number.
Hypothesis Hc : consistent cmp.

Lemma is_zero_cmp (a b : T) : is_zero (cmp a b) = (SortCompare cmp a b =? 0).
Proof using Hc. by rewrite (consistent_Num cmp Hc a b). Qed.

Lemma is_neg_cmp (a b : T) : is_neg (cmp a b) = (SortCompare cmp a b <? 0).
Proof using Hc. by rewrite (consistent_Num cmp Hc a b). Qed.

Lemma is_pos_cmp (a b : T) : is_pos (cmp a b) = (0 <? SortCompare cmp a b).
Proof using Hc. by rewrite (consistent_Num cmp Hc a b). Qed.

Lemma cmp_antisym (a b : T) :
  (SortCompare cmp a b < 0 /\ 0 < SortCompare cmp b a) \/
  (SortCompare cmp a b = 0 /\ SortCompare cmp b a = 0) \/
  (0 < SortCompare cmp a b /\ SortCompare cmp b a < 0).
Proof using Hc. destruct Hc as (_ & Ha & _). apply Ha. Qed.

Lemma cmp_le_trans (a b d : T) :
  SortCompare cmp a b <= 0 -> SortCompare cmp b d <= 0 ->
  SortCompare cmp a d <= 0.
Proof using Hc. destruct Hc as (_ & _ & Ht). apply Ht. Qed.

Lemma cmp_lt_le_trans (a b d : T) :
  SortCompare cmp a b < 0 -> SortCompare cmp b d <= 0 ->
  SortCompare cmp a d < 0.
Proof using Hc.
  intros Hab Hbd.
  destruct (Z.lt_ge_cases (SortCompare cmp a d) 0) as [|Had]; [done|].
  assert (SortCompare cmp d a <= 0) as Hda
    by (pose proof (cmp_antisym a d); lia).
  pose proof (cmp_le_trans _ _ _ Hbd Hda).
  pose proof (cmp_antisym a b). lia.
Qed.

Lemma cmp_le_lt_trans (a b d : T) :
  SortCompare cmp a b <= 0 -> SortCompare cmp b d < 0 ->
  SortCompare cmp a d < 0.
Proof using Hc.
  intros Hab Hbd.
  destruct (Z.lt_ge_cases (SortCompare cmp a d) 0) as [|Had]; [done|].
  assert (SortCompare cmp d a <= 0) as Hda
    by (pose proof (cmp_antisym a d); lia).
  pose proof (cmp_le_trans _ _ _ Hda Hab).
  pose proof (cmp_antisym b d). lia.
Qed.

Lemma cmp_eq_trans (a b d : T) :
  SortCompare cmp a b = 0 -> SortCompare cmp b d = 0 ->
  SortCompare cmp a d = 0.
Proof using Hc.
  intros Hab Hbd.
  assert (SortCompare cmp a d <= 0) by (apply cmp_le_trans with b; lia).
  assert (SortCompare cmp d a <= 0).
  { apply cmp_le_trans with b.
    - pose proof (cmp_antisym b d). lia.
    - pose proof (cmp_antisym a b). lia. }
  pose proof (cmp_antisym a d). lia.
Qed.

Lemma SortCompare_compareFn (a b : SANode T) :
  SortCompare (compareFn cmp) a b =
  if SortCompare cmp (obj a) (obj b) =? 0 then index a - index b
  else SortCompare cmp (obj a) (obj b).
Proof using Hc.
  unfold SortCompare at 1, compareFn. rewrite is_zero_cmp.
  destruct (SortCompare cmp (obj a) (obj b) =? 0); [done|].
  by rewrite (consistent_Num cmp Hc).
Qed.

Lemma consistent_compareFn : consistent (compareFn cmp).
Proof using Hc.
  split; [|split].
  - intros a b. unfold compareFn. rewrite is_zero_cmp.
    destruct (SortCompare cmp (obj a) (obj b) =? 0); [done|].
    by rewrite (consistent_Num cmp Hc).
  - intros a b. rewrite !SortCompare_compareFn.
    pose proof (cmp_antisym (obj a) (obj b)).
    destruct (Z.eqb_spec (SortCompare cmp (obj a) (obj b)) 0),
      (Z.eqb_spec (SortCompare cmp (obj b) (obj a)) 0); lia.
  - intros a b d. rewrite !SortCompare_compareFn.
    destruct (Z.eqb_spec (SortCompare cmp (obj a) (obj b)) 0) as [Hab|Hab],
      (Z.eqb_spec (SortCompare cmp (obj b) (obj d)) 0) as [Hbd|Hbd],
      (Z.eqb_spec (SortCompare cmp (obj a) (obj d)) 0) as [Had|Had];
      intros H1 H2; try lia.
    + pose proof (cmp_eq_trans _ _ _ Hab Hbd). lia.
    + assert (SortCompare cmp (obj a) (obj b) <= 0) as H3 by lia.
      pose proof (cmp_le_lt_trans (obj a) (obj b) (obj d) H3). lia.
    + assert (SortCompare cmp (obj a) (obj b) <= 0) as H3 by lia.
      pose proof (cmp_le_lt_trans (obj a) (obj b) (obj d) H3). lia.
    + assert (SortCompare cmp (obj b) (obj d) <= 0) as H3 by lia.
      assert (SortCompare cmp (obj a) (obj b) < 0) as H4 by lia.
      pose proof (cmp_lt_le_trans (obj a) (obj b) (obj d) H4 H3). lia.
    + assert (SortCompare cmp (obj b) (obj d) <= 0) as H3 by lia.
      assert (SortCompare cmp (obj a) (obj b) < 0) as H4 by lia.
      pose proof (cmp_lt_le_trans (obj a) (obj b) (obj d) H4 H3). lia.
    + assert (SortCompare cmp (obj b) (obj d) <= 0) as H3 by lia.
      assert (SortCompare cmp (obj a) (obj b) < 0) as H4 by lia.
      pose proof (cmp_lt_le_trans (obj a) (obj b) (obj d) H4 H3). lia.
    + assert (SortCompare cmp (obj b) (obj d) <= 0) as H3 by lia.
      assert (SortCompare cmp (obj a) (obj b) < 0) as H4 by lia.
      pose proof (cmp_lt_le_trans (obj a) (obj b) (obj d) H4 H3). lia.
Qed.

(** Sorted by the augmented compare function, the payloads are
    non-decreasing under the payload compare function. *)
Lemma not_after_compareFn_obj (a b : SANode T) :
  not_after (compareFn cmp) a b -> not_after cmp (obj a) (obj b).
Proof using Hc.
  unfold not_after. rewrite SortCompare_compareFn.
  destruct (Z.eqb_spec (SortCompare cmp (obj a) (obj b)) 0); lia.
Qed.

Lemma unwrap_sorted (arr : list (SANode T)) :
  StronglySorted (not_after (compareFn cmp)) arr ->
  StronglySorted (not_after cmp) (unwrap arr).
Proof using Hc.
  apply StronglySorted_fmap. intros x y. apply not_after_compareFn_obj.
Qed.

End Augmented.

(** ** The lazy sort *)

Section LazySort.

Context {T : Type} `{EqDecision T}.
Variable cmp : T -> T -> number.

Lemma fold_reduce_assign_flags (copy : list nat) (s : SortedArray T) :
  sorted (fold_left reduce_assign copy s) = sorted s /\
  sorting (fold_left reduce_assign copy s) = sorting s.
Proof.
  revert s. induction copy as [|e copy IH]; intros s; simpl; [done|].
  destruct (IH (reduce_assign s e)) as [-> ->]. by destruct s.
Qed.

Lemma reduceInsertionOrders_flags (s : SortedArray T) :
  sorted (reduceInsertionOrders s) = sorted s /\
  sorting (reduceInsertionOrders s) = sorting s.
Proof.
  unfold reduceInsertionOrders.
  destruct (fold_reduce_assign_flags
              (Array_sort (by_index (array s)) (seq 0 (length (array s))))
              (set_insertionCounter MIN_SAFE_INTEGER s)) as [-> ->].
  by destruct s.
Qed.

Lemma wrapOne_flags (o : T) (e : bool) (inc : option Z) (s : SortedArray T) :
  sorted (snd (wrapOne o e inc s)) = sorted s /\
  sorting (snd (wrapOne o e inc s)) = sorting s.
Proof.
  unfold wrapOne. destruct e; simpl; [done|].
  destruct (MAX_SAFE_INTEGER <=? _); simpl; [|done].
  destruct (reduceInsertionOrders_flags
              (set_insertionCounter (insertionCounter s + 1) s)) as [-> ->].
  done.
Qed.

Lemma addAll_push_flags (s : SortedArray T) (item : T) :
  sorted (addAll_push s item) = sorted s /\
  sorting (addAll_push s item) = sorting s.
Proof.
  unfold addAll_push.
  pose proof (wrapOne_flags item false None s) as Hw.
  destruct (wrapOne item false None s) as [nd s']. simpl in *. done.
Qed.

Lemma fold_addAll_push_flags (items : list T) (s : SortedArray T) :
  sorted (fold_left addAll_push items s) = sorted s /\
  sorting (fold_left addAll_push items s) = sorting s.
Proof.
  revert s. induction items as [|x items IH]; intros s; simpl; [done|].
  destruct (IH (addAll_push s x)) as [-> ->]. apply addAll_push_flags.
Qed.

Lemma fold_wrap_push_flags (objs : list T) (acc : list (SANode T) * SortedArray T) :
  sorted (snd (fold_left wrap_push objs acc)) = sorted (snd acc) /\
  sorting (snd (fold_left wrap_push objs acc)) = sorting (snd acc).
Proof.
  revert acc. induction objs as [|x objs IH]; intros acc; simpl; [done|].
  destruct (IH (wrap_push acc x)) as [-> ->].
  unfold wrap_push. pose proof (wrapOne_flags x false None (snd acc)) as Hw.
  by destruct (wrapOne x false None (snd acc)).
Qed.

Lemma new_SortedArray_lazy_ok (elements : option (list T)) :
  lazy_ok cmp (new_SortedArray elements).
Proof.
  unfold new_SortedArray, lazy_ok. destruct elements as [elements|]; [|done].
  unfold wrap.
  pose proof (fold_wrap_push_flags elements
                ([], mkSA [] false MIN_SAFE_INTEGER false)) as [_ Hs].
  destruct (fold_left wrap_push elements _) as [nodes s]. simpl in *. done.
Qed.

Lemma _sort_sorted_flag (s : SortedArray T) : sorted (_sort cmp s) = true.
Proof. done. Qed.

Lemma _sort_sorting (s : SortedArray T) :
  sorting s = false -> sorting (_sort cmp s) = false.
Proof. unfold _sort. by destruct (negb (sorted s) && negb (sorting s)). Qed.


Lemma _sort_Permutation (s : SortedArray T) : array (_sort cmp s) ≡ₚ array s.
Proof.
  unfold _sort. destruct (negb (sorted s) && negb (sorting s)); simpl; [|done].
  apply Array_sort_Permutation.
Qed.

Lemma _sort_length (s : SortedArray T) :
  length (array (_sort cmp s)) = length (array s).
Proof. apply Permutation_length, _sort_Permutation. Qed.

Lemma _sort_idem (s : SortedArray T) : _sort cmp (_sort cmp s) = _sort cmp s.
Proof. unfold _sort. by destruct (negb (sorted s) && negb (sorting s)). Qed.

Lemma _sort_clean (s : SortedArray T) :
  sorted s = true -> array (_sort cmp s) = array s.
Proof. unfold _sort. by intros ->. Qed.

(** The reentrancy guard: a call of [_sort] made while a sort is under way
    leaves the array as it is and still marks it clean. *)
Lemma _sort_guarded (s : SortedArray T) :
  sorting s = true ->
  array (_sort cmp s) = array s /\ sorted (_sort cmp s) = true.
Proof. unfold _sort. intros ->. by rewrite andb_false_r. Qed.

Hypothesis Hc : consistent cmp.

Lemma _sort_array_sorted (s : SortedArray T) :
  lazy_ok cmp s ->
  StronglySorted (not_after (compareFn cmp)) (array (_sort cmp s)).
Proof using Hc.
  intros [Hg Hs]. unfold _sort. rewrite Hg.
  destruct (sorted s); simpl; [by apply Hs|].
  apply Array_sort_sorted, consistent_compareFn, Hc.
Qed.

Lemma _sort_lazy_ok (s : SortedArray T) : lazy_ok cmp s -> lazy_ok cmp (_sort cmp s).
Proof using Hc.
  intros Hok. split; [apply _sort_sorting, Hok|].
  intros _. by apply _sort_array_sorted.
Qed.

End LazySort.

(** ** What each call does to the state *)

Lemma StronglySorted_sublist {A} (R : relation A) (l1 l2 : list A) :
  l1 `sublist_of` l2 -> StronglySorted R l2 -> StronglySorted R l1.
Proof.
  induction 1 as [|x l1 l2 Hsub IH|x l1 l2 Hsub IH]; intros Hs.
  - constructor.
  - apply StronglySorted_inv in Hs as [Hs Hx]. constructor; [by apply IH|].
    rewrite Forall_forall in Hx |- *. intros y Hy.
    apply Hx. by eapply elem_of_sublist.
  - apply StronglySorted_inv in Hs as [Hs _]. by apply IH.
Qed.

Lemma StronglySorted_lookup {A} (R : relation A) (l : list A) (i j : nat) (x y : A) :
  StronglySorted R l -> (i < j)%nat -> l !! i = Some x -> l !! j = Some y ->
  R x y.
Proof.
  intros Hs. revert i j. induction Hs as [|z l Hs IH Hz]; intros i j Hij Hi Hj.
  - by rewrite lookup_nil in Hi.
  - destruct j as [|j]; [lia|]. simpl in Hj. destruct i as [|i].
    + simpl in Hi. injection Hi as ->. rewrite Forall_forall in Hz.
      apply Hz. by eapply list_elem_of_lookup_2.
    + simpl in Hi. apply (IH i j); [lia|done..].
Qed.

Section States.

Context {T : Type} `{EqDecision T}.
Variable cmp : T -> T -> number.

Lemma shrinks_refl (s : SortedArray T) : shrinks s s.
Proof. by repeat split. Qed.

Lemma shrinks_set_array (l : list (SANode T)) (s : SortedArray T) :
  l `sublist_of` array s -> shrinks (set_array l s) s.
Proof. by repeat split. Qed.

Lemma shrinks_trans (s1 s2 s3 : SortedArray T) :
  shrinks s1 s2 -> shrinks s2 s3 -> shrinks s1 s3.
Proof.
  intros (? & ? & ? & ?) (? & ? & ? & ?). repeat split; try congruence.
  by etrans.
Qed.

Lemma shrinks_lazy_ok (s' s : SortedArray T) :
  shrinks s' s -> lazy_ok cmp s -> lazy_ok cmp s'.
Proof.
  intros (Hsub & Hs & Hg & _) [Hg' Hs']. split; [congruence|].
  rewrite Hs. intros Hclean. eapply StronglySorted_sublist; eauto.
Qed.

Lemma removeAll_loop_shrinks (indices : list Z) (i : Z) (acc : list T)
    (s : SortedArray T) :
  shrinks (snd (removeAll_loop indices i acc s)) s.
Proof.
  revert i acc s. induction indices as [|x indices IH]; intros i acc s; simpl.
  - apply shrinks_refl.
  - destruct ((x - i <? 0) || _); simpl; [apply shrinks_refl|].
    destruct (nth_js (array s) (x - i)); simpl; [|apply shrinks_refl].
    eapply shrinks_trans; [apply IH|].
    apply shrinks_set_array, sublist_delete.
Qed.

Lemma removelast_sublist {A} (l : list A) : removelast l `sublist_of` l.
Proof. rewrite removelast_firstn_len. apply sublist_take. Qed.

Lemma take_drop_sublist {A} (l : list A) (i j : nat) :
  (i <= j)%nat -> take i l ++ drop j l `sublist_of` l.
Proof.
  intros Hij. rewrite <-(take_drop i l) at 3.
  apply sublist_app; [done|].
  replace j with (i + (j - i))%nat by lia. rewrite <-drop_drop.
  apply sublist_drop.
Qed.

(** Every removal shrinks the sorted state. *)
Lemma pop_shrinks (s : SortedArray T) : shrinks (snd (pop cmp s)) (_sort cmp s).
Proof.
  unfold pop. destruct (last (array (_sort cmp s))); simpl.
  - apply shrinks_set_array, removelast_sublist.
  - apply shrinks_refl.
Qed.

Lemma shift_shrinks (s : SortedArray T) : shrinks (snd (shift cmp s)) (_sort cmp s).
Proof.
  unfold shift. destruct (array (_sort cmp s)) as [|nd rest] eqn:E; simpl.
  - apply shrinks_refl.
  - apply shrinks_set_array. rewrite E. by apply sublist_cons.
Qed.

Lemma relative_index_range (len i : Z) :
  0 <= len -> 0 <= relative_index len i <= len.
Proof. unfold relative_index. destruct (Z.ltb_spec i 0); lia. Qed.

Lemma splice_shrinks (start : Z) (deleteCount : option Z) (s : SortedArray T) :
  shrinks (snd (splice cmp start deleteCount [] s)) (_sort cmp s).
Proof.
  unfold splice. cbn [length Z.of_nat Z.ltb Z.compare snd].
  apply shrinks_set_array, take_drop_sublist.
  pose proof (relative_index_range
                (Z.of_nat (length (array (_sort cmp s)))) start).
  set (k := relative_index _ _) in *. lia.
Qed.

Lemma Handler_set_length_shrinks (n : Z) (s : SortedArray T) :
  shrinks (snd (Handler_set LengthKey (Some n) s)) s.
Proof.
  unfold Handler_set. destruct (n <? 0); simpl; [apply shrinks_refl|].
  destruct (_ <? n); simpl; [apply shrinks_refl|].
  apply shrinks_set_array, sublist_take.
Qed.

Lemma removeAll_shrinks (indices : list Z) (s : SortedArray T) :
  shrinks (snd (removeAll cmp indices s)) (_sort cmp s).
Proof. apply removeAll_loop_shrinks. Qed.

Lemma addAll_dirty (items : list T) (s : SortedArray T) :
  sorted (snd (addAll items s)) = false /\
  sorting (snd (addAll items s)) = sorting s.
Proof.
  unfold addAll. simpl.
  destruct (fold_addAll_push_flags items (set_sorted false s)) as [-> ->].
  done.
Qed.

Hypothesis Hc : consistent cmp.

Lemma step_lazy_ok (m : mutation T) (s : SortedArray T) :
  lazy_ok cmp s -> lazy_ok cmp (step cmp m s).
Proof using Hc.
  intros Hok. pose proof (_sort_lazy_ok cmp Hc s Hok) as Hok'.
  destruct m as [items|indices| | |start dc|n| |]; unfold step.
  - destruct (addAll_dirty items s) as [Hs Hg]. split.
    + rewrite Hg. apply Hok.
    + by rewrite Hs.
  - eapply shrinks_lazy_ok; [apply removeAll_shrinks|done].
  - eapply shrinks_lazy_ok; [apply pop_shrinks|done].
  - eapply shrinks_lazy_ok; [apply shift_shrinks|done].
  - eapply shrinks_lazy_ok; [apply splice_shrinks|done].
  - eapply shrinks_lazy_ok; [apply Handler_set_length_shrinks|done].
  - apply (_sort_lazy_ok cmp Hc). split; [apply Hok|done].
  - done.
Qed.

Lemma run_lazy_ok (ms : list (mutation T)) (s : SortedArray T) :
  lazy_ok cmp s -> lazy_ok cmp (run cmp ms s).
Proof using Hc.
  revert s. induction ms as [|m ms IH]; intros s Hok; simpl; [done|].
  by apply IH, step_lazy_ok.
Qed.

End States.

(** ** The state a read leaves *)

Section Reads.

Context {T : Type} `{EqDecision T}.
Variable cmp : T -> T -> number.

Lemma search_state (o : T) (min max : option Z) (s : SortedArray T) :
  snd (search cmp o min max s) = s \/
  snd (search cmp o min max s) = _sort cmp s.
Proof.
  unfold search.
  destruct min as [m|]; [destruct (m <? 0); [by left|]|];
    (destruct max as [mx|]; [destruct ((mx <? 0) || _); [by left|]|]);
    (destruct (_ =? 0); [by left|]); by right.
Qed.

Lemma search_clean (o : T) (min max : option Z) (s : SortedArray T) :
  _sort cmp s = s -> snd (search cmp o min max s) = s.
Proof. intros Hs. destruct (search_state o min max s); congruence. Qed.

Lemma searchAll_clean (o : T) (min max : option Z) (s : SortedArray T) :
  _sort cmp s = s -> snd (searchAll cmp o min max s) = s.
Proof.
  intros Hs. unfold searchAll.
  pose proof (search_clean o (Some (default 0 min))
                (Some (default (Z.of_nat (length (array s)) - 1) max)) s Hs) as H1.
  destruct (search cmp o _ _ s) as [[r|e] s1]; simpl in H1; subst s1; [|done].
  repeat case_match; done.
Qed.

Lemma searchExact_clean (o : T) (min max : option Z) (s : SortedArray T) :
  _sort cmp s = s -> snd (searchExact cmp o min max s) = s.
Proof.
  intros Hs. unfold searchExact.
  pose proof (searchAll_clean o min max s Hs) as H1.
  destruct (searchAll cmp o min max s) as [[r|e] s1]; simpl in H1; by subst s1.
Qed.

Lemma searchNth_clean (o : T) (n : option jsint) (min max : option Z)
    (exact : bool) (s : SortedArray T) :
  _sort cmp s = s -> snd (searchNth cmp o n min max exact s) = s.
Proof.
  intros Hs. unfold searchNth. destruct exact.
  - pose proof (searchExact_clean o min max s Hs) as H1.
    destruct (searchExact cmp o min max s) as [[r|e] s1]; simpl in H1; subst s1;
      [|done].
    repeat case_match; done.
  - pose proof (search_clean o min max s Hs) as H1.
    destruct (search cmp o min max s) as [[r|e] s1]; simpl in H1; subst s1;
      [|done].
    repeat case_match; done.
Qed.

Lemma findNth_state (o : T) (n : option jsint) (exact : bool) (s : SortedArray T) :
  snd (findNth cmp o n exact s) = _sort cmp s.
Proof.
  unfold findNth.
  pose proof (searchNth_clean o n None None exact _ (_sort_idem cmp s)) as H1.
  destruct (searchNth cmp o n None None exact (_sort cmp s)) as [[r|e] s1];
    simpl in H1; subst s1; [|done].
  repeat case_match; done.
Qed.

Lemma findAll_state (o : T) (exact : bool) (s : SortedArray T) :
  snd (findAll cmp o exact s) = _sort cmp s.
Proof.
  unfold findAll. destruct exact.
  - pose proof (searchExact_clean o None None _ (_sort_idem cmp s)) as H1.
    by destruct (searchExact cmp o None None (_sort cmp s)) as [[r|e] s1];
      simpl in H1; subst s1.
  - pose proof (searchAll_clean o None None _ (_sort_idem cmp s)) as H1.
    by destruct (searchAll cmp o None None (_sort cmp s)) as [[r|e] s1];
      simpl in H1; subst s1.
Qed.

Lemma includes_state (o : T) (f t : option jsint) (exact : bool)
    (s : SortedArray T) :
  snd (includes cmp o f t exact s) = _sort cmp s.
Proof.
  unfold includes. destruct exact.
  - pose proof (searchExact_clean o (calcTrueIndex f (_sort cmp s))
                  (calcTrueIndex t (_sort cmp s)) _ (_sort_idem cmp s)) as H1.
    by destruct (searchExact cmp o _ _ (_sort cmp s)) as [[r|e] s1];
      simpl in H1; subst s1.
  - pose proof (searchNth_clean o None (calcTrueIndex f (_sort cmp s))
                  (calcTrueIndex t (_sort cmp s)) false _ (_sort_idem cmp s)) as H1.
    by destruct (searchNth cmp o None _ _ false (_sort cmp s)) as [[r|e] s1];
      simpl in H1; subst s1.
Qed.

Lemma indexOf_with_state (from_end : bool) (o : T) (f t : option jsint)
    (exact : bool) (s : SortedArray T) :
  snd (indexOf_with cmp from_end o f t exact s) = _sort cmp s.
Proof.
  unfold indexOf_with. destruct exact.
  - pose proof (searchExact_clean o (calcTrueIndex f (_sort cmp s))
                  (calcTrueIndex t (_sort cmp s)) _ (_sort_idem cmp s)) as H1.
    destruct (searchExact cmp o _ _ (_sort cmp s)) as [[r|e] s1];
      simpl in H1; subst s1; [|done].
    by case_match.
  - pose proof (searchNth_clean o (Some (if from_end then NegZero else Int 0))
                  (calcTrueIndex f (_sort cmp s))
                  (calcTrueIndex t (_sort cmp s)) false _ (_sort_idem cmp s)) as H1.
    destruct (searchNth cmp o _ _ _ false (_sort cmp s)) as [[r|e] s1];
      simpl in H1; subst s1; [|done].
    by case_match.
Qed.

(** [findNearest] does not sort an empty array, which is sorted anyway. *)
Lemma findNearest_state (o : T) (s : SortedArray T) :
  array (snd (findNearest cmp o s)) = array (_sort cmp s).
Proof.
  unfold findNearest.
  assert (array (snd (search cmp o None None s)) = array (_sort cmp s)) as H1.
  { unfold search, wrapOne. simpl.
    destruct (Z.eqb_spec (Z.of_nat (length (array s))) 0) as [Hl|Hl]; simpl; [|done].
    destruct (array s) eqn:E; [|simpl in Hl; lia].
    destruct (negb (sorted s) && negb (sorting s)); simpl; by rewrite ?E. }
  destruct (search cmp o None None s) as [[r|e] s1]; simpl in *; [|done].
  repeat case_match; done.
Qed.

(** Draining the iterator right away reads the whole array. *)
Lemma iterator_drain_all (s : SortedArray T) (k : nat) (fuel : nat) :
  (length (array s) - k < fuel)%nat ->
  iterator_drain fuel k s = Return (unwrap (drop k (array s))).
Proof.
  revert k. induction fuel as [|fuel IH]; intros k Hf; [lia|].
  simpl. unfold iterator_next.
  destruct (array s !! k) as [nd|] eqn:E.
  - rewrite IH.
    + by rewrite (drop_S _ _ _ E).
    + apply lookup_lt_Some in E. lia.
  - apply lookup_ge_None in E. by rewrite drop_ge.
Qed.

Lemma iterate_spec (s : SortedArray T) :
  iterate cmp s = (Return (unwrap (array (_sort cmp s))), _sort cmp s).
Proof.
  unfold iterate, iterator. rewrite iterator_drain_all; [|lia].
  by rewrite drop_0.
Qed.

Lemma get_spec (i : Z) (s : SortedArray T) (v : T) :
  fst (get cmp i s) = Return v ->
  unwrap (array (_sort cmp s)) !! Z.to_nat i = Some v /\ 0 <= i /\
  snd (get cmp i s) = _sort cmp s.
Proof.
  unfold get, nth_js, unwrap. rewrite list_lookup_fmap.
  generalize (_sort cmp s). intros s1.
  destruct (Z.ltb_spec i 0); cbn [orb fst snd]; [discriminate|].
  destruct (_ <=? i); cbn [fst snd]; [discriminate|].
  destruct (array s1 !! Z.to_nat i); cbn [fst snd fmap option_fmap option_map];
    [|discriminate].
  intros [= <-]. done.
Qed.

(** All a read does to the state is a sort pass, if anything. *)
Lemma read_state_cases (r : reader T) (s : SortedArray T) :
  snd (read cmp r s) = s \/ snd (read cmp r s) = _sort cmp s.
Proof.
  assert (forall A (f : A -> observation) (c : completion A * SortedArray T),
            snd (observe f c) = snd c) as Hobs
    by (by intros A f [[a|e] s1]).
  destruct r as [|i|st en| |o n e|o e|o|o f t e|o f t e|o f t e];
    unfold read; rewrite Hobs.
  - by right.
  - unfold get. destruct (_ || _); [by left|].
    right. by destruct (nth_js _ _).
  - by right.
  - right. by rewrite iterate_spec.
  - right. apply findNth_state.
  - right. apply findAll_state.
  - unfold findNearest. pose proof (search_state o None None s) as H1.
    destruct (search cmp o None None s) as [[x|e'] s1]; simpl in H1; [|done].
    assert (forall c : completion (Nearest (T:=T)), snd (c, s1) = s1) as Hs by done.
    repeat case_match; done.
  - right. apply includes_state.
  - right. apply indexOf_with_state.
  - right. apply indexOf_with_state.
Qed.

(** A read that returns leaves the array as [_sort] leaves it. *)
Lemma read_state (r : reader T) (s : SortedArray T) (v : observation) :
  fst (read cmp r s) = Return v ->
  array (snd (read cmp r s)) = array (_sort cmp s).
Proof.
  destruct r as [|i|st en| |o n e|o e|o|o f t e|o f t e|o f t e];
    unfold read, observe.
  - done.
  - destruct (get cmp i s) as [[x|e] s1] eqn:E; simpl; [|done].
    intros _. pose proof (get_spec i s x) as H1. rewrite E in H1.
    destruct (H1 eq_refl) as (_ & _ & H2). simpl in H2. by subst.
  - done.
  - by rewrite iterate_spec.
  - pose proof (findNth_state o n e s) as H1.
    destruct (findNth cmp o n e s) as [[x|e'] s1]; simpl in *; by subst.
  - pose proof (findAll_state o e s) as H1.
    destruct (findAll cmp o e s) as [[x|e'] s1]; simpl in *; by subst.
  - pose proof (findNearest_state o s) as H1.
    destruct (findNearest cmp o s) as [[x|e'] s1]; simpl in *; by subst.
  - pose proof (includes_state o f t e s) as H1.
    destruct (includes cmp o f t e s) as [[x|e'] s1]; simpl in *; by subst.
  - pose proof (indexOf_with_state false o f t e s) as H1. unfold indexOf.
    destruct (indexOf_with cmp false o f t e s) as [[x|e'] s1]; simpl in *; by subst.
  - pose proof (indexOf_with_state true o f t e s) as H1. unfold lastIndexOf.
    destruct (indexOf_with cmp true o f t e s) as [[x|e'] s1]; simpl in *; by subst.
Qed.

End Reads.

(** ** Sortedness of what a read observes *)

Lemma consistent_NumericSort : consistent NumericSort.
Proof.
  unfold consistent, NumericSort, SortCompare.
  split; [done|]. split; intros; lia.
Qed.

(** C1.  Start from any constructor call and run any sequence of [add],
    [remove], [pop], [shift], [splice], length assignments and sorts.  Then
    the array a read sorts is fully sorted by the augmented compare function;
    every read that returns ([toArray], [get], [slice], iteration, the
    [find...] and [indexOf] family) leaves exactly that array behind, having
    sorted before it looked at an element; [toArray], a drained iterator,
    [slice] and [get] hand out payloads of that array; and the snapshot of
    [toArray] is non-decreasing under the payload compare function. *)
Theorem C1_reads_observe_sorted_storage {T : Type} `{EqDecision T}
    (cmp : T -> T -> number) (elements : option (list T))
    (ms : list (mutation T)) :
  consistent cmp ->
  let s := run cmp ms (new_SortedArray elements) in
  let storage := array (_sort cmp s) in
  StronglySorted (not_after (compareFn cmp)) storage /\
  (forall r v, fst (read cmp r s) = Return v ->
               array (snd (read cmp r s)) = storage) /\
  fst (toArray cmp s) = Return (unwrap storage) /\
  fst (iterate cmp s) = Return (unwrap storage) /\
  (forall start end_,
      fst (slice cmp start end_ s) = Return (unwrap (Array_slice storage start end_))) /\
  (forall i v, fst (get cmp i s) = Return v ->
               unwrap storage !! Z.to_nat i = Some v) /\
  StronglySorted (not_after cmp) (unwrap storage).
Proof.
  intros Hc s storage.
  assert (lazy_ok cmp s) as Hok.
  { apply run_lazy_ok; [done|]. apply new_SortedArray_lazy_ok. }
  assert (StronglySorted (not_after (compareFn cmp)) storage) as Hs
    by (by apply _sort_array_sorted).
  split; [done|]. split; [intros r v; apply read_state|].
  split; [done|]. split; [by rewrite iterate_spec|].
  split; [done|]. split.
  - intros i v Hv. by destruct (get_spec cmp i s v Hv) as (? & _).
  - by apply unwrap_sorted.
Qed.

Lemma C1_reads_observe_sorted_storage_witness :
  consistent NumericSort /\
  fst (toArray NumericSort
         (run NumericSort [MAdd [4; 1]; MPop; MAdd [0; 2]]
            (new_SortedArray (Some [3; 1; 2]))))
  = Return [0; 1; 1; 2; 2; 3].
Proof.
  split; [exact consistent_NumericSort|].
  destruct (C1_reads_observe_sorted_storage NumericSort (Some [3; 1; 2])
              [MAdd [4; 1]; MPop; MAdd [0; 2]] consistent_NumericSort)
    as (_ & _ & Hsnapshot & _).
  rewrite Hsnapshot. vm_compute. reflexivity.
Defined.

(** ** The renumbering pass *)

Lemma position_of_lookup (p : nat) (l : list nat) :
  p ∈ l -> l !! position_of p l = Some p.
Proof.
  induction l as [|x l IH]; intros Hp; [by apply elem_of_nil in Hp|].
  simpl. destruct (decide (x = p)) as [->|Hne]; [done|].
  simpl. apply IH. apply elem_of_cons in Hp as [->|Hp]; done.
Qed.

Lemma position_of_lt (p : nat) (l : list nat) :
  p ∈ l -> (position_of p l < length l)%nat.
Proof. intros Hp. eapply lookup_lt_Some, position_of_lookup, Hp. Qed.

Lemma position_of_inj (p q : nat) (l : list nat) :
  p ∈ l -> q ∈ l -> position_of p l = position_of q l -> p = q.
Proof.
  intros Hp Hq Heq. apply position_of_lookup in Hp, Hq.
  rewrite Heq in Hp. congruence.
Qed.

Lemma imap_id_ext {A} (f : nat -> A -> A) (l : list A) :
  (forall p x, l !! p = Some x -> f p x = x) -> imap f l = l.
Proof.
  intros Hf. apply list_eq. intros p. rewrite list_lookup_imap.
  destruct (l !! p) as [x|] eqn:E; simpl; [|done]. by rewrite (Hf p x E).
Qed.

Section Renumbering.

Context {T : Type}.

Lemma consistent_by_index (arr : list (SANode T)) : consistent (by_index arr).
Proof.
  unfold consistent, by_index, SortCompare.
  split; [done|]. split; intros; lia.
Qed.

Lemma fold_reduce_assign (copy : list nat) (s : SortedArray T) :
  NoDup copy ->
  insertionCounter (fold_left reduce_assign copy s)
  = insertionCounter s + Z.of_nat (length copy) /\
  array (fold_left reduce_assign copy s)
  = imap (fun p nd =>
            if decide (p ∈ copy)
            then mkNode (obj nd) (insertionCounter s + Z.of_nat (position_of p copy))
            else nd)
         (array s).
Proof.
  revert s. induction copy as [|e copy IH]; intros s Hnd.
  - simpl. split; [lia|]. symmetry. apply imap_id_ext. intros p x _.
    destruct (decide (p ∈ [])) as [Hp|]; [by apply elem_of_nil in Hp|done].
  - apply NoDup_cons in Hnd as [He Hnd]. simpl fold_left.
    destruct (IH (reduce_assign s e) Hnd) as [-> ->].
    split; [simpl; lia|].
    apply list_eq. intros p. rewrite !list_lookup_imap. simpl.
    destruct (decide (p = e)) as [->|Hne].
    + rewrite list_lookup_alter_eq.
      destruct (array s !! e) as [nd|]; simpl; [|done].
      destruct (decide (e ∈ copy)); [done|].
      destruct (decide (e ∈ e :: copy)) as [_|Hn]; [|by destruct Hn; left].
      destruct (decide (e = e)); [|done]. do 2 f_equal. lia.
    + rewrite list_lookup_alter_ne by done.
      destruct (array s !! p) as [nd|]; simpl; [|done].
      destruct (decide (p ∈ copy)) as [Hin|Hin].
      * destruct (decide (p ∈ e :: copy)) as [_|Hn]; [|by destruct Hn; right].
        destruct (decide (e = p)); [congruence|]. do 2 f_equal. lia.
      * destruct (decide (p ∈ e :: copy)) as [Hn|_]; [|done].
        apply elem_of_cons in Hn as [?|?]; done.
Qed.

Lemma copy_Permutation (arr : list (SANode T)) :
  Array_sort (by_index arr) (seq 0 (length arr)) ≡ₚ seq 0 (length arr).
Proof. apply Array_sort_Permutation. Qed.

Lemma elem_of_copy (arr : list (SANode T)) (p : nat) :
  p ∈ Array_sort (by_index arr) (seq 0 (length arr)) <-> (p < length arr)%nat.
Proof. rewrite copy_Permutation, elem_of_seq. lia. Qed.

Lemma reduceInsertionOrders_spec (s : SortedArray T) :
  insertionCounter (reduceInsertionOrders s)
  = MIN_SAFE_INTEGER + Z.of_nat (length (array s)) /\
  array (reduceInsertionOrders s)
  = imap (fun p nd =>
            mkNode (obj nd) (MIN_SAFE_INTEGER + Z.of_nat (renumber_rank (array s) p)))
         (array s).
Proof.
  unfold reduceInsertionOrders.
  destruct (fold_reduce_assign
              (Array_sort (by_index (array s)) (seq 0 (length (array s))))
              (set_insertionCounter MIN_SAFE_INTEGER s)) as [-> ->].
  { rewrite copy_Permutation. apply NoDup_seq. }
  split.
  - simpl. by rewrite Array_sort_length, length_seq.
  - apply list_eq. intros p. rewrite !list_lookup_imap. simpl.
    destruct (array s !! p) as [nd|] eqn:E; simpl; [|done].
    destruct (decide (p ∈ _)) as [_|Hn]; [done|].
    destruct Hn. apply elem_of_copy. by eapply lookup_lt_Some.
Qed.

Lemma renumber_rank_lt (arr : list (SANode T)) (p : nat) :
  (p < length arr)%nat -> (renumber_rank arr p < length arr)%nat.
Proof.
  intros Hp. unfold renumber_rank.
  pose proof (position_of_lt p _ (proj2 (elem_of_copy arr p) Hp)) as Hlt.
  by rewrite Array_sort_length, length_seq in Hlt.
Qed.

Lemma renumber_rank_inj (arr : list (SANode T)) (p q : nat) :
  (p < length arr)%nat -> (q < length arr)%nat ->
  renumber_rank arr p = renumber_rank arr q -> p = q.
Proof.
  intros Hp Hq. apply position_of_inj; by apply elem_of_copy.
Qed.

(** The pass keeps the order of the sequence numbers. *)
Lemma renumber_rank_mono (arr : list (SANode T)) (p q : nat) :
  (p < length arr)%nat -> (q < length arr)%nat ->
  index_at arr p < index_at arr q ->
  (renumber_rank arr p < renumber_rank arr q)%nat.
Proof.
  intros Hp Hq Hlt.
  destruct (Nat.lt_ge_cases (renumber_rank arr p) (renumber_rank arr q))
    as [|Hge]; [done|].
  apply Nat.lt_eq_cases in Hge as [Hgt|Heq].
  - pose proof (Array_sort_sorted (by_index arr) (consistent_by_index arr)
                  (seq 0 (length arr))) as Hs.
    pose proof (StronglySorted_lookup _ _ _ _ q p Hs Hgt
                  (position_of_lookup q _ (proj2 (elem_of_copy arr q) Hq))
                  (position_of_lookup p _ (proj2 (elem_of_copy arr p) Hp))) as Hqp.
    unfold not_after, by_index, SortCompare in Hqp. lia.
  - apply renumber_rank_inj in Heq; [|done..]. subst. lia.
Qed.

End Renumbering.

(** C7.  Take a state whose counter is in the safe range and whose array has
    a length an array can have, and wrap one more element.  The counter
    stays in the safe range.  Below the threshold nothing is renumbered.  At
    the threshold the pass gives the node at position [p] the number
    [MIN_SAFE_INTEGER + rank p], where [rank] maps the positions one-to-one
    into [0 .. n-1] (dense, from the initial minimum) and follows the old
    sequence numbers (a node with the smaller old number gets the smaller
    new one); payloads stay where they are, so two nodes with different old
    numbers compare under the augmented compare function as before; the new
    node is numbered after all of them.  (Inside [wrapOne] the counter is
    [insertionCounter s + 1] before the pass resets it, at most
    [MAX_SAFE_INTEGER].) *)
Theorem C7_renumbering_keeps_order {T : Type} (cmp : T -> T -> number)
    (o : T) (s : SortedArray T) :
  MIN_SAFE_INTEGER <= insertionCounter s < MAX_SAFE_INTEGER ->
  Z.of_nat (length (array s)) <= 2 ^ 32 - 1 ->
  let arr := array s in
  let n := length arr in
  let node := fst (wrapOne o false None s) in
  let s' := snd (wrapOne o false None s) in
  let rank := renumber_rank arr in
  MIN_SAFE_INTEGER <= insertionCounter s' < MAX_SAFE_INTEGER /\
  (insertionCounter s + 1 < MAX_SAFE_INTEGER ->
   array s' = arr /\ node = mkNode o (insertionCounter s) /\
   insertionCounter s' = insertionCounter s + 1) /\
  (MAX_SAFE_INTEGER <= insertionCounter s + 1 ->
   array s'
   = imap (fun p nd => mkNode (obj nd) (MIN_SAFE_INTEGER + Z.of_nat (rank p))) arr /\
   (forall p, (p < n)%nat -> (rank p < n)%nat) /\
   (forall p q, (p < n)%nat -> (q < n)%nat -> rank p = rank q -> p = q) /\
   (forall p q, (p < n)%nat -> (q < n)%nat ->
                index_at arr p < index_at arr q -> (rank p < rank q)%nat) /\
   (forall p q a b a' b',
       arr !! p = Some a -> arr !! q = Some b ->
       array s' !! p = Some a' -> array s' !! q = Some b' ->
       index a <> index b ->
       number_sign (compareFn cmp a' b') = number_sign (compareFn cmp a b)) /\
   node = mkNode o (MIN_SAFE_INTEGER + Z.of_nat n) /\
   insertionCounter s' = MIN_SAFE_INTEGER + Z.of_nat n + 1).
Proof.
  intros Hrange Hlen arr n node s' rank.
  assert (MIN_SAFE_INTEGER + Z.of_nat n + 1 < MAX_SAFE_INTEGER) as Hroom.
  { change (2 ^ 32 - 1) with 4294967295 in Hlen.
    change MIN_SAFE_INTEGER with (-9007199254740991).
    change MAX_SAFE_INTEGER with 9007199254740991.
    subst n arr. clear -Hlen. lia. }
  subst node s'. unfold wrapOne. cbn [negb default].
  destruct (reduceInsertionOrders_spec
              (set_insertionCounter (insertionCounter s + 1) s)) as [Hcnt Harr].
  cbn [set_insertionCounter array insertionCounter] in *.
  destruct (Z.leb_spec MAX_SAFE_INTEGER (insertionCounter s + 1)) as [Hthr|Hthr];
    cbn [fst snd set_insertionCounter array insertionCounter].
  - fold arr in Harr, Hcnt. fold n in Hcnt. fold rank in Harr.
    rewrite Hcnt, Harr.
    split; [lia|]. split; [lia|]. intros _.
    split; [done|].
    split; [apply renumber_rank_lt|].
    split; [apply renumber_rank_inj|].
    split; [apply renumber_rank_mono|].
    split; [|split; [done|lia]].
    intros p q a b a' b' Ha Hb Ha' Hb' Hne.
    rewrite list_lookup_imap, Ha in Ha'. rewrite list_lookup_imap, Hb in Hb'.
    simpl in Ha', Hb'. injection Ha' as <-. injection Hb' as <-.
    unfold compareFn. cbn [obj index].
    destruct (is_zero (cmp (obj a) (obj b))); [|done].
    assert (index_at arr p = index a) as Hpa by (unfold index_at; by rewrite Ha).
    assert (index_at arr q = index b) as Hqb by (unfold index_at; by rewrite Hb).
    pose proof (lookup_lt_Some _ _ _ Ha) as Hp.
    pose proof (lookup_lt_Some _ _ _ Hb) as Hq.
    simpl. f_equal. subst rank.
    destruct (Z.lt_total (index a) (index b)) as [Hlt|[Heq|Hgt]]; [|done|].
    + pose proof (renumber_rank_mono arr p q Hp Hq ltac:(lia)).
      rewrite (proj2 (Z.compare_lt_iff _ _)) by lia.
      by rewrite (proj2 (Z.compare_lt_iff _ _)) by lia.
    + pose proof (renumber_rank_mono arr q p Hq Hp ltac:(lia)).
      rewrite (proj2 (Z.compare_gt_iff _ _)) by lia.
      by rewrite (proj2 (Z.compare_gt_iff _ _)) by lia.
  - rewrite Z.add_0_r.
    split; [lia|]. split; [intros _; by repeat split|]. intros ?. lia.
Qed.

Lemma C7_renumbering_keeps_order_witness :
  let s :=
    mkSA [mkNode 10 (MAX_SAFE_INTEGER - 3); mkNode 20 (MAX_SAFE_INTEGER - 5);
          mkNode 30 (MAX_SAFE_INTEGER - 2)]
         false (MAX_SAFE_INTEGER - 1) false in
  (MIN_SAFE_INTEGER <= insertionCounter s < MAX_SAFE_INTEGER) /\
  Z.of_nat (length (array s)) <= 2 ^ 32 - 1 /\
  array (snd (wrapOne 40 false None s))
  = [mkNode 10 (MIN_SAFE_INTEGER + 1); mkNode 20 MIN_SAFE_INTEGER;
     mkNode 30 (MIN_SAFE_INTEGER + 2)] /\
  fst (wrapOne 40 false None s) = mkNode 40 (MIN_SAFE_INTEGER + 3).
Proof.
  intros s.
  assert (MIN_SAFE_INTEGER <= insertionCounter s < MAX_SAFE_INTEGER) as H1
    by (vm_compute; split; [discriminate|reflexivity]).
  assert (Z.of_nat (length (array s)) <= 2 ^ 32 - 1) as H2
    by (vm_compute; discriminate).
  split; [exact H1|]. split; [exact H2|].
  destruct (C7_renumbering_keeps_order NumericSort 40 s H1 H2)
    as (_ & _ & Hthreshold).
  destruct Hthreshold as (Harr & _ & _ & _ & _ & Hnode & _).
  { vm_compute. discriminate. }
  split; [rewrite Harr|rewrite Hnode]; vm_compute; reflexivity.
Defined.

(** ** Insertion order among equal payloads *)

Section Stamps.

Context {T : Type} `{EqDecision T}.
Variable cmp : T -> T -> number.











End Stamps.

Section StampedRuns.

Context {T : Type} `{EqDecision T}.
Variable cmp : T -> T -> number.



End StampedRuns.


Lemma consistent_by_first : consistent by_first.
Proof.
  unfold consistent, by_first, SortCompare.
  split; [done|]. split; intros; lia.
Qed.


(** ** Binary search *)

Section Search.

Context {T : Type} `{EqDecision T}.
Variable cmp : T -> T -> number.
Hypothesis Hc : consistent cmp.

Variable arr : list (SANode T).
Hypothesis Hsorted : StronglySorted (not_after (compareFn cmp)) arr.

Lemma nth_js_Some {A} (l : list A) (i : Z) (x : A) :
  nth_js l i = Some x <-> 0 <= i /\ l !! Z.to_nat i = Some x.
Proof.
  unfold nth_js. destruct (Z.ltb_spec i 0); split; try done.
  - intros [? _]. lia.
  - intros [_ ?]. done.
Qed.

Lemma nth_js_is_Some {A} (l : list A) (i : Z) :
  0 <= i < Z.of_nat (length l) -> is_Some (nth_js l i).
Proof.
  intros Hi. unfold nth_js. destruct (Z.ltb_spec i 0); [lia|].
  apply lookup_lt_is_Some. lia.
Qed.

Lemma nth_js_lt {A} (l : list A) (i : Z) (x : A) :
  nth_js l i = Some x -> 0 <= i < Z.of_nat (length l).
Proof.
  intros [? Hl]%nth_js_Some. apply lookup_lt_Some in Hl. lia.
Qed.

Lemma cmp_refl (a : T) : SortCompare cmp a a = 0.
Proof using Hc. pose proof (cmp_antisym cmp Hc a a). lia. Qed.

Lemma sorted_positions (i j : Z) (a b : SANode T) :
  nth_js arr i = Some a -> nth_js arr j = Some b -> i <= j ->
  SortCompare cmp (obj a) (obj b) <= 0.
Proof using Hc Hsorted.
  intros [Hi Ha]%nth_js_Some [Hj Hb]%nth_js_Some Hij.
  destruct (decide (i = j)) as [->|Hne].
  - rewrite Ha in Hb. injection Hb as ->. rewrite cmp_refl. lia.
  - apply (not_after_compareFn_obj cmp Hc).
    eapply (StronglySorted_lookup _ arr (Z.to_nat i) (Z.to_nat j)); eauto. lia.
Qed.

(** Everything at or after a payload above the key is above the key, and
    everything at or before a payload below the key is below it. *)
Lemma above_key_after (o : T) (i j : Z) (a b : SANode T) :
  nth_js arr i = Some a -> nth_js arr j = Some b -> i <= j ->
  SortCompare cmp o (obj a) < 0 -> SortCompare cmp o (obj b) < 0.
Proof using Hc Hsorted.
  intros Ha Hb Hij Hlt. eapply cmp_lt_le_trans; [done..|].
  by eapply sorted_positions.
Qed.

Lemma below_key_before (o : T) (i j : Z) (a b : SANode T) :
  nth_js arr i = Some a -> nth_js arr j = Some b -> i <= j ->
  0 < SortCompare cmp o (obj b) -> 0 < SortCompare cmp o (obj a).
Proof using Hc Hsorted.
  intros Ha Hb Hij Hgt.
  assert (SortCompare cmp (obj b) o < 0)
    by (pose proof (cmp_antisym cmp Hc o (obj b)); lia).
  assert (SortCompare cmp (obj a) o < 0).
  { eapply cmp_le_lt_trans; [done| |done]. by eapply sorted_positions. }
  pose proof (cmp_antisym cmp Hc o (obj a)). lia.
Qed.

(** The loop of [search], entered at the middle of [lo .. hi]: it returns,
    with a match inside the range, or with the last position whose payload is
    below the key. *)
Lemma search_loop_spec (o : T) (fuel : nat) (lo hi : Z) :
  0 <= lo -> hi < Z.of_nat (length arr) -> lo <= hi + 1 ->
  (Z.to_nat (hi - lo + 1) < fuel)%nat ->
  (forall i nd, 0 <= i < lo -> nth_js arr i = Some nd ->
                0 < SortCompare cmp o (obj nd)) ->
  (forall i nd, hi < i -> nth_js arr i = Some nd ->
                SortCompare cmp o (obj nd) < 0) ->
  exists r,
    search_loop cmp fuel o arr lo hi ((lo + hi) / 2) = Return r /\
    lo - 1 <= sr_index r <= hi /\
    if sr_found r then
      exists nd, nth_js arr (sr_index r) = Some nd /\
                 SortCompare cmp o (obj nd) = 0
    else
      (forall i nd, i <= sr_index r -> nth_js arr i = Some nd ->
                    0 < SortCompare cmp o (obj nd)) /\
      (forall i nd, sr_index r < i -> nth_js arr i = Some nd ->
                    SortCompare cmp o (obj nd) < 0).
Proof using Hc Hsorted.
  revert lo hi. induction fuel as [|fuel IH]; intros lo hi Hlo Hhi Hle Hfuel Hbelow Habove;
    [lia|].
  simpl. destruct (Z.leb_spec lo hi) as [Hrange|Hrange].
  - assert (lo <= (lo + hi) / 2 <= hi) as Hmid.
    { split; [apply Z.div_le_lower_bound|apply Z.div_le_upper_bound]; lia. }
    destruct (nth_js_is_Some arr ((lo + hi) / 2)) as [nd Hnd]; [lia|].
    rewrite Hnd. rewrite (is_zero_cmp cmp Hc), (is_neg_cmp cmp Hc), (is_pos_cmp cmp Hc).
    destruct (Z.eqb_spec (SortCompare cmp o (obj nd)) 0) as [Heq|Hne].
    { eexists. split; [done|]. simpl. split; [lia|]. eauto. }
    destruct (Z.ltb_spec (SortCompare cmp o (obj nd)) 0) as [Hlt|Hge].
    + destruct (IH lo ((lo + hi) / 2 - 1)) as (r & Hr & Hidx & Hres);
        [lia|lia|lia|lia|done| |].
      * intros i nd' Hi Hnd'. eapply above_key_after; [exact Hnd|exact Hnd'|lia|done].
      * exists r. split; [done|]. split; [lia|done].
    + destruct (Z.ltb_spec 0 (SortCompare cmp o (obj nd))) as [Hgt|]; [|lia].
      destruct (IH ((lo + hi) / 2 + 1) hi) as (r & Hr & Hidx & Hres);
        [lia|lia|lia|lia| |done|].
      * intros i nd' Hi Hnd'. eapply below_key_before; [exact Hnd'|exact Hnd|lia|done].
      * exists r. split; [done|]. split; [lia|done].
  - eexists. split; [done|]. simpl.
    assert ((lo + hi) / 2 = hi) as ->.
    { replace (lo + hi) with (hi * 2 + 1) by lia.
      rewrite Z.div_add_l by lia. change (1 / 2) with 0. lia. }
    split; [lia|]. split.
    + intros i nd Hi Hnd. apply (Hbelow i nd); [|done].
      apply nth_js_lt in Hnd. lia.
    + done.
Qed.

End Search.

(** ** [findNearest] *)

Section Nearest.

Context {T : Type} `{EqDecision T}.
Variable cmp : T -> T -> number.
Hypothesis Hc : consistent cmp.

Lemma search_full_range (o : T) (s : SortedArray T) :
  lazy_ok cmp s ->
  array s <> [] ->
  exists r,
    search cmp o None None s = (Return r, _sort cmp s) /\
    -1 <= sr_index r < Z.of_nat (length (array s)) /\
    if sr_found r then
      exists nd, nth_js (array (_sort cmp s)) (sr_index r) = Some nd /\
                 SortCompare cmp o (obj nd) = 0
    else
      (forall i nd, i <= sr_index r -> nth_js (array (_sort cmp s)) i = Some nd ->
                    0 < SortCompare cmp o (obj nd)) /\
      (forall i nd, sr_index r < i -> nth_js (array (_sort cmp s)) i = Some nd ->
                    SortCompare cmp o (obj nd) < 0).
Proof using Hc.
  intros Hok Hne. unfold search.
  destruct (Z.eqb_spec (Z.of_nat (length (array s))) 0) as [Hz|Hz].
  { destruct (array s); [done|simpl in Hz; lia]. }
  unfold wrapOne. cbn [negb fst snd obj].
  pose proof (_sort_length cmp s) as Hlen.
  destruct (search_loop_spec cmp Hc (array (_sort cmp s))
              (_sort_array_sorted cmp Hc s Hok) o
              (Z.to_nat (Z.of_nat (length (array s)) - 1) + 2)
              0 (Z.of_nat (length (array s)) - 1))
    as (r & Hr & Hidx & Hres); [lia..| | |].
  - intros i nd Hi. lia.
  - intros i nd Hi Hnd. apply nth_js_lt in Hnd. lia.
  - rewrite Z.add_0_l in Hr. exists r. rewrite Hr. split; [done|]. split; [lia|done].
Qed.

Lemma findNearest_spec (o : T) (s : SortedArray T) :
  lazy_ok cmp s ->
  exists res,
    fst (findNearest cmp o s) = Return res /\
    nearest_spec cmp o (unwrap (array (_sort cmp s))) res /\
    (array s = [] -> res = NearestLtGt None None).
Proof using Hc.
  intros Hok. unfold findNearest.
  destruct (decide (array s = [])) as [Hnil|Hne].
  - assert (array (_sort cmp s) = []) as ->.
    { apply length_zero_iff_nil. by rewrite _sort_length, Hnil. }
    unfold search. rewrite Hnil. simpl. rewrite Hnil. simpl.
    exists (NearestLtGt None None). split; [done|]. split; [|done].
    exists O. repeat split; intros i x Hx; by rewrite lookup_nil in Hx.
  - destruct (search_full_range o s Hok Hne) as (r & -> & Hidx & Hres).
    pose proof (_sort_length cmp s) as Hlen.
    assert (0 < Z.of_nat (length (array s))) as Hlen1
      by (destruct (array s); [done|simpl; lia]).
    set (arr := array (_sort cmp s)) in *.
    destruct r as [idx found]. cbn [sr_index sr_found] in *.
    destruct found.
    + destruct Hres as (nd & Hnd & Heq). unfold find_result. rewrite Hnd.
      eexists. split; [done|]. split; [|done]. cbn [nearest_spec fr_index fr_obj].
      apply nth_js_Some in Hnd as [? Hnd].
      split; [done|]. split.
      * unfold unwrap. by rewrite list_lookup_fmap, Hnd.
      * rewrite (is_zero_cmp cmp Hc). by apply Z.eqb_eq.
    + destruct Hres as [Hbelow Habove].
      assert (forall i x, unwrap arr !! i = Some x -> (Z.to_nat (idx + 1) <= i)%nat ->
                          is_neg (cmp o x) = true) as Hgt.
      { intros i x Hx Hi. unfold unwrap in Hx. rewrite list_lookup_fmap in Hx.
        destruct (arr !! i) as [nd|] eqn:E; [|done]. injection Hx as <-.
        rewrite (is_neg_cmp cmp Hc). apply Z.ltb_lt.
        apply (Habove (Z.of_nat i)); [lia|].
        apply nth_js_Some. split; [lia|]. by rewrite Nat2Z.id. }
      assert (forall i x, unwrap arr !! i = Some x -> (i < Z.to_nat (idx + 1))%nat ->
                          is_pos (cmp o x) = true) as Hlt.
      { intros i x Hx Hi. unfold unwrap in Hx. rewrite list_lookup_fmap in Hx.
        destruct (arr !! i) as [nd|] eqn:E; [|done]. injection Hx as <-.
        rewrite (is_pos_cmp cmp Hc). apply Z.ltb_lt.
        apply (Hbelow (Z.of_nat i)); [lia|].
        apply nth_js_Some. split; [lia|]. by rewrite Nat2Z.id. }
      destruct (Z.ltb_spec idx 0) as [Hneg|Hpos].
      * assert (idx = -1) as -> by lia.
        destruct (nth_js_is_Some arr 0) as [nd0 Hnd0]; [lia|].
        cbn [ext_ltb ext_geb find_result_ext find_result].
        fold arr. rewrite Hlen.
        destruct (Z.leb_spec (Z.of_nat (length (array s))) 0) as [|_]; [lia|].
        rewrite Hnd0. eexists. split; [done|]. split; [|done].
        exists O. split; [intros; lia|]. split; [exact Hgt|]. split; [done|].
        apply nth_js_Some in Hnd0 as [_ Hnd0].
        change (Z.to_nat 0) with O in Hnd0. unfold unwrap.
        by rewrite list_lookup_fmap, Hnd0.
      * fold arr. rewrite Hlen.
        destruct (Z.leb_spec (Z.of_nat (length (array s))) idx) as [|_]; [lia|].
        destruct (nth_js_is_Some arr idx) as [nd Hnd]; [lia|].
        rewrite Hnd. pose proof (Hbelow idx nd ltac:(lia) Hnd) as Hcmp.
        rewrite (is_neg_cmp cmp Hc), (is_pos_cmp cmp Hc).
        destruct (Z.ltb_spec (SortCompare cmp o (obj nd)) 0) as [|_]; [lia|].
        destruct (Z.ltb_spec 0 (SortCompare cmp o (obj nd))) as [_|]; [|lia].
        cbn [Z.b2z ext_ltb ext_geb find_result_ext find_result].
        rewrite Z.sub_0_r.
        destruct (Z.ltb_spec idx 0) as [|_]; [lia|]. rewrite Hnd.
        apply nth_js_Some in Hnd as [_ Hnd].
        assert (Z.to_nat (idx + 1) = S (Z.to_nat idx)) as Hk by lia.
        destruct (Z.leb_spec (Z.of_nat (length (array s))) (idx + 1)) as [Hend|Hmid].
        -- eexists. split; [done|]. split; [|done].
           exists (S (Z.to_nat idx)). rewrite <-Hk.
           split; [exact Hlt|]. split; [exact Hgt|]. rewrite Hk. split.
           ++ unfold unwrap. rewrite list_lookup_fmap, Hnd. simpl.
              by rewrite Z2Nat.id.
           ++ unfold unwrap. rewrite list_lookup_fmap.
              rewrite (lookup_ge_None_2 arr); [done|]. lia.
        -- destruct (nth_js_is_Some arr (idx + 1)) as [nd' Hnd']; [lia|].
           rewrite Hnd'. eexists. split; [done|]. split; [|done].
           exists (S (Z.to_nat idx)). rewrite <-Hk.
           split; [exact Hlt|]. split; [exact Hgt|]. rewrite Hk. split.
           ++ unfold unwrap. rewrite list_lookup_fmap, Hnd. simpl.
              by rewrite Z2Nat.id.
           ++ apply nth_js_Some in Hnd' as [_ Hnd']. rewrite Hk in Hnd'.
              unfold unwrap. rewrite list_lookup_fmap, Hnd'. simpl.
              do 2 f_equal. lia.
Qed.

End Nearest.

(** C4.  In every state a trace of calls reaches, [findNearest] returns (it
    does not throw) and its result meets [nearest_spec] on the sorted
    payloads: an [eq] entry that compares equal to the key, or, when no
    element compares equal, the [lt]/[gt] pair around the insertion point,
    [lt] the last element below the key and [gt] the first one above it,
    each [undefined] at its end of the array.  On an empty array the result
    is [{ lt: undefined, gt: undefined }]. *)
Theorem C4_findNearest_total {T : Type} `{EqDecision T}
    (cmp : T -> T -> number) (elements : option (list T))
    (ms : list (mutation T)) (o : T) :
  consistent cmp ->
  let s := run cmp ms (new_SortedArray elements) in
  exists res,
    fst (findNearest cmp o s) = Return res /\
    nearest_spec cmp o (unwrap (array (_sort cmp s))) res /\
    (array s = [] -> res = NearestLtGt None None).
Proof.
  intros Hc s. apply (findNearest_spec cmp Hc).
  apply run_lazy_ok; [done|]. apply new_SortedArray_lazy_ok.
Qed.

Lemma C4_findNearest_total_witness :
  consistent NumericSort /\
  exists res,
    fst (findNearest NumericSort 2
           (run NumericSort [MAdd [3]] (new_SortedArray (Some [5; 1]))))
    = Return res /\
    nearest_spec NumericSort 2
      (unwrap (array (_sort NumericSort
                        (run NumericSort [MAdd [3]] (new_SortedArray (Some [5; 1])))))) res /\
    (array (run NumericSort [MAdd [3]] (new_SortedArray (Some [5; 1]))) = [] ->
     res = NearestLtGt None None).
Proof.
  split; [exact consistent_NumericSort|].
  exact (C4_findNearest_total NumericSort (Some [5; 1]) [MAdd [3]] 2
           consistent_NumericSort).
Defined.

Example findNearest_between :
  fst (findNearest NumericSort 2
         (run NumericSort [MAdd [3]] (new_SortedArray (Some [5; 1]))))
  = Return (NearestLtGt (Some (mkFind 1 0)) (Some (mkFind 3 1))).
Proof. vm_compute. reflexivity. Qed.

(** ** [search] outside its bounds *)

(** C3.  On the sorted array [1, 2, 3, 4, 5], [search(3, 3, 4)] probes
    position [Math.floor(4 / 2) = 2] first, finds the key there and reports
    it found at position 2, outside the bounds [3 .. 4] it was given; through
    the public interface, [includes(3, 3, 4)] answers [true] and
    [indexOf(3, 3, 4)] answers [2].  With [max] equal to the length, which
    the validation accepts, a key above every element makes the loop read
    [this.array[length].obj] and throw a [TypeError]. *)
Theorem C3_search_leaves_its_bounds :
  let s := new_SortedArray (Some [1; 2; 3; 4; 5]) in
  fst (toArray NumericSort s) = Return [1; 2; 3; 4; 5] /\
  fst (search NumericSort 3 (Some 3) (Some 4) s) = Return (mkSearch 2 true) /\
  fst (includes NumericSort 3 (Some (Int 3)) (Some (Int 4)) false s) = Return true /\
  fst (indexOf NumericSort 3 (Some (Int 3)) (Some (Int 4)) false s)
  = Return (Some 2) /\
  fst (search NumericSort 9 (Some 0) (Some 5) s) = Throw TypeError.
Proof. vm_compute. repeat split. Qed.

(** ** [findNth] on exact matches *)

(** Counting back past the first exact match makes [searchNth] read its
    result list at a negative position and report [{ index: undefined,
    found: true }], which [findNth] then dereferences. *)
Lemma findNth_exact_overrun {T : Type} `{EqDecision T} (cmp : T -> T -> number)
    (o : T) (z : Z) (s : SortedArray T) (result : list Z) :
  fst (searchExact cmp o None None (_sort cmp s)) = Return result ->
  z < 0 ->
  Z.of_nat (length result) - 1 + z < 0 ->
  fst (findNth cmp o (Some (Int z)) true s) = Throw TypeError.
Proof.
  intros Hsearch Hz Hover. unfold findNth, searchNth.
  pose proof (searchExact_clean cmp o None None _ (_sort_idem cmp s)) as Hst.
  destruct (searchExact cmp o None None (_sort cmp s)) as [c s1].
  simpl in Hsearch, Hst. subst c s1. cbn [fmap option_fmap option_map jsint_val direction_of].
  destruct (Z.leb_spec (Z.of_nat (length result)) z) as [|_]; [lia|].
  destruct (Z.eqb_spec z 0) as [|_]; [lia|].
  destruct (decide (Some (Z.sgn z) = Some 1)) as [Hs|_].
  { injection Hs as Hs. pose proof (Z.sgn_neg z Hz). lia. }
  assert (nth_js result (Z.of_nat (length result) - 1 + z) = None) as ->.
  { unfold nth_js.
    by destruct (Z.ltb_spec (Z.of_nat (length result) - 1 + z) 0) as [_|]; [|lia]. }
  done.
Qed.

(** C5.  The README's example: with the same reference [exact] inserted
    twice, [findNth(exact, -1, true)] is the first of the two at position 5,
    but [findNth(exact, -2, true)], documented to give [undefined], throws a
    [TypeError]; a positive [n] past the matches gives [undefined] as
    documented.  On an empty collection every exact lookup throws, because
    [searchAll] passes [max = -1] to [search]. *)
Theorem C5_findNth_exact_negative_overrun :
  let exact : nat * (Z * Z) := (5%nat, (3, 1)) in
  let s :=
    new_SortedArray
      (Some [(0%nat, (1, 1)); (1%nat, (1, 2)); (2%nat, (2, 1)); (3%nat, (2, 2));
             (4%nat, (2, 3)); exact; exact]) in
  fst (findNth by_first_ref exact (Some (Int (-1))) true s)
  = Return (Some (mkFind exact 5)) /\
  fst (findNth by_first_ref exact (Some (Int (-2))) true s) = Throw TypeError /\
  fst (findNth by_first_ref exact (Some (Int 2)) true s) = Return None /\
  fst (findNth by_first_ref exact (Some (Int (-1))) true (new_SortedArray None))
  = Throw max_error.
Proof. vm_compute. repeat split. Qed.

(** ** Rejected mutations *)

(** C8.  In every state, [push], [concat], [reverse], [unshift], [fill],
    [copyWithin], an assignment to an integer property, [sort] with a compare
    function and [splice] with at least one replacement item throw at once,
    and the state of the collection after the throw is the state before the
    call. *)
Theorem C8_disallowed_mutations_throw {T : Type} `{EqDecision T}
    (cmp : T -> T -> number) (s : SortedArray T) :
  (forall items,
      push items s
      = (Throw (Error "push is an invalid operation on a sorted array"), s)) /\
  (forall items,
      concat items s
      = (Throw (Error "concat is an invalid operation on a sorted array"), s)) /\
  reverse s
  = (Throw (Error "reverse is an invalid operation on a sorted array"), s) /\
  (forall items,
      unshift items s
      = (Throw (Error "unshift is an invalid operation on a sorted array"), s)) /\
  (forall value start end_,
      fill value start end_ s
      = (Throw (Error "fill is an invalid operation on a sorted array"), s)) /\
  (forall target start end_,
      copyWithin target start end_ s
      = (Throw (Error "copyWithin is an invalid operation on a sorted array"), s)) /\
  (forall n value,
      Handler_set (IndexKey n) value s
      = (Throw (Error "set is an invalid operation on a sorted array"), s)) /\
  (forall compareFn',
      sort cmp (Some compareFn') s
      = (Throw (Error "sort is an invalid operation on a sorted array when providing a new compare function"), s)) /\
  (forall start deleteCount item items,
      splice cmp start deleteCount (item :: items) s
      = (Throw (Error "splice is an invalid operation on a sorted array when providing replacement items"), s)).
Proof.
  repeat split.
Qed.

(** ** [pop] and [shift] *)

(** C10.  For a consistent compare function and every state a sequence of
    calls reaches, the view [pop] and [shift] work on is the sorted view: it
    is sorted under the compare function, holds the payloads of the backing
    array, and is what [toArray] returns.  On a collection that holds an
    element [pop] returns the last payload of that view, which no element of
    the view is after, and [shift] the first one, which no element is
    before, and each leaves the others.  On a collection that holds nothing,
    reachable or not, the node taken off the array is [undefined] and
    reading [.obj] throws a [TypeError]. *)
Theorem C10_pop_shift {T : Type} `{EqDecision T}
    (cmp : T -> T -> number) (elements : option (list T))
    (ms : list (mutation T)) :
  consistent cmp ->
  let s := run cmp ms (new_SortedArray elements) in
  let view := unwrap (array (_sort cmp s)) in
  StronglySorted (not_after cmp) view /\
  view ≡ₚ unwrap (array s) /\
  fst (toArray cmp s) = Return view /\
  fst (pop cmp s)
  = match last view with Some v => Return v | None => Throw TypeError end /\
  fst (shift cmp s)
  = match head view with Some v => Return v | None => Throw TypeError end /\
  unwrap (array (snd (pop cmp s))) = removelast view /\
  unwrap (array (snd (shift cmp s))) = tail view /\
  (forall v, fst (pop cmp s) = Return v ->
             v ∈ view /\ forall x, x ∈ view -> not_after cmp x v) /\
  (forall v, fst (shift cmp s) = Return v ->
             v ∈ view /\ forall x, x ∈ view -> not_after cmp v x) /\
  (last view = None <-> array s = []) /\
  (head view = None <-> array s = []) /\
  (forall s0 : SortedArray T,
      array s0 = [] ->
      fst (pop cmp s0) = Throw TypeError /\ fst (shift cmp s0) = Throw TypeError) /\
  fst (pop cmp (new_SortedArray None)) = Throw TypeError /\
  fst (shift cmp (new_SortedArray None)) = Throw TypeError.
Proof.
  intros Hc s view.
  assert (lazy_ok cmp s) as Hok
    by (apply run_lazy_ok; [done|]; apply new_SortedArray_lazy_ok).
  pose proof (unwrap_sorted cmp Hc _ (_sort_array_sorted cmp Hc s Hok)) as Hsrt.
  fold view in Hsrt.
  assert (view ≡ₚ unwrap (array s)) as Hperm
    by (unfold view, unwrap; by rewrite (_sort_Permutation cmp s)).
  assert (fst (pop cmp s)
          = match last view with Some v => Return v | None => Throw TypeError end /\
          fst (shift cmp s)
          = match head view with Some v => Return v | None => Throw TypeError end /\
          unwrap (array (snd (pop cmp s))) = removelast view /\
          unwrap (array (snd (shift cmp s))) = tail view /\
          (last view = None <-> array s = []) /\
          (head view = None <-> array s = []))
    as (Hpop & Hshift & Hpop' & Hshift' & Hlast & Hhead).
  { clear Hsrt Hperm. subst view. unfold pop, shift, unwrap.
    pose proof (_sort_length cmp s) as Hlen.
    assert (array (_sort cmp s) = [] <-> array s = []) as Hnil.
    { rewrite <-!length_zero_iff_nil. by rewrite Hlen. }
    generalize dependent (_sort cmp s). intros s1 _ Hnil.
    rewrite fmap_last.
    split; [by destruct (last (array s1))|].
    split; [by destruct (array s1)|].
    split.
    { destruct (last (array s1)) as [nd|] eqn:E; simpl.
      - apply last_Some in E as [l' ->].
        rewrite fmap_app. change (obj <$> [nd]) with [obj nd].
        by rewrite !removelast_last.
      - apply last_None in E. by rewrite E. }
    split; [by destruct (array s1) eqn:E; simpl; rewrite ?E|].
    split.
    { rewrite <-Hnil. destruct (last (array s1)) eqn:E; simpl.
      - split; [done|]. intros Hs. by rewrite Hs in E.
      - by apply last_None in E. }
    rewrite <-Hnil. by destruct (array s1). }
  assert (forall v, fst (pop cmp s) = Return v ->
                    v ∈ view /\ forall x, x ∈ view -> not_after cmp x v) as Hgreatest.
  { intros v Hv. rewrite Hpop in Hv.
    destruct (last view) as [w|] eqn:El; [|done]. injection Hv as ->.
    split; [by apply last_Some_elem_of|].
    apply last_Some in El as [l' Hl']. rewrite Hl' in Hsrt |- *.
    intros x [Hx|Hx]%elem_of_app.
    - eapply StronglySorted_app_1_elem_of; [exact Hsrt|done|left].
    - apply list_elem_of_singleton in Hx as ->.
      unfold not_after. rewrite (cmp_refl cmp Hc). lia. }
  assert (forall v, fst (shift cmp s) = Return v ->
                    v ∈ view /\ forall x, x ∈ view -> not_after cmp v x) as Hleast.
  { intros v Hv. rewrite Hshift in Hv.
    destruct view as [|w rest] eqn:Ev; [done|]. simpl in Hv. injection Hv as ->.
    split; [left|].
    apply StronglySorted_inv in Hsrt as [_ Hall].
    intros x [->|Hx]%elem_of_cons.
    - unfold not_after. rewrite (cmp_refl cmp Hc). lia.
    - rewrite Forall_forall in Hall. by apply Hall. }
  assert (forall s0 : SortedArray T,
            array s0 = [] ->
            fst (pop cmp s0) = Throw TypeError /\
            fst (shift cmp s0) = Throw TypeError) as Hempty.
  { intros s0 Hnil.
    assert (array (_sort cmp s0) = []) as Hnil1
      by (apply length_zero_iff_nil; by rewrite _sort_length, Hnil).
    unfold pop, shift. by rewrite Hnil1. }
  exact (conj Hsrt (conj Hperm (conj eq_refl (conj Hpop (conj Hshift
           (conj Hpop' (conj Hshift' (conj Hgreatest (conj Hleast
           (conj Hlast (conj Hhead (conj Hempty
           (conj eq_refl eq_refl))))))))))))).
Qed.

Lemma C10_pop_shift_witness :
  let s := run NumericSort [MAdd [4; 2]] (new_SortedArray (Some [5; 3; 1])) in
  consistent NumericSort /\
  StronglySorted (not_after NumericSort) (unwrap (array (_sort NumericSort s))) /\
  fst (toArray NumericSort s) = Return [1; 2; 3; 4; 5] /\
  fst (pop NumericSort s) = Return 5 /\
  fst (shift NumericSort s) = Return 1 /\
  fst (pop NumericSort (run NumericSort [MPop] (new_SortedArray (Some [7]))))
  = Throw TypeError.
Proof.
  intros s. subst s. split; [exact consistent_NumericSort|].
  destruct (C10_pop_shift NumericSort (Some [5; 3; 1]) [MAdd [4; 2]]
              consistent_NumericSort) as (Hsrt & _ & _ & _ & _ & _ & _ & _ & _ & _ & _
                                          & Hempty & _).
  split; [exact Hsrt|].
  split; [vm_compute; reflexivity|].
  split; [vm_compute; reflexivity|].
  split; [vm_compute; reflexivity|].
  apply Hempty. vm_compute. reflexivity.
Defined.

(** ** [removeAll] *)

Lemma keep_except_nil {A} (p : Z) (l : list A) : keep_except [] p l = l.
Proof.
  revert p. induction l as [|x l IH]; intros p; simpl; [done|].
  destruct (decide (p ∈ [])) as [Hp|_]; [by apply elem_of_nil in Hp|].
  by rewrite IH.
Qed.

Lemma keep_except_fmap {A B} (f : A -> B) (xs : list Z) (p : Z) (l : list A) :
  f <$> keep_except xs p l = keep_except xs p (f <$> l).
Proof.
  revert p. induction l as [|x l IH]; intros p; simpl; [done|].
  destruct (decide (p ∈ xs)); simpl; by rewrite IH.
Qed.

Lemma keep_except_ext {A} (xs ys : list Z) (p : Z) (l : list A) :
  (forall x, x ∈ xs <-> x ∈ ys) -> keep_except xs p l = keep_except ys p l.
Proof.
  intros Hext. revert p. induction l as [|x l IH]; intros p; simpl; [done|].
  destruct (decide (p ∈ xs)) as [H1|H1], (decide (p ∈ ys)) as [H2|H2];
    rewrite ?IH; try done; by apply Hext in H1 || apply Hext in H2.
Qed.

Lemma keep_except_past {A} (x : Z) (rest : list Z) (q : Z) (l : list A) :
  x < q -> keep_except (x :: rest) q l = keep_except rest q l.
Proof.
  revert q. induction l as [|y l IH]; intros q Hq; simpl; [done|].
  rewrite IH by lia.
  destruct (decide (q ∈ x :: rest)) as [H1|H1], (decide (q ∈ rest)) as [H2|H2];
    try done.
  - apply elem_of_cons in H1 as [?|?]; [lia|done].
  - destruct H1. by right.
Qed.

Lemma keep_except_skip {A} (xs : list Z) (base : Z) (k : nat) (suf : list A) :
  Forall (fun x => base + Z.of_nat k <= x) xs ->
  keep_except xs base suf
  = take k suf ++ keep_except xs (base + Z.of_nat k) (drop k suf).
Proof.
  revert base suf. induction k as [|k IH]; intros base suf Hxs.
  - simpl. by rewrite Z.add_0_r.
  - destruct suf as [|y suf]; [done|]. simpl.
    destruct (decide (base ∈ xs)) as [Hin|_].
    { rewrite Forall_forall in Hxs. specialize (Hxs _ Hin). lia. }
    f_equal. rewrite (IH (base + 1)).
    + do 2 f_equal. lia.
    + eapply Forall_impl; [exact Hxs|]. intros x Hx. simpl in Hx. lia.
Qed.

Lemma omap_ext_Forall {A B} (f g : A -> option B) (l : list A) :
  Forall (fun x => f x = g x) l -> omap f l = omap g l.
Proof.
  induction 1 as [|x l Hx _ IH]; [done|].
  change (omap f (x :: l))
    with (match f x with Some y => y :: omap f l | None => omap f l end).
  change (omap g (x :: l))
    with (match g x with Some y => y :: omap g l | None => omap g l end).
  by rewrite Hx, IH.
Qed.

Lemma omap_cons_Some {A B} (f : A -> option B) (x : A) (y : B) (l : list A) :
  f x = Some y -> omap f (x :: l) = y :: omap f l.
Proof.
  intros Hx.
  change (omap f (x :: l))
    with (match f x with Some y => y :: omap f l | None => omap f l end).
  by rewrite Hx.
Qed.

Lemma set_array_set_array {T} (a b : list (SANode T)) (s : SortedArray T) :
  set_array a (set_array b s) = set_array a s.
Proof. done. Qed.

Lemma set_array_id {T} (s : SortedArray T) : set_array (array s) s = s.
Proof. by destruct s. Qed.

Section RemoveAll.

Context {T : Type} `{EqDecision T}.
Variable cmp : T -> T -> number.

(** One round of the loop on an index that is in range: the array is
    [pre ++ suf], [suf] starts at position [base] of the original array and
    [i] elements of [pre]'s original stretch are gone. *)
Lemma removeAll_loop_step (x : Z) (rest : list Z) (base : Z)
    (pre suf : list (SANode T)) (i : Z) (acc : list T) (s : SortedArray T) :
  base <= x < base + Z.of_nat (length suf) ->
  array s = pre ++ suf ->
  Z.of_nat (length pre) = base - i ->
  exists nd,
    suf !! Z.to_nat (x - base) = Some nd /\
    removeAll_loop (x :: rest) i acc s
    = removeAll_loop rest (i + 1) (acc ++ [obj nd])
        (set_array ((pre ++ take (Z.to_nat (x - base)) suf)
                    ++ drop (S (Z.to_nat (x - base))) suf) s).
Proof.
  intros Hx Harr Hpre.
  destruct (lookup_lt_is_Some_2 suf (Z.to_nat (x - base))) as [nd Hnd]; [lia|].
  exists nd. split; [done|]. simpl. rewrite Harr, length_app.
  destruct (Z.ltb_spec (x - i) 0) as [|_]; [lia|].
  destruct (Z.leb_spec (Z.of_nat (length pre + length suf)) (x - i)) as [|_]; [lia|].
  cbn [orb].
  assert (Z.to_nat (x - i) = (length pre + Z.to_nat (x - base))%nat) as Hk by lia.
  assert (nth_js (pre ++ suf) (x - i) = Some nd) as ->.
  { apply nth_js_Some. split; [lia|]. rewrite Hk.
    by rewrite lookup_app_r, Nat.add_comm, Nat.add_sub by lia. }
  do 2 f_equal. rewrite Hk.
  rewrite <-(take_drop_middle suf _ _ Hnd) at 1.
  rewrite (app_assoc pre).
  replace (length pre + Z.to_nat (x - base))%nat
    with (length (pre ++ take (Z.to_nat (x - base)) suf)).
  - by rewrite delete_middle.
  - rewrite length_app, length_take. apply lookup_lt_Some in Hnd. lia.
Qed.

Lemma removeAll_loop_in_range (xs : list Z) (base : Z)
    (pre suf : list (SANode T)) (i : Z) (acc : list T) (s : SortedArray T) :
  StronglySorted Z.lt xs ->
  Forall (fun x => base <= x < base + Z.of_nat (length suf)) xs ->
  array s = pre ++ suf ->
  Z.of_nat (length pre) = base - i ->
  removeAll_loop xs i acc s
  = (Return (acc ++ omap (fun x => obj <$> nth_js suf (x - base)) xs),
     set_array (pre ++ keep_except xs base suf) s).
Proof.
  revert base pre suf i acc s.
  induction xs as [|x rest IH]; intros base pre suf i acc s Hs Hr Harr Hpre.
  - simpl. by rewrite app_nil_r, keep_except_nil, <-Harr, set_array_id.
  - apply StronglySorted_inv in Hs as [Hs Hx].
    apply Forall_cons in Hr as [Hxr Hr].
    destruct (removeAll_loop_step x rest base pre suf i acc s Hxr Harr Hpre)
      as (nd & Hnd & ->).
    set (k := Z.to_nat (x - base)) in *.
    pose proof (lookup_lt_Some _ _ _ Hnd) as Hk.
    rewrite (IH (x + 1) (pre ++ take k suf) (drop (S k) suf)); [|done|..|done|].
    + f_equal.
      * rewrite <-app_assoc. do 2 f_equal.
        rewrite (omap_cons_Some _ x (obj nd)).
        2:{ assert (nth_js suf (x - base) = Some nd) as ->
              by (apply nth_js_Some; split; [lia|done]). done. }
        change ([obj nd] ++ ?l) with (obj nd :: l).
        apply (f_equal (cons (obj nd))).
        apply omap_ext_Forall.
        rewrite Forall_forall in Hx, Hr |- *. intros x' Hx'.
        specialize (Hx _ Hx'). specialize (Hr _ Hx'). simpl in Hr.
        unfold nth_js.
        destruct (Z.ltb_spec (x' - (x + 1)) 0) as [|_]; [lia|].
        destruct (Z.ltb_spec (x' - base) 0) as [|_]; [lia|].
        rewrite lookup_drop. do 2 f_equal. lia.
      * rewrite set_array_set_array. f_equal. rewrite <-app_assoc. f_equal.
        rewrite (keep_except_skip (x :: rest) base k suf).
        -- f_equal. rewrite (drop_S _ _ _ Hnd). simpl.
           replace (base + Z.of_nat k) with x by lia.
           destruct (decide (x ∈ x :: rest)) as [_|Hn]; [|by destruct Hn; left].
           symmetry. apply keep_except_past. lia.
        -- constructor; [lia|]. eapply Forall_impl; [exact Hx|].
           intros x' Hx'. simpl in Hx'. lia.
    + rewrite Forall_forall in Hx, Hr |- *. intros x' Hx'.
      specialize (Hx _ Hx'). specialize (Hr _ Hx'). simpl in Hr.
      rewrite length_drop. lia.
    + rewrite length_app, length_take. lia.
Qed.

Lemma removeAll_loop_out_of_range (xs : list Z) (base : Z)
    (pre suf : list (SANode T)) (i : Z) (acc : list T) (s : SortedArray T) :
  StronglySorted Z.lt xs ->
  Forall (fun x => base <= x) xs ->
  ~ Forall (fun x => x < base + Z.of_nat (length suf)) xs ->
  array s = pre ++ suf ->
  Z.of_nat (length pre) = base - i ->
  exists idx upper,
    fst (removeAll_loop xs i acc s) = Throw (OutOfBounds idx upper).
Proof.
  revert base pre suf i acc s.
  induction xs as [|x rest IH]; intros base pre suf i acc s Hs Hlo Hhi Harr Hpre.
  - destruct Hhi. constructor.
  - apply StronglySorted_inv in Hs as [Hs Hx].
    apply Forall_cons in Hlo as [Hxlo Hlo].
    destruct (Z.lt_ge_cases x (base + Z.of_nat (length suf))) as [Hin|Hout].
    + destruct (removeAll_loop_step x rest base pre suf i acc s
                  (conj Hxlo Hin) Harr Hpre) as (nd & Hnd & ->).
      set (k := Z.to_nat (x - base)) in *.
      pose proof (lookup_lt_Some _ _ _ Hnd) as Hk.
      apply (IH (x + 1) (pre ++ take k suf) (drop (S k) suf)); [done|..|done|].
      * eapply Forall_impl; [exact Hx|]. intros x' Hx'. simpl in Hx'. lia.
      * intros Hall. apply Hhi. constructor; [done|].
        eapply Forall_impl; [exact Hall|]. intros x' Hx'. simpl in Hx'.
        rewrite length_drop in Hx'. lia.
      * rewrite length_app, length_take. lia.
    + simpl. rewrite Harr, length_app.
      destruct (Z.leb_spec (Z.of_nat (length pre + length suf)) (x - i)) as [_|];
        [|lia].
      rewrite orb_true_r. simpl. eauto.
Qed.

End RemoveAll.

Lemma nth_js_fmap {A B} (f : A -> B) (l : list A) (i : Z) :
  nth_js (f <$> l) i = f <$> nth_js l i.
Proof. unfold nth_js. destruct (i <? 0); [done|]. apply list_lookup_fmap. Qed.

Lemma omap_length_Some {A B} (f : A -> option B) (l : list A) :
  Forall (fun x => is_Some (f x)) l -> length (omap f l) = length l.
Proof.
  induction 1 as [|x l [y Hy] _ IH]; [done|].
  rewrite (omap_cons_Some f x y l Hy). simpl. by rewrite IH.
Qed.

Lemma StronglySorted_NumericSort_lt (l : list Z) :
  StronglySorted (not_after NumericSort) l -> NoDup l -> StronglySorted Z.lt l.
Proof.
  induction 1 as [|x l Hs IH Hx]; intros Hnd; [constructor|].
  apply NoDup_cons in Hnd as [Hx' Hnd]. constructor; [by apply IH|].
  rewrite Forall_forall in Hx |- *. intros y Hy. specialize (Hx y Hy).
  unfold not_after, NumericSort, SortCompare in Hx.
  assert (x <> y) by (intros ->; done). lia.
Qed.

Lemma ascending_indices (indices : list Z) :
  NoDup indices ->
  StronglySorted Z.lt (Array_sort NumericSort indices) /\
  Array_sort NumericSort indices ≡ₚ indices.
Proof.
  intros Hnd. split; [|apply Array_sort_Permutation].
  apply StronglySorted_NumericSort_lt.
  - apply Array_sort_sorted, consistent_NumericSort.
  - by rewrite Array_sort_Permutation.
Qed.

(** C6, as the code has it.  For distinct indices into the sorted view:
    when all are in range, [removeAll] returns the payloads at those indices
    in ascending order of index, one for each index, whatever the order in
    which the caller listed them, and leaves the sorted view without the
    elements at those indices; when one of them is out of range it throws
    the [RangeError] of [oob]. *)
Theorem C6_removeAll_ascending_order {T : Type} `{EqDecision T}
    (cmp : T -> T -> number) (s : SortedArray T) (indices : list Z) :
  NoDup indices ->
  let snap := unwrap (array (_sort cmp s)) in
  let ascending := Array_sort NumericSort indices in
  StronglySorted Z.lt ascending /\
  ascending ≡ₚ indices /\
  (Forall (fun x => 0 <= x < Z.of_nat (length snap)) indices ->
   fst (removeAll cmp indices s) = Return (payloads_at snap ascending) /\
   length (payloads_at snap ascending) = length indices /\
   unwrap (array (snd (removeAll cmp indices s))) = keep_except indices 0 snap) /\
  (~ Forall (fun x => 0 <= x < Z.of_nat (length snap)) indices ->
   exists idx upper,
     fst (removeAll cmp indices s) = Throw (OutOfBounds idx upper)).
Proof.
  intros Hnd snap ascending.
  destruct (ascending_indices indices Hnd) as [Hasc Hperm].
  fold ascending in Hasc, Hperm.
  split; [done|]. split; [done|].
  assert (length snap = length (array (_sort cmp s))) as Hlen
    by (subst snap; unfold unwrap; by rewrite length_fmap).
  unfold removeAll. change (fun a b : Z => Num (a - b)) with NumericSort.
  fold ascending. split.
  - intros Hin. rewrite <-Hperm in Hin.
    rewrite (removeAll_loop_in_range ascending 0 [] (array (_sort cmp s)));
      [|done| |done|simpl; lia].
    2:{ eapply Forall_impl; [exact Hin|]. intros x Hx. simpl in Hx. lia. }
    cbn [fst snd array set_array app].
    assert (omap (fun x => obj <$> nth_js (array (_sort cmp s)) (x - 0)) ascending
            = payloads_at snap ascending) as ->.
    { apply omap_ext_Forall, Forall_forall. intros x _.
      subst snap. unfold unwrap. by rewrite nth_js_fmap, Z.sub_0_r. }
    split; [done|]. split.
    + rewrite <-(Permutation_length Hperm). apply omap_length_Some.
      eapply Forall_impl; [exact Hin|]. intros x Hx. simpl in Hx.
      apply nth_js_is_Some. lia.
    + unfold unwrap. rewrite keep_except_fmap. apply keep_except_ext.
      intros x. by rewrite Hperm.
  - intros Hout. rewrite <-Hperm in Hout.
    destruct (decide (Forall (fun x => 0 <= x) ascending)) as [Hlo|Hlo].
    + apply (removeAll_loop_out_of_range ascending 0 [] (array (_sort cmp s)));
        [done..| |done|simpl; lia].
      intros Hhi. apply Hout. rewrite Forall_forall in Hlo, Hhi |- *.
      intros x Hx. specialize (Hlo x Hx). specialize (Hhi x Hx).
      cbv beta in Hhi. lia.
    + destruct Hasc as [|x rest Hs Hx]; [by destruct Hlo|].
      assert (x < 0) as Hneg.
      { destruct (Z.lt_ge_cases x 0) as [|Hge]; [done|]. destruct Hlo.
        constructor; [lia|]. eapply Forall_impl; [exact Hx|].
        intros y Hy. simpl in Hy. lia. }
      simpl. destruct (Z.ltb_spec (x - 0) 0) as [_|]; [|lia]. simpl. eauto.
Qed.

Lemma C6_removeAll_ascending_order_witness :
  let s := new_SortedArray (Some [30; 10; 20]) in
  NoDup [2; 0] /\
  fst (removeAll NumericSort [2; 0] s) = Return [10; 30] /\
  unwrap (array (snd (removeAll NumericSort [2; 0] s))) = [20].
Proof.
  intros s.
  assert (NoDup [2; 0]) as Hnd by (by apply (bool_decide_unpack _)).
  split; [exact Hnd|].
  destruct (C6_removeAll_ascending_order NumericSort s [2; 0] Hnd)
    as (_ & _ & Hin & _).
  destruct Hin as (Hret & _ & Hkept).
  { by apply (bool_decide_unpack _). }
  split; [rewrite Hret|rewrite Hkept]; vm_compute; reflexivity.
Defined.

(** With an index listed twice the shift correction goes wrong: the second
    removal of index 1 takes position 0. *)
Example removeAll_duplicate_indices :
  let s := new_SortedArray (Some [30; 10; 20]) in
  fst (removeAll NumericSort [1; 1] s) = Return [20; 10] /\
  unwrap (array (snd (removeAll NumericSort [1; 1] s))) = [30].
Proof. vm_compute. by split. Qed.

(** C6 as stated fails: asked for the indices 2 and 0, in that order, of the
    sorted view [10, 20, 30], [removeAll] returns [10, 30] and not the
    payloads in the order requested, [30, 10]. *)
Lemma C6_removeAll_not_in_requested_order :
  let s := new_SortedArray (Some [30; 10; 20]) in
  fst (toArray NumericSort s) = Return [10; 20; 30] /\
  payloads_at [10; 20; 30] [2; 0] = [30; 10] /\
  fst (removeAll NumericSort [2; 0] s) = Return [10; 30] /\
  fst (removeAll NumericSort [2; 0] s)
  <> Return (payloads_at [10; 20; 30] [2; 0]).
Proof. vm_compute. repeat split. discriminate. Qed.

(** ** The default compare function *)

Lemma lex_compare_refl (a : list Z) : lex_compare a a = Eq.
Proof. induction a as [|x a IH]; simpl; [done|]. by rewrite Z.compare_refl. Qed.

Lemma lex_compare_Eq (a b : list Z) : lex_compare a b = Eq <-> a = b.
Proof.
  split; [|intros ->; apply lex_compare_refl].
  revert b. induction a as [|x a IH]; intros [|y b]; simpl; try done.
  destruct (Z.compare_spec x y) as [->| |]; try done.
  intros H. f_equal. by apply IH.
Qed.

Lemma lex_compare_prefix (a t : list Z) :
  t <> [] -> lex_compare a (a ++ t) = Lt /\ lex_compare (a ++ t) a = Gt.
Proof.
  intros Ht. induction a as [|x a IH]; simpl.
  - by destruct t.
  - by rewrite Z.compare_refl.
Qed.

Lemma charCodeAt_middle (pre suf : jsstring) (x : Z) :
  charCodeAt (pre ++ x :: suf) (Z.of_nat (length pre)) = Num x.
Proof.
  unfold charCodeAt, nth_js.
  destruct (Z.ltb_spec (Z.of_nat (length pre)) 0) as [|_]; [lia|].
  by rewrite Nat2Z.id, list_lookup_middle.
Qed.

(** The loop compares the strings code unit by code unit from position [i];
    [pa] and [pb] are the equal-length parts already passed, [a'] and [b']
    what is left.  The value the loop returns, completed by the length test
    that follows it, has the sign of the lexicographic comparison of [a']
    and [b']. *)
Lemma DefaultSort_loop_spec (a' b' pa pb : jsstring) (fuel : nat) :
  length pa = length pb ->
  a' <> [] -> b' <> [] -> a' <> b' ->
  (Nat.min (length a') (length b') <= S fuel)%nat ->
  number_sign
    (let compare :=
       DefaultSort_loop fuel (pa ++ a') (pb ++ b')
         (Z.min (Z.of_nat (length (pa ++ a'))) (Z.of_nat (length (pb ++ b'))))
         (Z.of_nat (length pa)) in
     if is_zero compare then
       (if Z.of_nat (length (pa ++ a')) <? Z.of_nat (length (pb ++ b'))
        then Num (-1) else Num 1)
     else compare)
  = Some (lex_compare a' b').
Proof.
  revert b' pa pb fuel.
  induction a' as [|x a'' IH]; intros [|y b''] pa pb fuel Hlen Ha Hb Hne Hfuel;
    try done.
  cbv zeta.
  assert (DefaultSort_loop fuel (pa ++ x :: a'') (pb ++ y :: b'')
            (Z.min (Z.of_nat (length (pa ++ x :: a'')))
                   (Z.of_nat (length (pb ++ y :: b''))))
            (Z.of_nat (length pa))
          = if (x - y =? 0)
               && (Z.of_nat (length pa) + 1
                   <? Z.min (Z.of_nat (length (pa ++ x :: a'')))
                            (Z.of_nat (length (pb ++ y :: b''))))
            then match fuel with
                 | O => NaN
                 | S fuel =>
                     DefaultSort_loop fuel (pa ++ x :: a'') (pb ++ y :: b'')
                       (Z.min (Z.of_nat (length (pa ++ x :: a'')))
                              (Z.of_nat (length (pb ++ y :: b''))))
                       (Z.of_nat (length pa) + 1)
                 end
            else Num (x - y)) as ->.
  { destruct fuel; simpl; rewrite charCodeAt_middle, Hlen, charCodeAt_middle; done. }
  rewrite !length_app. simpl length. simpl lex_compare.
  rewrite (Z.compare_sub x y).
  destruct (Z.eqb_spec (x - y) 0) as [Hxy|Hxy].
  - assert (x = y) as -> by lia. rewrite Z.sub_diag. simpl (0 ?= 0).
    cbn [andb].
    destruct (Z.ltb_spec (Z.of_nat (length pa) + 1)
                (Z.min (Z.of_nat (length pa + S (length a'')))
                       (Z.of_nat (length pb + S (length b''))))) as [Hmore|Hend].
    + destruct a'' as [|x' a3]; [simpl in Hmore; lia|].
      destruct b'' as [|y' b3]; [simpl in Hmore; lia|].
      destruct fuel as [|fuel]; [simpl in Hfuel; lia|].
      specialize (IH (y' :: b3) (pa ++ [y]) (pb ++ [y]) fuel).
      rewrite <-!app_assoc in IH. simpl in IH.
      rewrite !length_app in IH. simpl length in IH.
      replace (Z.of_nat (length pa + 1)) with (Z.of_nat (length pa) + 1) in IH by lia.
      replace (length pa + 1 + S (length a3))%nat
        with (length pa + S (S (length a3)))%nat in IH by lia.
      replace (length pb + 1 + S (length b3))%nat
        with (length pb + S (S (length b3)))%nat in IH by lia.
      apply IH; [lia|done|done|congruence|simpl in *; lia].
    + cbn [is_zero Z.eqb].
      destruct a'' as [|x' a3], b'' as [|y' b3]; simpl in *.
      * done.
      * by destruct (Z.ltb_spec (Z.of_nat (length pa + 1))
                        (Z.of_nat (length pb + S (S (length b3))))) as [_|];
          [|lia].
      * by destruct (Z.ltb_spec (Z.of_nat (length pa + S (S (length a3))))
                        (Z.of_nat (length pb + 1))) as [|_]; [lia|].
      * lia.
  - cbn [andb is_zero]. destruct (Z.eqb_spec (x - y) 0); [done|].
    simpl. by destruct (x - y ?= 0) eqn:E; [apply Z.compare_eq in E|..].
Qed.

(** C9, as the code has it.  [undefined] sorts after every defined value;
    two defined values are compared through their string forms, and the sign
    of the result is the lexicographic comparison of the two sequences of
    UTF-16 code units ([charCodeAt]), so that the result is [0] exactly when
    the strings are equal and a proper prefix sorts before the longer
    string. *)
Theorem C9_DefaultSort_by_code_units {V : Type}
    (strict_eq : V -> V -> bool) (String_ : V -> jsstring) (a b : option V) :
  (forall x y, strict_eq x y = true -> String_ x = String_ y) ->
  let compare := constructor_originalCompareFn strict_eq String_ None in
  match a, b with
  | None, None => compare a b = Num 0
  | None, Some _ => compare a b = Num 1
  | Some _, None => compare a b = Num (-1)
  | Some x, Some y =>
      number_sign (compare a b) = Some (lex_compare (String_ x) (String_ y)) /\
      (is_zero (compare a b) = true <-> String_ x = String_ y) /\
      (forall t, t <> [] -> String_ y = String_ x ++ t ->
                 is_neg (compare a b) = true) /\
      (forall t, t <> [] -> String_ x = String_ y ++ t ->
                 is_pos (compare a b) = true)
  end.
Proof.
  intros Hstr compare. subst compare.
  change (constructor_originalCompareFn strict_eq String_ None)
    with (DefaultSort strict_eq String_).
  destruct a as [x|], b as [y|]; try done.
  assert (number_sign (DefaultSort strict_eq String_ (Some x) (Some y))
          = Some (lex_compare (String_ x) (String_ y))) as Hsign.
  { unfold DefaultSort. destruct (strict_eq x y) eqn:Heq.
    { rewrite (Hstr x y Heq), lex_compare_refl. done. }
    destruct (decide (String_ x = String_ y)) as [->|Hne].
    { by rewrite lex_compare_refl. }
    destruct (String_ x) as [|cx sx] eqn:Ex.
    { simpl. by destruct (String_ y). }
    destruct (String_ y) as [|cy sy] eqn:Ey; [done|].
    destruct (Z.eqb_spec (Z.of_nat (length (cx :: sx))) 0) as [Hl|_];
      [simpl in Hl; lia|].
    destruct (Z.eqb_spec (Z.of_nat (length (cy :: sy))) 0) as [Hl|_];
      [simpl in Hl; lia|].
    apply (DefaultSort_loop_spec (cx :: sx) (cy :: sy) [] []); try done.
    simpl length. lia. }
  split; [done|].
  destruct (DefaultSort strict_eq String_ (Some x) (Some y)) as [z|]; [|done].
  simpl in Hsign. injection Hsign as Hsign.
  split; [|split].
  - rewrite <-lex_compare_Eq, <-Hsign. simpl.
    rewrite Z.eqb_eq. symmetry. apply Z.compare_eq_iff.
  - intros t Ht Hy. rewrite Hy in Hsign.
    destruct (lex_compare_prefix (String_ x) t Ht) as [Hlt _].
    rewrite Hlt in Hsign. simpl. apply Z.ltb_lt. by apply Z.compare_lt_iff.
  - intros t Ht Hx. rewrite Hx in Hsign.
    destruct (lex_compare_prefix (String_ y) t Ht) as [_ Hgt].
    rewrite Hgt in Hsign. simpl. apply Z.ltb_lt.
    apply Z.compare_gt_iff in Hsign. lia.
Qed.

Lemma C9_DefaultSort_by_code_units_witness :
  let strict_eq (x y : jsstring) := bool_decide (x = y) in
  (forall x y : jsstring, strict_eq x y = true -> id x = id y) /\
  number_sign
    (constructor_originalCompareFn strict_eq id None
       (Some [97; 98]) (Some [97; 98; 99]))
  = Some Lt.
Proof.
  intros strict_eq.
  assert (forall x y : jsstring, strict_eq x y = true -> id x = id y) as Hstr
    by (intros x y Hxy; exact (bool_decide_eq_true_1 _ Hxy)).
  split; [exact Hstr|].
  destruct (C9_DefaultSort_by_code_units strict_eq id
              (Some [97; 98]) (Some [97; 98; 99]) Hstr) as [Hsign _].
  rewrite Hsign. reflexivity.
Defined.

(** C9 as stated fails: the comparison is by code unit, not by code point.
    The string made of U+FF5E alone is the single code unit 65374, the
    string made of U+1F600 alone the surrogate pair 55357, 56832.  By code
    points the first string comes first; [DefaultSort] returns
    [65374 - 55357], a positive number, and sorts it last. *)
Lemma C9_DefaultSort_not_by_code_points :
  let strict_eq (x y : jsstring) := bool_decide (x = y) in
  let a := [65374] in
  let b := [55357; 56832] in
  code_points a = [65374] /\
  code_points b = [128512] /\
  lex_compare (code_points a) (code_points b) = Lt /\
  constructor_originalCompareFn strict_eq id None (Some a) (Some b)
  = Num 10017 /\
  number_sign (constructor_originalCompareFn strict_eq id None (Some a) (Some b))
  <> Some (lex_compare (code_points a) (code_points b)).
Proof. vm_compute. repeat split. discriminate. Qed.

(** ** The loops of the model never run out of fuel *)

Section Fuel.

Context {T : Type} `{EqDecision T}.
Variable cmp : T -> T -> number.

Lemma search_loop_fuel (o : T) (arr : list (SANode T)) (fuel : nat)
    (lo hi cur : Z) :
  (Z.to_nat (hi - lo + 1) < fuel)%nat ->
  (lo <= hi -> lo <= cur <= hi) ->
  no_fuel_error (search_loop cmp fuel o arr lo hi cur).
Proof.
  revert lo hi cur. induction fuel as [|fuel IH]; intros lo hi cur Hfuel Hcur;
    [lia|].
  simpl. destruct (Z.leb_spec lo hi) as [Hle|]; [|done].
  destruct (nth_js arr cur) as [nd|]; [|done].
  destruct (is_zero _); [done|].
  destruct (is_neg _).
  { apply IH; [lia|]. intros Hr.
    split; [apply Z.div_le_lower_bound|apply Z.div_le_upper_bound]; lia. }
  destruct (is_pos _); [|done].
  apply IH; [lia|]. intros Hr.
  split; [apply Z.div_le_lower_bound|apply Z.div_le_upper_bound]; lia.
Qed.

Lemma search_loop_unfold (o : T) (arr : list (SANode T)) (fuel : nat)
    (lo hi cur : Z) :
  search_loop cmp (S fuel) o arr lo hi cur
  = if lo <=? hi then
      match nth_js arr cur with
      | None => Throw TypeError
      | Some nd =>
          if is_zero (cmp o (obj nd)) then Return (mkSearch cur true)
          else if is_neg (cmp o (obj nd)) then
            search_loop cmp fuel o arr lo (cur - 1) ((lo + (cur - 1)) / 2)
          else if is_pos (cmp o (obj nd)) then
            search_loop cmp fuel o arr (cur + 1) hi ((cur + 1 + hi) / 2)
          else Throw nan_error
      end
    else Return (mkSearch cur false).
Proof. done. Qed.

Lemma search_fuel (o : T) (min max : option Z) (s : SortedArray T) :
  no_fuel_error (fst (search cmp o min max s)).
Proof.
  unfold search.
  set (len := Z.of_nat (length (array s))).
  assert (forall lo hi, 0 <= lo -> 0 <= hi ->
            no_fuel_error
              (search_loop cmp (Z.to_nat hi + 2) o (array (_sort cmp s)) lo hi
                 (hi / 2))) as Hloop.
  { intros lo hi Hlo Hhi.
    replace (Z.to_nat hi + 2)%nat with (S (S (Z.to_nat hi))) by lia.
    assert (0 <= hi / 2 <= hi) as Hhalf.
    { split; [apply Z.div_pos|apply Z.div_le_upper_bound]; lia. }
    rewrite search_loop_unfold. destruct (Z.leb_spec lo hi) as [Hle|]; [|done].
    destruct (nth_js _ (hi / 2)) as [nd|]; [|done].
    destruct (is_zero _); [done|].
    destruct (is_neg _).
    { apply search_loop_fuel; [lia|]. intros Hr.
      split; [apply Z.div_le_lower_bound|apply Z.div_le_upper_bound]; lia. }
    destruct (is_pos _); [|done].
    apply search_loop_fuel; [lia|]. intros Hr.
    split; [apply Z.div_le_lower_bound|apply Z.div_le_upper_bound]; lia. }
  destruct min as [lo|]; [destruct (Z.ltb_spec lo 0); [done|]|];
    (destruct max as [hi|];
     [destruct (Z.ltb_spec hi 0); [done|]; destruct (len <? hi); [done|]|]);
    cbn [orb]; (destruct (Z.eqb_spec len 0); [done|]);
    unfold wrapOne; cbn [negb fst snd obj]; apply Hloop; lia.
Qed.

Lemma searchAll_up_fuel (o : T) (arr : list (SANode T)) (fuel : nat)
    (max i : Z) (results : list Z) :
  (Z.to_nat (Z.of_nat (length arr) - Z.max 0 i) < fuel)%nat ->
  no_fuel_error (searchAll_up cmp fuel o arr max i results).
Proof.
  revert i results. induction fuel as [|fuel IH]; intros i results Hfuel; [lia|].
  simpl. destruct (i <=? max); [|done].
  destruct (nth_js arr i) as [nd|] eqn:E; [|done].
  apply nth_js_lt in E.
  destruct (is_zero _); [|done]. apply IH. lia.
Qed.

Lemma searchAll_down_fuel (o : T) (arr : list (SANode T)) (fuel : nat)
    (min i : Z) (results : list Z) :
  (Z.to_nat (Z.min i (Z.of_nat (length arr) - 1) + 1) < fuel)%nat ->
  no_fuel_error (searchAll_down cmp fuel o arr min i results).
Proof.
  revert i results. induction fuel as [|fuel IH]; intros i results Hfuel; [lia|].
  simpl. destruct (min <=? i); [|done].
  destruct (nth_js arr i) as [nd|] eqn:E; [|done].
  apply nth_js_lt in E.
  destruct (is_zero _); [|done]. apply IH. lia.
Qed.

Lemma searchNth_up_fuel (o : T) (arr : list (SANode T)) (fuel : nat) (i : Z) :
  (Z.to_nat (Z.of_nat (length arr) - Z.max 0 i) < fuel)%nat ->
  no_fuel_error (searchNth_up cmp fuel o arr i).
Proof.
  revert i. induction fuel as [|fuel IH]; intros i Hfuel; [lia|].
  simpl. destruct (i <? _); [|done].
  destruct (nth_js arr i) as [nd|] eqn:E; [|done].
  apply nth_js_lt in E.
  destruct (is_zero _); [|done]. apply IH. lia.
Qed.

Lemma searchNth_down_fuel (o : T) (arr : list (SANode T)) (fuel : nat) (i : Z) :
  (Z.to_nat (Z.min i (Z.of_nat (length arr) - 1) + 1) < fuel)%nat ->
  no_fuel_error (searchNth_down cmp fuel o arr i).
Proof.
  revert i. induction fuel as [|fuel IH]; intros i Hfuel; [lia|].
  simpl. destruct (0 <=? i); [|done].
  destruct (nth_js arr i) as [nd|] eqn:E; [|done].
  apply nth_js_lt in E.
  destruct (is_zero _); [|done]. apply IH. lia.
Qed.

Lemma searchAll_fuel (o : T) (min max : option Z) (s : SortedArray T) :
  no_fuel_error (fst (searchAll cmp o min max s)).
Proof.
  unfold searchAll.
  pose proof (search_fuel o (Some (default 0 min))
                (Some (default (Z.of_nat (length (array s)) - 1) max)) s) as Hs.
  destruct (search cmp o _ _ s) as [[r|e] s1]; [|exact Hs].
  destruct (negb (sr_found r)); [done|].
  pose proof (searchAll_up_fuel o (array s1) (S (S (length (array s1))))
                (default (Z.of_nat (length (array s)) - 1) max) (sr_index r) []
                ltac:(lia)) as Hup.
  destruct (searchAll_up cmp _ o (array s1) _ (sr_index r) []) as [results|e];
    [|done].
  cbn [fst]. apply searchAll_down_fuel. lia.
Qed.

Lemma filter_exact_fuel (o : T) (arr : list (SANode T)) (result : list Z) :
  no_fuel_error
    (foldr
       (fun v (acc : completion (list Z)) =>
          match acc with
          | Throw e => Throw e
          | Return acc =>
              match nth_js arr v with
              | None => Throw TypeError
              | Some nd => Return (if decide (obj nd = o) then v :: acc else acc)
              end
          end)
       (Return []) result).
Proof.
  induction result as [|v result IH]; simpl; [done|].
  destruct (foldr _ _ result) as [acc|e]; [|done].
  by destruct (nth_js arr v).
Qed.

Lemma searchExact_fuel (o : T) (min max : option Z) (s : SortedArray T) :
  no_fuel_error (fst (searchExact cmp o min max s)).
Proof.
  pose proof (searchAll_fuel o min max s) as Hs. unfold searchExact.
  destruct (searchAll cmp o min max s) as [[r|e] s1]; [|exact Hs].
  apply filter_exact_fuel.
Qed.

Lemma searchNth_fuel (o : T) (n : option jsint) (min max : option Z)
    (exact : bool) (s : SortedArray T) :
  no_fuel_error (fst (searchNth cmp o n min max exact s)).
Proof.
  unfold searchNth. destruct exact.
  - pose proof (searchExact_fuel o min max s) as Hs.
    destruct (searchExact cmp o min max s) as [[r|e] s1]; [|exact Hs].
    destruct (jsint_val <$> n); [|done]. by destruct (_ <=? _).
  - pose proof (search_fuel o min max s) as Hs.
    destruct (search cmp o min max s) as [[r|e] s1]; [|exact Hs].
    destruct n as [n|]; [|done].
    destruct (negb (sr_found r)); [done|].
    destruct (decide (direction_of n = -1)).
    + pose proof (searchNth_up_fuel o (array s1) (S (S (length (array s1))))
                    (sr_index r + 1) ltac:(lia)) as Hup.
      destruct (searchNth_up cmp _ o (array s1) (sr_index r + 1)) as [i|e']; [|done].
      destruct (_ && _); [|done]. by destruct (nth_js _ _).
    + pose proof (searchNth_down_fuel o (array s1) (S (S (length (array s1))))
                    (sr_index r - 1) ltac:(lia)) as Hdown.
      destruct (searchNth_down cmp _ o (array s1) (sr_index r - 1)) as [i|e']; [|done].
      destruct (_ && _); [|done]. by destruct (nth_js _ _).
Qed.

Lemma find_result_fuel (arr : list (SANode T)) (i : option Z) :
  no_fuel_error (find_result arr i).
Proof. unfold find_result. destruct i as [i|]; [|done]. by destruct (nth_js arr i). Qed.

Lemma findNth_fuel (o : T) (n : option jsint) (exact : bool) (s : SortedArray T) :
  no_fuel_error (fst (findNth cmp o n exact s)).
Proof.
  unfold findNth.
  pose proof (searchNth_fuel o n None None exact (_sort cmp s)) as Hs.
  destruct (searchNth cmp o n None None exact (_sort cmp s)) as [[r|e] s1];
    [|exact Hs].
  destruct (negb (nr_found r)); [done|].
  pose proof (find_result_fuel (array s1) (nr_index r)) as Hf.
  by destruct (find_result (array s1) (nr_index r)).
Qed.

Lemma map_find_result_fuel (arr : list (SANode T)) (result : list Z) :
  no_fuel_error
    (foldr
       (fun v (acc : completion (list (FindResult T))) =>
          match acc, find_result arr (Some v) with
          | Throw e, _ => Throw e
          | _, Throw e => Throw e
          | Return acc, Return r => Return (r :: acc)
          end)
       (Return []) result).
Proof.
  induction result as [|v result IH]; simpl; [done|].
  destruct (foldr _ _ result) as [acc|e]; [|done].
  by destruct (nth_js arr v).
Qed.

Lemma findAll_fuel (o : T) (exact : bool) (s : SortedArray T) :
  no_fuel_error (fst (findAll cmp o exact s)).
Proof.
  unfold findAll.
  assert (no_fuel_error
            (fst (if exact then searchExact cmp o None None (_sort cmp s)
                  else searchAll cmp o None None (_sort cmp s)))) as Hs
    by (destruct exact; [apply searchExact_fuel|apply searchAll_fuel]).
  destruct (if exact then _ else _) as [[r|e] s1]; [|exact Hs].
  apply map_find_result_fuel.
Qed.

Lemma findNearest_fuel (o : T) (s : SortedArray T) :
  no_fuel_error (fst (findNearest cmp o s)).
Proof.
  unfold findNearest. pose proof (search_fuel o None None s) as Hs.
  destruct (search cmp o None None s) as [[r|e] s1]; [|exact Hs].
  unfold find_result_ext, find_result.
  repeat (case_match; simplify_eq; try done).
Qed.

Lemma includes_fuel (o : T) (f t : option jsint) (exact : bool)
    (s : SortedArray T) :
  no_fuel_error (fst (includes cmp o f t exact s)).
Proof.
  unfold includes. destruct exact.
  - pose proof (searchExact_fuel o (calcTrueIndex f (_sort cmp s))
                  (calcTrueIndex t (_sort cmp s)) (_sort cmp s)) as Hs.
    by destruct (searchExact cmp o _ _ (_sort cmp s)) as [[r|e] s1]; [|exact Hs].
  - pose proof (searchNth_fuel o None (calcTrueIndex f (_sort cmp s))
                  (calcTrueIndex t (_sort cmp s)) false (_sort cmp s)) as Hs.
    by destruct (searchNth cmp o None _ _ false (_sort cmp s)) as [[r|e] s1];
      [|exact Hs].
Qed.

Lemma indexOf_with_fuel (from_end : bool) (o : T) (f t : option jsint)
    (exact : bool) (s : SortedArray T) :
  no_fuel_error (fst (indexOf_with cmp from_end o f t exact s)).
Proof.
  unfold indexOf_with. destruct exact.
  - pose proof (searchExact_fuel o (calcTrueIndex f (_sort cmp s))
                  (calcTrueIndex t (_sort cmp s)) (_sort cmp s)) as Hs.
    destruct (searchExact cmp o _ _ (_sort cmp s)) as [[r|e] s1]; [|exact Hs].
    by destruct (_ <? _).
  - pose proof (searchNth_fuel o (Some (if from_end then NegZero else Int 0))
                  (calcTrueIndex f (_sort cmp s))
                  (calcTrueIndex t (_sort cmp s)) false (_sort cmp s)) as Hs.
    destruct (searchNth cmp o _ _ _ false (_sort cmp s)) as [[r|e] s1];
      [|exact Hs].
    by destruct (nr_found r).
Qed.

Lemma observe_fuel {A} (f : A -> observation (T:=T))
    (r : completion A * SortedArray T) :
  no_fuel_error (fst r) -> no_fuel_error (fst (observe f r)).
Proof. by destruct r as [[a|e] s]. Qed.

(** No read ever answers [OutOfFuel]: what the model returns or throws is
    what the code returns or throws. *)
Lemma read_fuel (r : reader T) (s : SortedArray T) :
  no_fuel_error (fst (read cmp r s)).
Proof.
  destruct r as [|i|st en| |o n e|o e|o|o f t e|o f t e|o f t e];
    unfold read; apply observe_fuel.
  - done.
  - unfold get. destruct (_ || _); [done|]. by destruct (nth_js _ _).
  - done.
  - by rewrite iterate_spec.
  - apply findNth_fuel.
  - apply findAll_fuel.
  - apply findNearest_fuel.
  - apply includes_fuel.
  - apply indexOf_with_fuel.
  - apply indexOf_with_fuel.
Qed.

End Fuel.

(** ** Where the matches of a key lie in a sorted array *)

Lemma filter_none {A} (P : A -> Prop) `{!forall x, Decision (P x)} (l : list A) :
  Forall (fun x => ~ P x) l -> filter P l = [].
Proof.
  induction 1 as [|x l Hx _ IH]; [done|]. by rewrite filter_cons_False.
Qed.

Section Matches.

Context {T : Type} `{EqDecision T}.
Variable cmp : T -> T -> number.
Hypothesis Hc : consistent cmp.
Variable o : T.

Lemma sign_cases (x : T) :
  (is_pos (cmp o x) = true /\ is_zero (cmp o x) = false /\ is_neg (cmp o x) = false) \/
  (is_pos (cmp o x) = false /\ is_zero (cmp o x) = true /\ is_neg (cmp o x) = false) \/
  (is_pos (cmp o x) = false /\ is_zero (cmp o x) = false /\ is_neg (cmp o x) = true).
Proof using Hc.
  rewrite (is_zero_cmp cmp Hc), (is_neg_cmp cmp Hc), (is_pos_cmp cmp Hc).
  destruct (Z.ltb_spec 0 (SortCompare cmp o x)), (Z.eqb_spec (SortCompare cmp o x) 0),
    (Z.ltb_spec (SortCompare cmp o x) 0); auto; lia.
Qed.

(** In a sorted list the payloads below the key come first, then the
    payloads equal to it, then the payloads above it. *)
Lemma sorted_classify (snap : list T) (i : nat) (x : T) :
  StronglySorted (not_after cmp) snap ->
  snap !! i = Some x ->
  (is_pos (cmp o x) = true <-> Z.of_nat i < lower_bound cmp o snap) /\
  (is_zero (cmp o x) = true <->
     lower_bound cmp o snap <= Z.of_nat i
     < lower_bound cmp o snap + match_count cmp o snap).
Proof using Hc.
  unfold lower_bound, match_count.
  intros Hs. revert i. induction Hs as [|y l Hs IH Hy]; intros i Hx; [done|].
  destruct (sign_cases y) as [(Hp & Hz & Hn)|[(Hp & Hz & Hn)|(Hp & Hz & Hn)]].
  - rewrite (filter_cons_True _ y) by done.
    rewrite (filter_cons_False (fun x => is_zero (cmp o x) = true) y) by congruence.
    destruct i as [|i]; simpl in Hx.
    + injection Hx as <-. rewrite Hp, Hz. cbn [length]. split; split; (done || lia).
    + destruct (IH i Hx) as [IH1 IH2]. cbn [length]. rewrite IH1, IH2. lia.
  - assert (Forall (fun z => ~ is_pos (cmp o z) = true) l) as Hl.
    { eapply Forall_impl; [exact Hy|]. intros z Hz'. unfold not_after in Hz'. simpl.
      rewrite (is_zero_cmp cmp Hc) in Hz. apply Z.eqb_eq in Hz.
      rewrite (is_pos_cmp cmp Hc). intros ?%Z.ltb_lt.
      pose proof (cmp_le_trans cmp Hc o y z). lia. }
    rewrite (filter_cons_False _ y) by congruence.
    rewrite (filter_cons_True (fun x => is_zero (cmp o x) = true) y) by done.
    destruct i as [|i]; simpl in Hx.
    + injection Hx as <-. rewrite Hp, Hz. rewrite (filter_none _ l Hl).
      cbn [length]. split; split; (done || lia).
    + destruct (IH i Hx) as [IH1 IH2]. rewrite (filter_none _ l Hl) in *.
      cbn [length] in *. rewrite IH1, IH2. lia.
  - assert (Forall (fun z => is_neg (cmp o z) = true) l) as Hl.
    { eapply Forall_impl; [exact Hy|]. intros z Hz'. unfold not_after in Hz'. simpl.
      rewrite (is_neg_cmp cmp Hc) in *. apply Z.ltb_lt in Hn. apply Z.ltb_lt.
      by apply (cmp_lt_le_trans cmp Hc o y z). }
    assert (Forall (fun z => ~ is_pos (cmp o z) = true) l) as Hl1.
    { eapply Forall_impl; [exact Hl|]. intros z Hz'. simpl in *.
      destruct (sign_cases z) as [(? & ? & ?)|[(? & ? & ?)|(? & ? & ?)]]; congruence. }
    assert (Forall (fun z => ~ is_zero (cmp o z) = true) l) as Hl2.
    { eapply Forall_impl; [exact Hl|]. intros z Hz'. simpl in *.
      destruct (sign_cases z) as [(? & ? & ?)|[(? & ? & ?)|(? & ? & ?)]]; congruence. }
    rewrite (filter_cons_False _ y) by congruence.
    rewrite (filter_cons_False (fun x => is_zero (cmp o x) = true) y) by congruence.
    rewrite (filter_none _ l Hl1), (filter_none _ l Hl2). cbn [length].
    destruct i as [|i]; simpl in Hx.
    + injection Hx as <-. rewrite Hp, Hz. split; split; (done || lia).
    + apply list_elem_of_lookup_2 in Hx.
      rewrite Forall_forall in Hl1, Hl2.
      split; split; try lia; intros; exfalso; [by eapply Hl1|by eapply Hl2].
Qed.

End Matches.

Lemma filter_disjoint_length {A} (P Q : A -> Prop)
    `{!forall x, Decision (P x)} `{!forall x, Decision (Q x)} (l : list A) :
  (forall x, P x -> Q x -> False) ->
  (length (filter P l) + length (filter Q l) <= length l)%nat.
Proof.
  intros HPQ. induction l as [|x l IH]; [done|].
  rewrite !filter_cons. destruct (decide (P x)), (decide (Q x)); simpl; try lia.
  exfalso. eauto.
Qed.

Section Runs.

Context {T : Type} `{EqDecision T}.
Variable cmp : T -> T -> number.
Hypothesis Hc : consistent cmp.
Variable arr : list (SANode T).
Hypothesis Hsorted : StronglySorted (not_after (compareFn cmp)) arr.
Variable o : T.

Local Abbreviation first := (lower_bound cmp o (unwrap arr)).
Local Abbreviation count := (match_count cmp o (unwrap arr)).

Lemma run_bounds : 0 <= first /\ 0 <= count /\ first + count <= Z.of_nat (length arr).
Proof.
  unfold lower_bound, match_count.
  pose proof (filter_disjoint_length
                (fun x => is_pos (cmp o x) = true) (fun x => is_zero (cmp o x) = true)
                (unwrap arr)) as Hlen.
  unfold unwrap in Hlen at 3. rewrite length_fmap in Hlen.
  assert (forall x, is_pos (cmp o x) = true -> is_zero (cmp o x) = true -> False) as Hd.
  { intros x. destruct (cmp o x) as [z|]; simpl; [|done].
    intros ?%Z.ltb_lt ?%Z.eqb_eq. lia. }
  specialize (Hlen Hd). lia.
Qed.

Lemma run_zero (i : Z) (nd : SANode T) :
  nth_js arr i = Some nd ->
  (is_zero (cmp o (obj nd)) = true <-> first <= i < first + count).
Proof using Hc Hsorted.
  intros [Hi Hnd]%nth_js_Some.
  assert (unwrap arr !! Z.to_nat i = Some (obj nd)) as Hx
    by (unfold unwrap; by rewrite list_lookup_fmap, Hnd).
  destruct (sorted_classify cmp Hc o (unwrap arr) (Z.to_nat i) (obj nd)
              (unwrap_sorted cmp Hc arr Hsorted) Hx) as [_ Hz].
  rewrite Z2Nat.id in Hz by done. exact Hz.
Qed.

Lemma run_pos (i : Z) (nd : SANode T) :
  nth_js arr i = Some nd ->
  (is_pos (cmp o (obj nd)) = true <-> i < first).
Proof using Hc Hsorted.
  intros [Hi Hnd]%nth_js_Some.
  assert (unwrap arr !! Z.to_nat i = Some (obj nd)) as Hx
    by (unfold unwrap; by rewrite list_lookup_fmap, Hnd).
  destruct (sorted_classify cmp Hc o (unwrap arr) (Z.to_nat i) (obj nd)
              (unwrap_sorted cmp Hc arr Hsorted) Hx) as [Hp _].
  rewrite Z2Nat.id in Hp by done. exact Hp.
Qed.

(** The scanning loops, started inside the run of matches, stop at its
    two ends. *)
Lemma searchAll_up_run (fuel : nat) (i : Z) (results : list Z) :
  first <= i <= first + count ->
  (Z.to_nat (first + count - i) < fuel)%nat ->
  searchAll_up cmp fuel o arr (Z.of_nat (length arr) - 1) i results
  = Return (results ++ seqZ i (first + count - i)).
Proof using Hc Hsorted.
  pose proof run_bounds as (HL & HC & HLC).
  revert i results. induction fuel as [|fuel IH]; intros i results Hi Hfuel; [lia|].
  simpl. destruct (Z.leb_spec i (Z.of_nat (length arr) - 1)) as [Hin|Hout].
  - destruct (nth_js_is_Some arr i) as [nd Hnd]; [lia|]. rewrite Hnd.
    pose proof (run_zero i nd Hnd) as Hz.
    destruct (is_zero (cmp o (obj nd))).
    + rewrite IH by lia. rewrite <-app_assoc. do 2 f_equal.
      rewrite (seqZ_cons i) by lia. simpl. do 2 f_equal; lia.
    + assert (i = first + count) as -> by (destruct (decide (i < first + count)); [|lia];
        assert (false = true) by (apply Hz; lia); done).
      rewrite Z.sub_diag. by rewrite app_nil_r.
  - rewrite seqZ_nil by lia. by rewrite app_nil_r.
Qed.

Lemma searchAll_down_run (fuel : nat) (i : Z) (results : list Z) :
  first - 1 <= i < first + count ->
  (Z.to_nat (i - first + 1) < fuel)%nat ->
  searchAll_down cmp fuel o arr 0 i results
  = Return (seqZ first (i - first + 1) ++ results).
Proof using Hc Hsorted.
  pose proof run_bounds as (HL & HC & HLC).
  revert i results. induction fuel as [|fuel IH]; intros i results Hi Hfuel; [lia|].
  simpl. destruct (Z.leb_spec 0 i) as [Hin|Hout].
  - destruct (nth_js_is_Some arr i) as [nd Hnd]; [lia|]. rewrite Hnd.
    pose proof (run_zero i nd Hnd) as Hz.
    destruct (is_zero (cmp o (obj nd))).
    + assert (first <= i) by (apply Hz; done).
      rewrite IH by lia.
      replace (i - first + 1) with ((i - 1 - first + 1) + 1) by lia.
      rewrite (seqZ_app first (i - 1 - first + 1) 1) by lia.
      rewrite <-app_assoc. do 2 f_equal.
      rewrite (seqZ_cons _ 1) by lia. simpl. f_equal. lia.
    + assert (i = first - 1) as -> by (destruct (decide (first <= i)); [|lia];
        assert (false = true) by (apply Hz; lia); done).
      by rewrite seqZ_nil by lia.
  - by rewrite seqZ_nil by lia.
Qed.

Lemma searchNth_up_run (fuel : nat) (i : Z) :
  first <= i <= first + count ->
  (Z.to_nat (first + count - i) < fuel)%nat ->
  searchNth_up cmp fuel o arr i = Return (first + count).
Proof using Hc Hsorted.
  pose proof run_bounds as (HL & HC & HLC).
  revert i. induction fuel as [|fuel IH]; intros i Hi Hfuel; [lia|].
  simpl. destruct (Z.ltb_spec i (Z.of_nat (length arr))) as [Hin|Hout].
  - destruct (nth_js_is_Some arr i) as [nd Hnd]; [lia|]. rewrite Hnd.
    pose proof (run_zero i nd Hnd) as Hz.
    destruct (is_zero (cmp o (obj nd))).
    + assert (i < first + count) by (apply Hz; done). apply IH; lia.
    + f_equal. destruct (decide (i < first + count)); [|lia].
      assert (false = true) by (apply Hz; lia). done.
  - f_equal. lia.
Qed.

Lemma searchNth_down_run (fuel : nat) (i : Z) :
  first - 1 <= i < first + count ->
  (Z.to_nat (i - first + 1) < fuel)%nat ->
  searchNth_down cmp fuel o arr i = Return (first - 1).
Proof using Hc Hsorted.
  pose proof run_bounds as (HL & HC & HLC).
  revert i. induction fuel as [|fuel IH]; intros i Hi Hfuel; [lia|].
  simpl. destruct (Z.leb_spec 0 i) as [Hin|Hout].
  - destruct (nth_js_is_Some arr i) as [nd Hnd]; [lia|]. rewrite Hnd.
    pose proof (run_zero i nd Hnd) as Hz.
    destruct (is_zero (cmp o (obj nd))).
    + assert (first <= i) by (apply Hz; done). apply IH; lia.
    + f_equal. destruct (decide (first <= i)); [|lia].
      assert (false = true) by (apply Hz; lia). done.
  - f_equal. lia.
Qed.

End Runs.

(** ** The lookup methods on a sorted array *)

Section Lookups.

Context {T : Type} `{EqDecision T}.
Variable cmp : T -> T -> number.
Hypothesis Hc : consistent cmp.
Variable s0 : SortedArray T.
Hypothesis Hok : lazy_ok cmp s0.
Variable o : T.

Local Abbreviation s := (_sort cmp s0).
Local Abbreviation snap := (unwrap (array (_sort cmp s0))).
Local Abbreviation first := (lower_bound cmp o (unwrap (array (_sort cmp s0)))).
Local Abbreviation count := (match_count cmp o (unwrap (array (_sort cmp s0)))).

Lemma sorted_state_facts :
  _sort cmp s = s /\ lazy_ok cmp s /\
  StronglySorted (not_after (compareFn cmp)) (array s).
Proof using Hc Hok.
  split; [apply _sort_idem|]. split; [by apply _sort_lazy_ok|].
  by apply _sort_array_sorted.
Qed.

Lemma search_default_bounds (s1 : SortedArray T) :
  array s1 <> [] ->
  search cmp o (Some 0) (Some (Z.of_nat (length (array s1)) - 1)) s1
  = search cmp o None None s1.
Proof.
  intros Hne. unfold search.
  assert (0 < Z.of_nat (length (array s1)))
    by (destruct (array s1); [done|simpl; lia]).
  change (0 <? 0) with false. cbn iota.
  destruct (Z.ltb_spec (Z.of_nat (length (array s1)) - 1) 0); [lia|].
  destruct (Z.ltb_spec (Z.of_nat (length (array s1)))
              (Z.of_nat (length (array s1)) - 1)); [lia|].
  done.
Qed.

(** [search] over the whole sorted array finds a match exactly when there
    is one, at a position inside the run of matches. *)
Lemma search_sorted_spec :
  exists r,
    search cmp o None None s = (Return r, s) /\
    if sr_found r then first <= sr_index r < first + count else count = 0.
Proof using Hc Hok.
  destruct sorted_state_facts as (Hidem & Hok1 & Hsrt).
  destruct (decide (array s = [])) as [Hnil|Hne].
  - exists (mkSearch 0 false). split; [|by unfold match_count; rewrite Hnil].
    unfold search. by rewrite Hnil.
  - destruct (search_full_range cmp Hc o s Hok1 Hne) as (r & Hr & Hidx & Hres).
    rewrite Hidem in Hr, Hres. exists r. split; [done|].
    destruct (sr_found r).
    + destruct Hres as (nd & Hnd & Heq).
      apply (run_zero cmp Hc (array s) Hsrt o _ nd Hnd).
      rewrite (is_zero_cmp cmp Hc). by apply Z.eqb_eq.
    + destruct Hres as [Hbelow Habove]. unfold match_count.
      rewrite filter_none; [done|]. apply Forall_forall. intros x Hx.
      unfold unwrap in Hx. apply list_elem_of_fmap in Hx as (nd & -> & Hnd).
      apply list_elem_of_lookup in Hnd as [i Hi].
      assert (nth_js (array s) (Z.of_nat i) = Some nd) as Hnth
        by (apply nth_js_Some; split; [lia|by rewrite Nat2Z.id]).
      rewrite (is_zero_cmp cmp Hc). intros Hz%Z.eqb_eq.
      destruct (Z.le_gt_cases (Z.of_nat i) (sr_index r)) as [Hle|Hgt].
      * pose proof (Hbelow _ _ Hle Hnth). lia.
      * pose proof (Habove _ _ Hgt Hnth). lia.
Qed.

(** [searchAll] over the whole array lists the run of matches. *)
Lemma searchAll_sorted_spec :
  array s0 <> [] ->
  searchAll cmp o None None s = (Return (seqZ first count), s).
Proof using Hc Hok.
  intros Hne0.
  destruct sorted_state_facts as (Hidem & Hok1 & Hsrt).
  assert (array s <> []) as Hne.
  { intros Hnil. apply Hne0. apply length_zero_iff_nil.
    by rewrite <-(_sort_length cmp), Hnil. }
  pose proof (run_bounds cmp (array s) o) as (HL & HC & HLC).
  unfold searchAll. cbn [default].
  rewrite (search_default_bounds s Hne).
  destruct search_sorted_spec as (r & -> & Hr).
  destruct (sr_found r); cbn [negb].
  - rewrite (searchAll_up_run cmp Hc (array s) Hsrt o) by lia.
    rewrite (searchAll_down_run cmp Hc (array s) Hsrt o) by lia.
    do 2 f_equal. rewrite app_nil_l.
    replace count with ((sr_index r - 1 - first + 1) + (first + count - sr_index r))
      at 2 by lia.
    rewrite (seqZ_app first (sr_index r - 1 - first + 1)
               (first + count - sr_index r)) by lia.
    do 2 f_equal. lia.
  - rewrite Hr. done.
Qed.



(** [findAll]'s map over a list of valid positions. *)
Lemma map_find_result_spec (arr : list (SANode T)) (result : list Z) :
  Forall (fun v => 0 <= v < Z.of_nat (length arr)) result ->
  exists rs,
    foldr
      (fun v (acc : completion (list (FindResult T))) =>
         match acc, find_result arr (Some v) with
         | Throw e, _ => Throw e
         | _, Throw e => Throw e
         | Return acc, Return r => Return (r :: acc)
         end)
      (Return []) result
    = Return rs /\
    fr_index <$> rs = result /\
    Forall (fun r => nth_js (unwrap arr) (fr_index r) = Some (fr_obj r)) rs.
Proof.
  induction 1 as [|v l Hv _ (rs & IH & Hidx & Hobj)].
  - by exists [].
  - cbn [foldr]. rewrite IH. unfold find_result.
    destruct (nth_js_is_Some arr v Hv) as [nd Hnd]. rewrite Hnd.
    eexists. split; [done|]. cbn [fmap list_fmap fr_index fr_obj].
    split; [by f_equal|]. constructor; [|done]. cbn [fr_index fr_obj].
    apply nth_js_Some in Hnd as [? Hnd]. apply nth_js_Some. split; [done|].
    unfold unwrap. by rewrite list_lookup_fmap, Hnd.
Qed.

(** [searchNth] over the whole array, without [exact]: the position it
    reports as found is the [n]-th of the run, counted from the end the sign
    of [n] selects. *)
Lemma searchNth_sorted_spec (n : jsint) :
  exists r,
    searchNth cmp o (Some n) None None false s = (Return r, s) /\
    is_Some (nr_index r) /\
    if nr_found r then nth_position first count n = nr_index r
    else nth_position first count n = None.
Proof using Hc Hok.
  destruct sorted_state_facts as (Hidem & Hok1 & Hsrt).
  pose proof (run_bounds cmp (array s) o) as (HL & HC & HLC).
  unfold searchNth. destruct search_sorted_spec as (r & -> & Hr).
  destruct (sr_found r); cbn [negb].
  2:{ eexists. split; [done|]. split; [by eexists|]. cbn [nr_found sr_found]. rewrite Hr.
      destruct n as [z|]; cbn [nth_position]; [|done].
      destruct (Z.ltb_spec z 0).
      - by destruct (Z.ltb_spec (- z) 0); [lia|].
      - by destruct (Z.ltb_spec z 0); [lia|]. }
  destruct (decide (direction_of n = -1)) as [Hdir|Hdir].
  - rewrite (searchNth_up_run cmp Hc (array s) Hsrt o) by lia.
    assert (jsint_val n <= 0 /\
            nth_position first count n
            = if - jsint_val n <? count
              then Some (first + count + jsint_val n - 1) else None)
      as [Hn Hpos].
    { destruct n as [z|]; cbn [direction_of jsint_val nth_position] in *.
      - destruct (Z.eqb_spec z 0); [done|].
        assert (z < 0) by (destruct z; simpl in Hdir; lia).
        destruct (Z.ltb_spec z 0); [|lia]. split; [lia|].
        destruct (- z <? count); [|done]. f_equal. lia.
      - split; [lia|]. change (- 0) with 0.
        destruct (0 <? count); [|done]. f_equal. lia. }
    rewrite Hpos. set (index := first + count + jsint_val n - 1).
    destruct (Z.leb_spec 0 index) as [H0|H0]; cbn [andb].
    + destruct (Z.ltb_spec index (Z.of_nat (length (array s)))) as [_|]; [|lia].
      destruct (nth_js_is_Some (array s) index) as [nd Hnd]; [lia|]. rewrite Hnd.
      eexists. split; [done|]. split; [by eexists|]. cbn [nr_found nr_index].
      pose proof (run_zero cmp Hc (array s) Hsrt o index nd Hnd) as Hz.
      destruct (is_zero (cmp o (obj nd))).
      * destruct (Z.ltb_spec (- jsint_val n) count); [done|].
        destruct Hz as [Hz _]. specialize (Hz eq_refl). lia.
      * destruct (Z.ltb_spec (- jsint_val n) count); [|done].
        destruct Hz as [_ Hz]. assert (false = true) by (apply Hz; lia). done.
    + eexists. split; [done|]. split; [by eexists|]. cbn [nr_found].
      destruct (Z.ltb_spec (- jsint_val n) count); [lia|done].
  - rewrite (searchNth_down_run cmp Hc (array s) Hsrt o) by lia.
    assert (0 <= jsint_val n /\
            nth_position first count n
            = if jsint_val n <? count
              then Some (first - 1 + jsint_val n + 1) else None)
      as [Hn Hpos].
    { destruct n as [z|]; cbn [direction_of jsint_val nth_position] in *; [|done].
      destruct (Z.eqb_spec z 0) as [->|].
      - split; [lia|]. change (0 <? 0) with false. cbn iota.
        destruct (0 <? count); [|done]. f_equal. lia.
      - assert (0 < z) by (destruct z; simpl in Hdir; lia).
        destruct (Z.ltb_spec z 0); [lia|]. split; [lia|].
        destruct (z <? count); [|done]. f_equal. lia. }
    rewrite Hpos. set (index := first - 1 + jsint_val n + 1).
    destruct (Z.leb_spec 0 index) as [_|]; [|lia]. cbn [andb].
    destruct (Z.ltb_spec index (Z.of_nat (length (array s)))) as [Hin|Hout].
    + destruct (nth_js_is_Some (array s) index) as [nd Hnd]; [lia|]. rewrite Hnd.
      eexists. split; [done|]. split; [by eexists|]. cbn [nr_found nr_index].
      pose proof (run_zero cmp Hc (array s) Hsrt o index nd Hnd) as Hz.
      destruct (is_zero (cmp o (obj nd))).
      * destruct (Z.ltb_spec (jsint_val n) count); [done|].
        destruct Hz as [Hz _]. specialize (Hz eq_refl). lia.
      * destruct (Z.ltb_spec (jsint_val n) count); [|done].
        destruct Hz as [_ Hz]. assert (false = true) by (apply Hz; lia). done.
    + eexists. split; [done|]. split; [by eexists|]. cbn [nr_found].
      destruct (Z.ltb_spec (jsint_val n) count); [lia|done].
Qed.

Lemma count_pos_iff :
  0 < count <-> exists x, x ∈ snap /\ is_zero (cmp o x) = true.
Proof.
  unfold match_count. split.
  - intros Hpos.
    destruct (filter (fun x => is_zero (cmp o x) = true) snap) as [|x l] eqn:E;
      [simpl in Hpos; lia|].
    assert (x ∈ filter (fun x => is_zero (cmp o x) = true) snap) as Hx
      by (rewrite E; left).
    apply list_elem_of_filter in Hx as [? ?]. eauto.
  - intros (x & Hx & Hz).
    assert (x ∈ filter (fun x => is_zero (cmp o x) = true) snap) as Hin
      by (by apply list_elem_of_filter).
    destruct (filter _ snap); [by apply elem_of_nil in Hin|simpl; lia].
Qed.

Lemma snap_run (i : Z) (x : T) :
  nth_js snap i = Some x ->
  (is_zero (cmp o x) = true <-> first <= i < first + count).
Proof using Hc Hok.
  destruct sorted_state_facts as (_ & _ & Hsrt).
  intros [Hi Hx]%nth_js_Some. unfold unwrap in Hx. rewrite list_lookup_fmap in Hx.
  destruct (array s !! Z.to_nat i) as [nd|] eqn:E; [|done]. injection Hx as <-.
  apply (run_zero cmp Hc (array s) Hsrt o i nd). by apply nth_js_Some.
Qed.

Lemma findAll_sorted_spec :
  array s0 <> [] ->
  exists rs,
    fst (findAll cmp o false s0) = Return rs /\
    fr_index <$> rs = seqZ first count /\
    Forall (fun r => nth_js snap (fr_index r) = Some (fr_obj r)) rs.
Proof using Hc Hok.
  intros Hne0. pose proof (run_bounds cmp (array s) o) as (HL & HC & HLC).
  unfold findAll. rewrite (searchAll_sorted_spec Hne0). cbn [fst].
  apply map_find_result_spec. apply Forall_seqZ. intros; lia.
Qed.



Lemma findNth_sorted_spec (n : jsint) :
  fst (findNth cmp o (Some n) false s0)
  = Return (nth_position first count n ≫= result_at snap).
Proof using Hc Hok.
  destruct sorted_state_facts as (Hidem & Hok1 & Hsrt).
  pose proof (run_bounds cmp (array s) o) as (HL & HC & HLC).
  unfold findNth. destruct (searchNth_sorted_spec n) as (r & -> & [idx Hidx] & Hr).
  destruct (nr_found r); cbn [negb].
  - rewrite Hr, Hidx. rewrite Hidx in Hr.
    + assert (first <= idx < first + count) as Hrange.
      { destruct n as [z|]; cbn [nth_position] in Hr;
          repeat case_match; simplify_eq; lia. }
      unfold find_result.
      destruct (nth_js_is_Some (array s) idx) as [nd Hnd]; [lia|]. rewrite Hnd.
      cbn [fst mbind option_bind]. unfold result_at.
      assert (nth_js snap idx = Some (obj nd)) as ->; [|done].
      apply nth_js_Some in Hnd as [? Hnd]. apply nth_js_Some. split; [done|].
      unfold unwrap. by rewrite list_lookup_fmap, Hnd.
  - by rewrite Hr.
Qed.


Lemma indexOf_sorted_spec (from_end : bool) :
  fst (indexOf_with cmp from_end o None None false s0)
  = Return (Some (if 0 <? count
                  then (if from_end then first + count - 1 else first)
                  else -1)).
Proof using Hc Hok.
  unfold indexOf_with. cbn [calcTrueIndex].
  destruct (searchNth_sorted_spec (if from_end then NegZero else Int 0))
    as (r & -> & [idx Hidx] & Hr).
  destruct (nr_found r); cbn [fst].
  - rewrite Hidx in *. destruct from_end; cbn [nth_position] in Hr.
    + destruct (0 <? count); [|done]. do 2 f_equal. congruence.
    + change (0 <? 0) with false in Hr. cbn iota in Hr.
      destruct (0 <? count); [|done]. do 2 f_equal.
      assert (first + 0 = idx) by congruence. lia.
  - destruct from_end; cbn [nth_position] in Hr.
    + by destruct (0 <? count).
    + change (0 <? 0) with false in Hr. cbn iota in Hr.
      by destruct (0 <? count).
Qed.

End Lookups.




Lemma reachable_lazy_ok {T} `{EqDecision T} (cmp : T -> T -> number)
    (elements : option (list T)) (ms : list (mutation T)) :
  consistent cmp -> lazy_ok cmp (run cmp ms (new_SortedArray elements)).
Proof. intros Hc. apply run_lazy_ok; [done|]. apply new_SortedArray_lazy_ok. Qed.



(** X2.  In every reachable state that holds an element, the elements that
    compare equal to [o] occupy the [match_count] consecutive positions of
    the sorted view that start at [lower_bound], and [findAll(o)] returns
    exactly these positions, in ascending order, each with the payload the
    sorted view has there. *)
Theorem X2_findAll_lists_the_matches {T : Type} `{EqDecision T}
    (cmp : T -> T -> number) (elements : option (list T))
    (ms : list (mutation T)) (o : T) :
  consistent cmp ->
  let s := run cmp ms (new_SortedArray elements) in
  let snap := unwrap (array (_sort cmp s)) in
  let first := lower_bound cmp o snap in
  let count := match_count cmp o snap in
  array s <> [] ->
  (forall i x, nth_js snap i = Some x ->
               (is_zero (cmp o x) = true <-> first <= i < first + count)) /\
  exists rs,
    fst (findAll cmp o false s) = Return rs /\
    fr_index <$> rs = seqZ first count /\
    Forall (fun r => nth_js snap (fr_index r) = Some (fr_obj r)) rs.
Proof.
  intros Hc s snap first count Hne.
  pose proof (reachable_lazy_ok cmp elements ms Hc) as Hok. fold s in Hok.
  split.
  - apply (snap_run cmp Hc s Hok o).
  - by apply (findAll_sorted_spec cmp Hc s Hok o).
Qed.

Lemma X2_findAll_lists_the_matches_witness :
  let s := run NumericSort [MAdd [3; 1]] (new_SortedArray (Some [5; 3; 1])) in
  consistent NumericSort /\ array s <> [] /\
  exists rs,
    fst (findAll NumericSort 3 false s) = Return rs /\ fr_index <$> rs = [2; 3].
Proof.
  intros s. subst s. split; [exact consistent_NumericSort|].
  match goal with |- ?P /\ _ => assert P as Hne by (vm_compute; discriminate) end.
  split; [exact Hne|].
  destruct (X2_findAll_lists_the_matches NumericSort (Some [5; 3; 1]) [MAdd [3; 1]] 3
              consistent_NumericSort Hne) as (_ & rs & Hrs & Hidx & _).
  exists rs. split; [exact Hrs|]. rewrite Hidx. vm_compute. reflexivity.
Defined.



(** X4.  In every reachable state, [indexOf(o)] returns the least position
    of the sorted view whose payload compares equal to [o] and
    [lastIndexOf(o)] the greatest one; both return [-1] when no payload
    compares equal to [o]. *)
Theorem X4_indexOf_first_lastIndexOf_last {T : Type} `{EqDecision T}
    (cmp : T -> T -> number) (elements : option (list T))
    (ms : list (mutation T)) (o : T) :
  consistent cmp ->
  let s := run cmp ms (new_SortedArray elements) in
  let snap := unwrap (array (_sort cmp s)) in
  exists i j,
    fst (indexOf cmp o None None false s) = Return (Some i) /\
    fst (lastIndexOf cmp o None None false s) = Return (Some j) /\
    ((i = -1 /\ j = -1 /\ forall x, x ∈ snap -> is_zero (cmp o x) = false) \/
     (i <= j /\
      (exists x, nth_js snap i = Some x /\ is_zero (cmp o x) = true) /\
      (exists y, nth_js snap j = Some y /\ is_zero (cmp o y) = true) /\
      forall k z, nth_js snap k = Some z -> is_zero (cmp o z) = true -> i <= k <= j)).
Proof.
  intros Hc s snap.
  pose proof (reachable_lazy_ok cmp elements ms Hc) as Hok. fold s in Hok.
  unfold indexOf, lastIndexOf.
  rewrite (indexOf_sorted_spec cmp Hc s Hok o false),
    (indexOf_sorted_spec cmp Hc s Hok o true).
  do 2 eexists. split; [done|]. split; [done|].
  pose proof (run_bounds cmp (array (_sort cmp s)) o) as (HL & HC & HLC).
  pose proof (count_pos_iff cmp s o) as Hcnt.
  pose proof (snap_run cmp Hc s Hok o) as Hrun.
  fold snap in Hcnt, Hrun, HL, HC, HLC.
  assert (length snap = length (array (_sort cmp s))) as Hlen
    by (unfold snap, unwrap; by rewrite length_fmap).
  fold snap.
  destruct (Z.ltb_spec 0 (match_count cmp o snap)) as [Hpos|Hzero].
  - right. split; [lia|].
    destruct (nth_js_is_Some snap (lower_bound cmp o snap)) as [x Hx]; [lia|].
    destruct (nth_js_is_Some snap
                (lower_bound cmp o snap + match_count cmp o snap - 1)) as [y Hy]; [lia|].
    split; [exists x; split; [done|]; apply (Hrun _ _ Hx); lia|].
    split; [exists y; split; [done|]; apply (Hrun _ _ Hy); lia|].
    intros k z Hk Hz. apply (Hrun _ _ Hk) in Hz. lia.
  - left. split; [done|]. split; [done|]. intros x Hx.
    destruct (is_zero (cmp o x)) eqn:E; [|done].
    assert (0 < match_count cmp o snap) by (apply Hcnt; eauto). lia.
Qed.

Lemma X4_indexOf_first_lastIndexOf_last_witness :
  let s := run NumericSort [MAdd [3; 1]] (new_SortedArray (Some [5; 3; 1])) in
  consistent NumericSort /\
  fst (indexOf NumericSort 3 None None false s) = Return (Some 2) /\
  fst (lastIndexOf NumericSort 3 None None false s) = Return (Some 3).
Proof.
  intros s. subst s. split; [exact consistent_NumericSort|].
  destruct (X4_indexOf_first_lastIndexOf_last NumericSort (Some [5; 3; 1])
              [MAdd [3; 1]] 3 consistent_NumericSort) as (i & j & Hi & Hj & _).
  split; [rewrite Hi; vm_compute in Hi|rewrite Hj; vm_compute in Hj]; congruence.
Defined.

(** X5.  In every reachable state, [findNth(o, n)] returns the [n]-th of
    the elements that compare equal to [o]: counted from the first one for
    [n >= 0], from the last one for a negative [n] and for the negative zero,
    and [undefined] when the run of matches has no such element, in
    particular when it is empty. *)
Theorem X5_findNth_counts_within_the_matches {T : Type} `{EqDecision T}
    (cmp : T -> T -> number) (elements : option (list T))
    (ms : list (mutation T)) (o : T) (n : jsint) :
  consistent cmp ->
  let s := run cmp ms (new_SortedArray elements) in
  let snap := unwrap (array (_sort cmp s)) in
  let first := lower_bound cmp o snap in
  let count := match_count cmp o snap in
  (forall i x, nth_js snap i = Some x ->
               (is_zero (cmp o x) = true <-> first <= i < first + count)) /\
  fst (findNth cmp o (Some n) false s)
  = Return (nth_position first count n ≫= result_at snap).
Proof.
  intros Hc s snap first count.
  pose proof (reachable_lazy_ok cmp elements ms Hc) as Hok. fold s in Hok.
  split.
  - apply (snap_run cmp Hc s Hok o).
  - apply (findNth_sorted_spec cmp Hc s Hok o).
Qed.

Lemma X5_findNth_counts_within_the_matches_witness :
  let s := run by_first [MAdd [(2, 3)]] (new_SortedArray (Some [(2, 1); (1, 1); (2, 2)])) in
  consistent by_first /\
  fst (findNth by_first (2, 0) (Some (Int 1)) false s) = Return (Some (mkFind (2, 2) 2)) /\
  fst (findNth by_first (2, 0) (Some NegZero) false s) = Return (Some (mkFind (2, 3) 3)) /\
  fst (findNth by_first (2, 0) (Some (Int (-3))) false s) = Return None.
Proof.
  intros s. subst s. split; [exact consistent_by_first|].
  pose proof (fun n => proj2 (X5_findNth_counts_within_the_matches by_first
                (Some [(2, 1); (1, 1); (2, 2)]) [MAdd [(2, 3)]] (2, 0) n
                consistent_by_first)) as H.
  cbv zeta in H. rewrite !H. vm_compute. repeat split.
Defined.

(** ** [search] between given bounds *)

Section SearchBounds.

Context {T : Type} `{EqDecision T}.
Variable cmp : T -> T -> number.
Hypothesis Hc : consistent cmp.
Variable arr : list (SANode T).
Hypothesis Hsorted : StronglySorted (not_after (compareFn cmp)) arr.

(** The loop of [search], entered at any position [cur] of [0 .. hi]: a
    match it reports is a match and lies between [cur] or [lo], whichever is
    smaller, and [hi]; when it reports none, there is none in [lo .. hi]. *)
Lemma search_loop_bounded (o : T) (fuel : nat) (lo hi cur : Z) :
  0 <= lo -> hi < Z.of_nat (length arr) ->
  (lo <= hi -> 0 <= cur <= hi) ->
  (0 < fuel)%nat ->
  (lo <= hi -> (Z.to_nat (hi - Z.min lo cur + 1) < fuel)%nat) ->
  exists r,
    search_loop cmp fuel o arr lo hi cur = Return r /\
    if sr_found r then
      lo <= hi /\
      Z.min lo cur <= sr_index r <= hi /\
      exists nd, nth_js arr (sr_index r) = Some nd /\
                 SortCompare cmp o (obj nd) = 0
    else
      forall i nd, lo <= i <= hi -> nth_js arr i = Some nd ->
                   SortCompare cmp o (obj nd) <> 0.
Proof using Hc Hsorted.
  revert lo hi cur.
  induction fuel as [|fuel IH]; intros lo hi cur Hlo Hhi Hcur Hpos Hfuel; [lia|].
  rewrite search_loop_unfold.
  destruct (Z.leb_spec lo hi) as [Hrange|Hrange].
  2:{ eexists. split; [done|]. simpl. intros i nd Hi. lia. }
  specialize (Hcur Hrange). specialize (Hfuel Hrange).
  destruct (nth_js_is_Some arr cur) as [nd Hnd]; [lia|]. rewrite Hnd.
  rewrite (is_zero_cmp cmp Hc), (is_neg_cmp cmp Hc), (is_pos_cmp cmp Hc).
  destruct (Z.eqb_spec (SortCompare cmp o (obj nd)) 0) as [Heq|Hne].
  { eexists. split; [done|]. simpl. split; [lia|]. split; [lia|]. eauto. }
  destruct (Z.ltb_spec (SortCompare cmp o (obj nd)) 0) as [Hlt|Hge].
  - destruct (IH lo (cur - 1) ((lo + (cur - 1)) / 2)) as (r & Hr & Hres);
      [lia|lia| |lia| |].
    + intros Hle. split; [apply Z.div_pos|apply Z.div_le_upper_bound]; lia.
    + intros Hle.
      assert (lo <= (lo + (cur - 1)) / 2) by (apply Z.div_le_lower_bound; lia).
      lia.
    + exists r. split; [done|]. destruct (sr_found r).
      * destruct Hres as (Hle & Hidx & Hres). split; [lia|]. split; [|done].
        assert (lo <= (lo + (cur - 1)) / 2) by (apply Z.div_le_lower_bound; lia).
        lia.
      * intros i nd' Hi Hnd'.
        destruct (Z.le_gt_cases i (cur - 1)); [apply (Hres i); [lia|done]|].
        assert (SortCompare cmp o (obj nd') < 0); [|lia].
        eapply (above_key_after cmp Hc arr Hsorted o cur i); [done..|lia|done].
  - assert (0 < SortCompare cmp o (obj nd)) as Hgt by lia.
    destruct (Z.ltb_spec 0 (SortCompare cmp o (obj nd))) as [_|]; [|lia].
    destruct (IH (cur + 1) hi ((cur + 1 + hi) / 2)) as (r & Hr & Hres);
      [lia|lia| |lia| |].
    + intros Hle. split; [apply Z.div_pos|apply Z.div_le_upper_bound]; lia.
    + intros Hle.
      assert (cur + 1 <= (cur + 1 + hi) / 2) by (apply Z.div_le_lower_bound; lia).
      lia.
    + exists r. split; [done|]. destruct (sr_found r).
      * destruct Hres as (Hle & Hidx & Hres). split; [lia|]. split; [|done].
        assert (cur + 1 <= (cur + 1 + hi) / 2)
          by (apply Z.div_le_lower_bound; lia).
        lia.
      * intros i nd' Hi Hnd'.
        destruct (Z.le_gt_cases (cur + 1) i); [apply (Hres i); [lia|done]|].
        assert (0 < SortCompare cmp o (obj nd')); [|lia].
        eapply (below_key_before cmp Hc arr Hsorted o i cur); [done..|lia|done].
Qed.

End SearchBounds.

(** X6.  In every reachable state, [search] between the bounds
    [0 <= min] and [0 <= max < length] returns.  A match it reports is an
    element that compares equal to the key, at a position that is at most
    [max] and at least [min] or [Math.floor(max / 2)], whichever is
    smaller; when it reports no match, no element at the positions
    [min .. max] compares equal to the key.  [includes] with these bounds
    answers what [search] found. *)
Theorem X6_search_between_bounds {T : Type} `{EqDecision T}
    (cmp : T -> T -> number) (elements : option (list T))
    (ms : list (mutation T)) (o : T) (min max : Z) :
  consistent cmp ->
  let s := run cmp ms (new_SortedArray elements) in
  let snap := unwrap (array (_sort cmp s)) in
  0 <= min ->
  0 <= max < Z.of_nat (length (array s)) ->
  exists r,
    fst (search cmp o (Some min) (Some max) s) = Return r /\
    fst (includes cmp o (Some (Int min)) (Some (Int max)) false s)
    = Return (sr_found r) /\
    if sr_found r then
      Z.min min (max / 2) <= sr_index r <= max /\
      exists x, nth_js snap (sr_index r) = Some x /\ is_zero (cmp o x) = true
    else
      forall i x, min <= i <= max -> nth_js snap i = Some x ->
                  is_zero (cmp o x) = false.
Proof.
  intros Hc s snap Hmin Hmax.
  pose proof (reachable_lazy_ok cmp elements ms Hc) as Hok. fold s in Hok.
  pose proof (_sort_array_sorted cmp Hc s Hok) as Hsrt.
  pose proof (_sort_length cmp s) as Hlen.
  assert (0 <= max / 2 <= max) as Hhalf
    by (split; [apply Z.div_pos|apply Z.div_le_upper_bound]; lia).
  destruct (search_loop_bounded cmp Hc (array (_sort cmp s)) Hsrt o
              (Z.to_nat max + 2) min max (max / 2)) as (r & Hr & Hres);
    [lia|lia|lia|lia|lia|].
  assert (forall s1, _sort cmp s1 = _sort cmp s ->
                     length (array s1) = length (array s) ->
                     fst (search cmp o (Some min) (Some max) s1) = Return r) as Hsearch.
  { intros s1 Hs1 Hl1. unfold search. rewrite Hl1.
    destruct (Z.ltb_spec min 0) as [|_]; [lia|].
    destruct (Z.ltb_spec max 0) as [|_]; [lia|].
    destruct (Z.ltb_spec (Z.of_nat (length (array s))) max) as [|_]; [lia|].
    cbn [orb].
    destruct (Z.eqb_spec (Z.of_nat (length (array s))) 0) as [|_]; [lia|].
    unfold wrapOne. cbn [negb fst snd obj]. by rewrite Hs1. }
  exists r. split; [by apply Hsearch|]. split.
  - unfold includes, searchNth. cbn [calcTrueIndex fmap option_fmap option_map].
    destruct (Z.ltb_spec min 0) as [|_]; [lia|].
    destruct (Z.ltb_spec max 0) as [|_]; [lia|].
    specialize (Hsearch (_sort cmp s) (_sort_idem cmp s) Hlen).
    destruct (search cmp o (Some min) (Some max) (_sort cmp s)) as [c s1].
    simpl in Hsearch. by subst c.
  - destruct (sr_found r).
    + destruct Hres as (_ & Hidx & nd & Hnd & Heq). split; [done|].
      exists (obj nd). split.
      * apply nth_js_Some in Hnd as [? Hnd]. apply nth_js_Some. split; [done|].
        unfold snap, unwrap. by rewrite list_lookup_fmap, Hnd.
      * rewrite (is_zero_cmp cmp Hc). by apply Z.eqb_eq.
    + intros i x Hi [H0 Hx]%nth_js_Some.
      unfold snap, unwrap in Hx. rewrite list_lookup_fmap in Hx.
      destruct (array (_sort cmp s) !! Z.to_nat i) as [nd|] eqn:E; [|done].
      injection Hx as <-. rewrite (is_zero_cmp cmp Hc). apply Z.eqb_neq.
      apply (Hres i nd Hi). by apply nth_js_Some.
Qed.

Lemma X6_search_between_bounds_witness :
  let s := run NumericSort [MAdd [4; 2]] (new_SortedArray (Some [5; 3; 1])) in
  consistent NumericSort /\ 0 <= 3 /\ 0 <= 4 < Z.of_nat (length (array s)) /\
  fst (search NumericSort 2 (Some 3) (Some 4) s) = Return (mkSearch 2 false) /\
  fst (search NumericSort 3 (Some 3) (Some 4) s) = Return (mkSearch 2 true).
Proof.
  intros s. subst s. split; [exact consistent_NumericSort|].
  assert (0 <= 3) as H1 by lia. split; [exact H1|].
  match goal with |- ?P /\ _ => assert P as H2 by (vm_compute; split; [discriminate|reflexivity]) end.
  split; [exact H2|].
  destruct (X6_search_between_bounds NumericSort (Some [5; 3; 1]) [MAdd [4; 2]] 2 3 4
              consistent_NumericSort H1 H2) as (r & Hr & _).
  split; [rewrite Hr; vm_compute in Hr; congruence|].
  vm_compute. reflexivity.
Defined.

(** ** Lookups on an empty collection *)

(** X7.  On a collection that holds nothing, the lookups that go through
    [searchAll] ([findAll], and [findNth], [includes], [indexOf] and
    [lastIndexOf] with [exact] set) throw the [Error] of [search] about
    [max], because [searchAll] passes [max = length - 1 = -1]; the lookups
    that call [search] with its default bounds answer that nothing was
    found. *)
Theorem X7_lookups_on_the_empty_collection {T : Type} `{EqDecision T}
    (cmp : T -> T -> number) (s : SortedArray T) (o : T) :
  array s = [] ->
  (forall exact, fst (findAll cmp o exact s) = Throw max_error) /\
  (forall n, fst (findNth cmp o n true s) = Throw max_error) /\
  fst (includes cmp o None None true s) = Throw max_error /\
  fst (indexOf cmp o None None true s) = Throw max_error /\
  fst (lastIndexOf cmp o None None true s) = Throw max_error /\
  (forall n, fst (findNth cmp o n false s) = Return None) /\
  fst (includes cmp o None None false s) = Return false /\
  fst (indexOf cmp o None None false s) = Return (Some (-1)) /\
  fst (lastIndexOf cmp o None None false s) = Return (Some (-1)).
Proof.
  intros Hnil.
  assert (array (_sort cmp s) = []) as Hnil1.
  { apply length_zero_iff_nil. by rewrite _sort_length, Hnil. }
  assert (searchAll cmp o None None (_sort cmp s) = (Throw max_error, _sort cmp s))
    as HsearchAll by (unfold searchAll, search; by rewrite Hnil1).
  assert (searchExact cmp o None None (_sort cmp s) = (Throw max_error, _sort cmp s))
    as HsearchExact by (unfold searchExact; by rewrite HsearchAll).
  assert (search cmp o None None (_sort cmp s)
          = (Return (mkSearch 0 false), _sort cmp s))
    as Hsearch by (unfold search; by rewrite Hnil1).
  repeat split.
  - intros exact. unfold findAll. rewrite HsearchExact, HsearchAll. by destruct exact.
  - intros n. unfold findNth, searchNth. by rewrite HsearchExact.
  - unfold includes. cbn [calcTrueIndex]. by rewrite HsearchExact.
  - unfold indexOf, indexOf_with. cbn [calcTrueIndex]. by rewrite HsearchExact.
  - unfold lastIndexOf, indexOf_with. cbn [calcTrueIndex]. by rewrite HsearchExact.
  - intros n. unfold findNth, searchNth. rewrite Hsearch. by destruct n.
  - unfold includes, searchNth. cbn [calcTrueIndex]. by rewrite Hsearch.
  - unfold indexOf, indexOf_with, searchNth. cbn [calcTrueIndex]. by rewrite Hsearch.
  - unfold lastIndexOf, indexOf_with, searchNth. cbn [calcTrueIndex].
    by rewrite Hsearch.
Qed.

Lemma X7_lookups_on_the_empty_collection_witness :
  array (run NumericSort [MAdd [7]; MPop] (new_SortedArray None)) = [] /\
  fst (findAll NumericSort 7 false
         (run NumericSort [MAdd [7]; MPop] (new_SortedArray None)))
  = Throw max_error.
Proof.
  assert (array (run NumericSort [MAdd [7]; MPop] (new_SortedArray None)) = [])
    as Hnil by (vm_compute; reflexivity).
  split; [exact Hnil|].
  apply (X7_lookups_on_the_empty_collection NumericSort _ 7 Hnil).
Defined.

(** ** The methods that take a callback *)

Section CallbackLoops.

Context {T : Type}.
Variable array_arg : option (list T).

Lemma every_loop_spec (callbackfn : T -> Z -> option (list T) -> bool)
    (i : Z) (arr : list (SANode T)) :
  Callbacks.every_loop callbackfn array_arg i arr = true <->
  forall (k : nat) nd, arr !! k = Some nd ->
                       callbackfn (obj nd) (i + Z.of_nat k) array_arg = true.
Proof.
  revert i. induction arr as [|nd arr IH]; intros i; simpl.
  - split; [intros _ k nd Hk; by rewrite lookup_nil in Hk|done].
  - destruct (callbackfn (obj nd) i array_arg) eqn:E; simpl.
    + rewrite IH. split.
      * intros Hall [|k] nd' Hk; simpl in Hk.
        -- injection Hk as <-. by rewrite Z.add_0_r.
        -- replace (i + Z.of_nat (S k)) with (i + 1 + Z.of_nat k) by lia. eauto.
      * intros Hall k nd' Hk.
        replace (i + 1 + Z.of_nat k) with (i + Z.of_nat (S k)) by lia.
        by apply Hall.
    + split; [done|]. intros Hall. specialize (Hall O nd eq_refl).
      rewrite Z.add_0_r in Hall. congruence.
Qed.

Lemma some_loop_every_loop (callbackfn : T -> Z -> option (list T) -> bool)
    (i : Z) (arr : list (SANode T)) :
  Callbacks.some_loop callbackfn array_arg i arr
  = negb (Callbacks.every_loop (fun x k a => negb (callbackfn x k a)) array_arg i arr).
Proof.
  revert i. induction arr as [|nd arr IH]; intros i; simpl; [done|].
  destruct (callbackfn (obj nd) i array_arg); simpl; [done|]. apply IH.
Qed.

Lemma map_loop_spec {U} (callbackfn : T -> Z -> option (list T) -> U)
    (i : Z) (arr : list (SANode T)) :
  Callbacks.map_loop callbackfn array_arg i arr
  = imap (fun k x => callbackfn x (i + Z.of_nat k) array_arg) (unwrap arr).
Proof.
  revert i. induction arr as [|nd arr IH]; intros i; simpl; [done|].
  rewrite Z.add_0_r. f_equal. rewrite IH. apply imap_ext.
  intros k x _. simpl. f_equal. lia.
Qed.

Lemma filter_loop_sublist (callbackfn : T -> Z -> option (list T) -> bool)
    (i : Z) (arr : list (SANode T)) :
  Callbacks.filter_loop callbackfn array_arg i arr `sublist_of` unwrap arr.
Proof.
  revert i. induction arr as [|nd arr IH]; intros i; simpl; [done|].
  destruct (callbackfn (obj nd) i array_arg).
  - apply sublist_skip, IH.
  - apply sublist_cons, IH.
Qed.

Lemma filter_loop_elem (callbackfn : T -> Z -> option (list T) -> bool)
    (i : Z) (arr : list (SANode T)) (x : T) :
  x ∈ Callbacks.filter_loop callbackfn array_arg i arr <->
  exists k : nat, unwrap arr !! k = Some x /\
                  callbackfn x (i + Z.of_nat k) array_arg = true.
Proof.
  revert i. induction arr as [|nd arr IH]; intros i; simpl.
  - split; [by intros ?%elem_of_nil|]. intros (k & Hk & _). by rewrite lookup_nil in Hk.
  - assert ((exists k : nat, (obj nd :: unwrap arr) !! k = Some x /\
                             callbackfn x (i + Z.of_nat k) array_arg = true) <->
            (obj nd = x /\ callbackfn x i array_arg = true) \/
            (exists k : nat, unwrap arr !! k = Some x /\
                             callbackfn x (i + 1 + Z.of_nat k) array_arg = true))
      as ->.
    { split.
      - intros ([|k] & Hk & Hcb); simpl in Hk.
        + left. injection Hk as ->. by rewrite Z.add_0_r in Hcb.
        + right. exists k. split; [done|].
          by replace (i + 1 + Z.of_nat k) with (i + Z.of_nat (S k)) by lia.
      - intros [[-> Hcb]|(k & Hk & Hcb)].
        + exists O. by rewrite Z.add_0_r.
        + exists (S k). split; [done|].
          by replace (i + Z.of_nat (S k)) with (i + 1 + Z.of_nat k) by lia. }
    rewrite <-IH.
    destruct (callbackfn (obj nd) i array_arg) eqn:E.
    + rewrite elem_of_cons. split; [intros [->|]; auto|].
      intros [[-> _]|]; auto.
    + split; [auto|]. intros [[<- Hcb]|]; [congruence|done].
Qed.

Lemma reduce_loop_spec {U} (callbackfn : U -> T -> Z -> option (list T) -> U)
    (value : U) (i : Z) (arr : list (SANode T)) :
  Callbacks.reduce_loop callbackfn array_arg value i arr
  = fold_left (fun v ix => callbackfn v (snd ix) (fst ix) array_arg)
      (imap (fun k x => (i + Z.of_nat k, x)) (unwrap arr)) value.
Proof.
  revert value i. induction arr as [|nd arr IH]; intros value i; simpl; [done|].
  rewrite Z.add_0_r, IH. f_equal. apply imap_ext. intros k x _. simpl.
  f_equal. lia.
Qed.

Lemma reduceRight_loop_spec {U} (callbackfn : U -> T -> Z -> option (list T) -> U)
    (value : U) (arr : list (SANode T)) :
  Callbacks.reduceRight_loop callbackfn array_arg value
    (Z.of_nat (length arr)) (rev arr)
  = fold_right (fun ix v => callbackfn v (snd ix) (fst ix) array_arg) value
      (imap (fun k x => (Z.of_nat k, x)) (unwrap arr)).
Proof.
  revert value. induction arr as [|nd arr IH] using rev_ind; intros value; [done|].
  rewrite rev_app_distr. simpl. rewrite length_app. simpl.
  replace (Z.of_nat (length arr + 1) - 1) with (Z.of_nat (length arr)) by lia.
  rewrite IH. unfold unwrap. rewrite fmap_app, imap_app, fold_right_app. simpl.
  by rewrite length_fmap, Nat.add_0_r.
Qed.

Lemma find_loop_spec (predicate : T -> Z -> option (list T) -> bool)
    (i : Z) (arr : list (SANode T)) :
  let r := Callbacks.findIndex_loop predicate array_arg i arr in
  (r = -1 /\ Callbacks.find_loop predicate array_arg i arr = None /\
   forall (k : nat) x, unwrap arr !! k = Some x ->
                       predicate x (i + Z.of_nat k) array_arg = false) \/
  (exists k : nat,
      r = i + Z.of_nat k /\
      Callbacks.find_loop predicate array_arg i arr = unwrap arr !! k /\
      (exists x, unwrap arr !! k = Some x /\ predicate x r array_arg = true) /\
      forall (j : nat) x, (j < k)%nat -> unwrap arr !! j = Some x ->
                          predicate x (i + Z.of_nat j) array_arg = false).
Proof.
  revert i. induction arr as [|nd arr IH]; intros i; simpl.
  - left. split; [done|]. split; [done|]. intros k x Hk. by rewrite lookup_nil in Hk.
  - destruct (predicate (obj nd) i array_arg) eqn:E.
    + right. exists O. rewrite Z.add_0_r. split; [done|]. split; [done|].
      split; [by exists (obj nd)|]. intros; lia.
    + destruct (IH (i + 1)) as [(Hr & Hf & Hall)|(k & Hr & Hf & Hx & Hall)].
      * left. split; [done|]. split; [done|]. intros [|k] x Hk; simpl in Hk.
        -- injection Hk as <-. by rewrite Z.add_0_r.
        -- replace (i + Z.of_nat (S k)) with (i + 1 + Z.of_nat k) by lia. eauto.
      * right. exists (S k). split; [lia|]. split; [done|]. split; [done|].
        intros [|j] x Hj Hjx; simpl in Hjx.
        -- injection Hjx as <-. by rewrite Z.add_0_r.
        -- replace (i + Z.of_nat (S j)) with (i + 1 + Z.of_nat j) by lia.
           apply Hall; [lia|done].
Qed.

End CallbackLoops.

(** X8.  [every] and [some] return in every state, having called the
    callback on the payloads of the sorted view with their positions and,
    when the callback declares at least three parameters, with the sorted
    payloads as array argument ([undefined] otherwise): [every] answers
    [true] exactly when the callback accepts every element, [some] exactly
    when it accepts one, and [every] on the negated callback answers the
    negation of [some]. *)
Theorem X8_every_and_some {T : Type} `{EqDecision T}
    (cmp : T -> T -> number) (s : SortedArray T)
    (callbackfn : T -> Z -> option (list T) -> bool) (callbackfn_length : Z) :
  let snap := unwrap (array (_sort cmp s)) in
  let array_arg := if 3 <=? callbackfn_length then Some snap else None in
  exists b1 b2,
    fst (Callbacks.every cmp callbackfn callbackfn_length s) = Return b1 /\
    fst (Callbacks.some cmp callbackfn callbackfn_length s) = Return b2 /\
    (b1 = true <->
     forall (i : nat) x, snap !! i = Some x ->
                         callbackfn x (Z.of_nat i) array_arg = true) /\
    (b2 = true <->
     exists (i : nat) x, snap !! i = Some x /\
                         callbackfn x (Z.of_nat i) array_arg = true) /\
    fst (Callbacks.every cmp (fun x k a => negb (callbackfn x k a))
           callbackfn_length s)
    = Return (negb b2).
Proof.
  intros snap array_arg. do 2 eexists. split; [done|]. split; [done|].
  unfold Callbacks.array_argument. fold snap array_arg.
  assert (forall (P : T -> nat -> Prop),
            (forall (k : nat) nd, array (_sort cmp s) !! k = Some nd -> P (obj nd) k) <->
            (forall (i : nat) x, snap !! i = Some x -> P x i)) as Hall.
  { intros P. unfold snap, unwrap. split.
    - intros H1 i x Hx. rewrite list_lookup_fmap in Hx.
      destruct (array (_sort cmp s) !! i) as [nd|] eqn:E; [|done].
      injection Hx as <-. by apply H1.
    - intros H1 k nd Hk. apply H1. by rewrite list_lookup_fmap, Hk. }
  split; [|split].
  - rewrite every_loop_spec.
    apply (Hall (fun x k => callbackfn x (0 + Z.of_nat k) array_arg = true)).
  - rewrite some_loop_every_loop, negb_true_iff, <-not_true_iff_false.
    rewrite every_loop_spec.
    rewrite (Hall (fun x k => negb (callbackfn x (0 + Z.of_nat k) array_arg) = true)).
    split.
    + intros Hnot.
      destruct (decide (Exists (fun ix => callbackfn (snd ix) (Z.of_nat (fst ix)) array_arg = true)
                          (imap (fun i x => (i, x)) snap))) as [Hex|Hnex].
      * apply Exists_exists in Hex as ([i x] & Hin & Hcb).
        apply elem_of_lookup_imap in Hin as (i' & x' & Heq & Hx). simplify_eq.
        eauto.
      * destruct Hnot. intros i x Hx. change (0 + Z.of_nat i) with (Z.of_nat i).
        destruct (callbackfn x (Z.of_nat i) array_arg) eqn:E; [|done].
        destruct Hnex. apply Exists_exists. exists (i, x). split; [|done].
        apply elem_of_lookup_imap. eauto.
    + intros (i & x & Hx & Hcb) Hnone. specialize (Hnone i x Hx).
      change (0 + Z.of_nat i) with (Z.of_nat i) in Hnone.
      rewrite Hcb in Hnone. done.
  - unfold Callbacks.every, Callbacks.array_argument. fold snap array_arg.
    cbn [fst]. by rewrite some_loop_every_loop, negb_involutive.
Qed.

(** X9.  In every reachable state, [filter] returns the payloads the
    callback accepts (called with their positions in the sorted view), in
    the order of the sorted view: the result is a subsequence of what
    [toArray] returns, and so is itself sorted under the compare function. *)
Theorem X9_filter_keeps_the_order {T : Type} `{EqDecision T}
    (cmp : T -> T -> number) (elements : option (list T))
    (ms : list (mutation T))
    (callbackfn : T -> Z -> option (list T) -> bool) (callbackfn_length : Z) :
  consistent cmp ->
  let s := run cmp ms (new_SortedArray elements) in
  let snap := unwrap (array (_sort cmp s)) in
  let array_arg := if 3 <=? callbackfn_length then Some snap else None in
  exists r,
    fst (Callbacks.filter cmp callbackfn callbackfn_length s) = Return r /\
    fst (toArray cmp s) = Return snap /\
    r `sublist_of` snap /\
    StronglySorted (not_after cmp) r /\
    forall x, x ∈ r <->
              exists i : nat, snap !! i = Some x /\
                              callbackfn x (Z.of_nat i) array_arg = true.
Proof.
  intros Hc s snap array_arg.
  pose proof (reachable_lazy_ok cmp elements ms Hc) as Hok. fold s in Hok.
  eexists. split; [done|]. split; [done|].
  unfold Callbacks.array_argument. fold snap array_arg.
  split; [apply filter_loop_sublist|]. split.
  - eapply StronglySorted_sublist; [apply filter_loop_sublist|].
    apply (unwrap_sorted cmp Hc), (_sort_array_sorted cmp Hc s Hok).
  - intros x. apply filter_loop_elem.
Qed.

Lemma X9_filter_keeps_the_order_witness :
  consistent NumericSort /\
  fst (Callbacks.filter NumericSort (fun x i _ => Z.odd x && (i <? 4)) 2
         (run NumericSort [MAdd [4; 2]] (new_SortedArray (Some [5; 3; 1]))))
  = Return [1; 3].
Proof.
  split; [exact consistent_NumericSort|].
  destruct (X9_filter_keeps_the_order NumericSort (Some [5; 3; 1]) [MAdd [4; 2]]
              (fun x i _ => Z.odd x && (i <? 4)) 2 consistent_NumericSort)
    as (r & Hr & _).
  rewrite Hr. vm_compute in Hr. congruence.
Defined.

(** X10.  [findIndex] returns the least position of the sorted view whose
    payload the predicate accepts and [find] the payload at that position;
    when the predicate accepts no element they return [-1] and
    [undefined]. *)
Theorem X10_find_and_findIndex {T : Type} `{EqDecision T}
    (cmp : T -> T -> number) (s : SortedArray T)
    (predicate : T -> Z -> option (list T) -> bool) (predicate_length : Z) :
  let snap := unwrap (array (_sort cmp s)) in
  let array_arg := if 3 <=? predicate_length then Some snap else None in
  exists i r,
    fst (Callbacks.findIndex cmp predicate predicate_length s) = Return i /\
    fst (Callbacks.find cmp predicate predicate_length s) = Return r /\
    ((i = -1 /\ r = None /\
      forall (k : nat) x, snap !! k = Some x ->
                          predicate x (Z.of_nat k) array_arg = false) \/
     (0 <= i /\ r = snap !! Z.to_nat i /\
      (exists x, r = Some x /\ predicate x i array_arg = true) /\
      forall (k : nat) x, Z.of_nat k < i -> snap !! k = Some x ->
                          predicate x (Z.of_nat k) array_arg = false)).
Proof.
  intros snap array_arg. do 2 eexists. split; [done|]. split; [done|].
  unfold Callbacks.array_argument. fold snap array_arg.
  destruct (find_loop_spec array_arg predicate 0 (array (_sort cmp s)))
    as [(Hr & Hf & Hall)|(k & Hr & Hf & Hx & Hall)];
    fold snap in Hr, Hf, Hall.
  - left. split; [done|]. split; [done|]. exact Hall.
  - right. fold snap in Hx. rewrite Hr, Hf.
    change (0 + Z.of_nat k) with (Z.of_nat k) in *.
    rewrite Nat2Z.id. split; [lia|]. split; [done|]. split.
    + destruct Hx as (x & Hx & Hp). exists x. by rewrite <-Hr.
    + intros j x Hj Hjx. apply (Hall j x); [lia|done].
Qed.

(** X11.  [map], [reduce] and [reduceRight] visit the payloads of the sorted
    view with their positions: [map] collects the callback's results in the
    order of the sorted view, [reduce] folds from the first element on and
    [reduceRight] from the last one, both starting from the initial value
    they are given. *)
Theorem X11_map_and_reduce {T U : Type} `{EqDecision T}
    (cmp : T -> T -> number) (s : SortedArray T)
    (f : T -> Z -> option (list T) -> U)
    (g : U -> T -> Z -> option (list T) -> U)
    (callbackfn_length : Z) (initialValue : U) :
  let snap := unwrap (array (_sort cmp s)) in
  let arg n := if n <=? callbackfn_length then Some snap else None in
  let indexed := imap (fun i x => (Z.of_nat i, x)) snap in
  fst (Callbacks.map cmp f callbackfn_length s)
  = Return ((fun ix => f (snd ix) (fst ix) (arg 3)) <$> indexed) /\
  fst (Callbacks.reduce cmp g callbackfn_length initialValue s)
  = Return (fold_left (fun v ix => g v (snd ix) (fst ix) (arg 4)) indexed
              initialValue) /\
  fst (Callbacks.reduceRight cmp g callbackfn_length initialValue s)
  = Return (fold_right (fun ix v => g v (snd ix) (fst ix) (arg 4)) initialValue
              indexed).
Proof.
  intros snap arg indexed. split; [|split].
  - unfold Callbacks.map, Callbacks.array_argument. cbn [fst]. f_equal.
    rewrite map_loop_spec. unfold indexed. rewrite fmap_imap.
    apply imap_ext. intros i x _. done.
  - unfold Callbacks.reduce, Callbacks.array_argument. cbn [fst]. f_equal.
    rewrite reduce_loop_spec. done.
  - unfold Callbacks.reduceRight, Callbacks.array_argument. cbn [fst]. f_equal.
    by rewrite reduceRight_loop_spec.
Qed.

(** ** What the collection holds *)

Section Contents.

Context {T : Type} `{EqDecision T}.
Variable cmp : T -> T -> number.

Lemma wrapOne_payloads (o : T) (e : bool) (inc : option Z) (s : SortedArray T) :
  obj (fst (wrapOne o e inc s)) = o /\
  unwrap (array (snd (wrapOne o e inc s))) = unwrap (array s).
Proof.
  unfold wrapOne. destruct e; cbn [negb]; [done|].
  destruct (MAX_SAFE_INTEGER <=? _); cbn [fst snd obj]; [|done].
  split; [done|]. cbn [array set_insertionCounter].
  destruct (reduceInsertionOrders_spec
              (set_insertionCounter (insertionCounter s + 1) s)) as [_ ->].
  cbn [array set_insertionCounter]. unfold unwrap. apply list_eq. intros p.
  rewrite !list_lookup_fmap, list_lookup_imap.
  by destruct (array s !! p).
Qed.

Lemma addAll_push_payloads (s : SortedArray T) (x : T) :
  unwrap (array (addAll_push s x)) = unwrap (array s) ++ [x].
Proof.
  unfold addAll_push. destruct (wrapOne_payloads x false None s) as [Ho Ha].
  destruct (wrapOne x false None s) as [nd s1]. cbn [fst snd] in *.
  cbn [array set_array]. unfold unwrap in *. rewrite fmap_app, Ha. simpl.
  by rewrite Ho.
Qed.

Lemma fold_addAll_push_payloads (items : list T) (s : SortedArray T) :
  unwrap (array (fold_left addAll_push items s)) = unwrap (array s) ++ items.
Proof.
  revert s. induction items as [|x items IH]; intros s; simpl.
  - by rewrite app_nil_r.
  - rewrite IH, addAll_push_payloads. by rewrite <-app_assoc.
Qed.

Lemma unwrap_Permutation (l1 l2 : list (SANode T)) :
  l1 ≡ₚ l2 -> unwrap l1 ≡ₚ unwrap l2.
Proof. intros Hp. unfold unwrap. by rewrite Hp. Qed.

(** A read answers on [s] what it answers once [s] is sorted. *)
Lemma read_sorted (r : reader T) (s : SortedArray T) :
  fst (read cmp r (_sort cmp s)) = fst (read cmp r s).
Proof.
  assert (forall A (f : A -> observation) (c1 c2 : completion A * SortedArray T),
            fst c1 = fst c2 -> fst (observe f c1) = fst (observe f c2)) as Hobs.
  { intros A f [[a1|e1] s1] [[a2|e2] s2]; simpl; congruence. }
  pose proof (_sort_idem cmp s) as Hidem.
  pose proof (_sort_length cmp s) as Hlen.
  destruct r as [|i|st en| |o n e|o e|o|o f t e|o f t e|o f t e];
    unfold read; apply Hobs.
  - unfold toArray. by rewrite Hidem.
  - unfold get, oob. rewrite Hidem, Hlen. by destruct (_ || _).
  - unfold slice. by rewrite Hidem.
  - rewrite !iterate_spec. by rewrite Hidem.
  - unfold findNth. by rewrite Hidem.
  - unfold findAll. by rewrite Hidem.
  - unfold findNearest, search. rewrite Hidem, Hlen.
    destruct (Z.eqb_spec (Z.of_nat (length (array s))) 0) as [Hz|Hz]; [|done].
    assert (array s = []) as Hnil by (apply length_zero_iff_nil; lia).
    assert (array (_sort cmp s) = []) as Hnil1
      by (apply length_zero_iff_nil; rewrite Hlen; lia).
    cbn [sr_found sr_index]. by rewrite Hnil, Hnil1.
  - unfold includes. by rewrite Hidem.
  - unfold indexOf, indexOf_with. by rewrite Hidem.
  - unfold lastIndexOf, indexOf_with. by rewrite Hidem.
Qed.

End Contents.

(** X12.  [get(i)], and [sa[i]] through the proxy, return the element at
    position [i] of the sorted view when [0 <= i < length]; for any other
    integer they throw the [RangeError] of [oob], carrying [i] and
    [length - 1], before any sorting happens: the collection is left exactly
    as it was.  Reading [length] through the proxy gives the number of
    elements and leaves the collection as it was. *)
Theorem X12_get_in_and_out_of_bounds {T : Type} `{EqDecision T}
    (cmp : T -> T -> number) (s : SortedArray T) (i : Z) :
  let snap := unwrap (array (_sort cmp s)) in
  let len := Z.of_nat (length (array s)) in
  (0 <= i < len ->
   exists v,
     snap !! Z.to_nat i = Some v /\
     get cmp i s = (Return v, _sort cmp s) /\
     Handler_get cmp (IndexKey i) s = (Return (ElementValue v), _sort cmp s)) /\
  (~ 0 <= i < len ->
   get cmp i s = (Throw (OutOfBounds i (len - 1)), s) /\
   Handler_get cmp (IndexKey i) s = (Throw (OutOfBounds i (len - 1)), s)) /\
  Handler_get cmp LengthKey s = (Return (LengthValue len), s) /\
  Z.of_nat (length snap) = len.
Proof.
  intros snap len. pose proof (_sort_length cmp s) as Hlen.
  split; [|split; [|split]].
  - intros Hi. unfold Handler_get, get. fold len.
    destruct (Z.ltb_spec i 0) as [|_]; [lia|].
    destruct (Z.leb_spec len i) as [|_]; [lia|]. cbn [orb].
    destruct (nth_js_is_Some (array (_sort cmp s)) i) as [nd Hnd]; [lia|].
    rewrite Hnd. exists (obj nd). split; [|done].
    apply nth_js_Some in Hnd as [_ Hnd].
    unfold snap, unwrap. by rewrite list_lookup_fmap, Hnd.
  - intros Hi. unfold Handler_get, get, oob. fold len.
    destruct (Z.ltb_spec i 0); [done|].
    destruct (Z.leb_spec len i); [done|]. lia.
  - done.
  - unfold snap, unwrap. rewrite length_fmap. unfold len. by rewrite Hlen.
Qed.

(** X13.  [add] and [addAll] return the new length, the old one plus the
    number of items, and append the items' payloads to the backing array in
    the order given, also when an insertion renumbers the nodes; the
    collection is marked unsorted.  The sorted view after the call is a
    rearrangement of the sorted view before it followed by the items:
    nothing is lost and nothing is duplicated. *)
Theorem X13_addAll_adds_the_items {T : Type} `{EqDecision T}
    (cmp : T -> T -> number) (s : SortedArray T) (items : list T) :
  let s' := snd (addAll items s) in
  fst (addAll items s)
  = Return (Z.of_nat (length (array s)) + Z.of_nat (length items)) /\
  add items s = addAll items s /\
  unwrap (array s') = unwrap (array s) ++ items /\
  sorted s' = false /\
  exists snap snap',
    fst (toArray cmp s) = Return snap /\
    fst (toArray cmp s') = Return snap' /\
    snap' ≡ₚ snap ++ items.
Proof.
  intros s'.
  assert (unwrap (array s') = unwrap (array s) ++ items) as Hpay.
  { unfold s', addAll. cbn [snd]. by rewrite fold_addAll_push_payloads. }
  split.
  - unfold addAll. cbn [fst]. f_equal.
    pose proof (f_equal length Hpay) as Hl. unfold s', addAll in Hl. cbn [snd] in Hl.
    unfold unwrap in Hl. rewrite length_app, !length_fmap in Hl.
    cbn [array set_sorted] in Hl. lia.
  - split; [done|]. split; [done|].
    split; [apply (addAll_dirty items s)|].
    do 2 eexists. split; [done|]. split; [done|].
    rewrite (unwrap_Permutation _ _ (_sort_Permutation cmp s')), Hpay.
    by rewrite (unwrap_Permutation _ _ (_sort_Permutation cmp s)).
Qed.

(** X14.  Reads do not influence each other: in every state, whatever read
    came before, returning or throwing, a read answers what it would have
    answered without it.  In particular [toArray] after any read returns
    the same snapshot. *)
Theorem X14_reads_do_not_interfere {T : Type} `{EqDecision T}
    (cmp : T -> T -> number) (s : SortedArray T) (r1 r2 : reader T) :
  fst (read cmp r2 (snd (read cmp r1 s))) = fst (read cmp r2 s) /\
  fst (toArray cmp (snd (read cmp r1 s))) = fst (toArray cmp s).
Proof.
  assert (fst (read cmp r2 (snd (read cmp r1 s))) = fst (read cmp r2 s)) as H1.
  { destruct (read_state_cases cmp r1 s) as [->| ->]; [done|]. apply read_sorted. }
  split; [done|].
  destruct (read_state_cases cmp r1 s) as [->| ->]; [done|].
  unfold toArray. cbn [fst]. by rewrite _sort_idem.
Qed.

(** X15.  In every reachable state, [sort()] without a compare function
    returns and does not change what the collection shows: [toArray] after
    it returns what it would have returned before. *)
Theorem X15_sort_keeps_the_view {T : Type} `{EqDecision T}
    (cmp : T -> T -> number) (elements : option (list T))
    (ms : list (mutation T)) :
  consistent cmp ->
  let s := run cmp ms (new_SortedArray elements) in
  fst (sort cmp None s) = Return tt /\
  fst (toArray cmp (snd (sort cmp None s))) = fst (toArray cmp s).
Proof.
  intros Hc s. pose proof (reachable_lazy_ok cmp elements ms Hc) as Hok.
  fold s in Hok. split; [done|].
  unfold sort, toArray. cbn [fst snd]. rewrite _sort_idem. do 2 f_equal.
  destruct Hok as [Hsorting Hsorted].
  unfold _sort. cbn [sorted sorting set_sorted array]. rewrite Hsorting.
  cbn [negb andb]. destruct (sorted s) eqn:E; cbn [negb andb array set_sorted
    set_sorting set_array]; try done.
  apply Array_sort_sorted_id. by apply Hsorted.
Qed.

Lemma X15_sort_keeps_the_view_witness :
  consistent NumericSort /\
  fst (toArray NumericSort
         (snd (sort NumericSort None
                 (run NumericSort [MAdd [4; 2]; MSortPass; MAdd [0]]
                    (new_SortedArray (Some [5; 3; 1]))))))
  = Return [0; 1; 2; 3; 4; 5].
Proof.
  split; [exact consistent_NumericSort|].
  destruct (X15_sort_keeps_the_view NumericSort (Some [5; 3; 1])
              [MAdd [4; 2]; MSortPass; MAdd [0]] consistent_NumericSort) as [_ ->].
  vm_compute. reflexivity.
Defined.

(** X16.  In every reachable state that holds an element, [shift] returns
    a least element and [pop] a greatest one: both are elements of the
    sorted view, no element of the view is before what [shift] returns and
    none is after what [pop] returns. *)
Theorem X16_shift_least_pop_greatest {T : Type} `{EqDecision T}
    (cmp : T -> T -> number) (elements : option (list T))
    (ms : list (mutation T)) :
  consistent cmp ->
  let s := run cmp ms (new_SortedArray elements) in
  let snap := unwrap (array (_sort cmp s)) in
  array s <> [] ->
  exists least greatest,
    fst (shift cmp s) = Return least /\
    fst (pop cmp s) = Return greatest /\
    least ∈ snap /\ greatest ∈ snap /\
    forall x, x ∈ snap -> not_after cmp least x /\ not_after cmp x greatest.
Proof.
  intros Hc s snap Hne.
  pose proof (reachable_lazy_ok cmp elements ms Hc) as Hok. fold s in Hok.
  pose proof (unwrap_sorted cmp Hc _ (_sort_array_sorted cmp Hc s Hok)) as Hsrt.
  fold snap in Hsrt.
  assert (array (_sort cmp s) <> []) as Hne1.
  { intros Hnil. apply Hne. apply length_zero_iff_nil.
    by rewrite <-(_sort_length cmp), Hnil. }
  unfold shift, pop.
  destruct (array (_sort cmp s)) as [|nd rest] eqn:E; [done|].
  destruct (last (nd :: rest)) as [ndl|] eqn:El.
  2:{ by apply last_None in El. }
  exists (obj nd), (obj ndl). split; [done|]. split; [done|].
  assert (snap = obj nd :: unwrap rest) as Hsnap by done.
  assert (last snap = Some (obj ndl)) as Hlast.
  { unfold snap, unwrap. by rewrite fmap_last, El. }
  split; [rewrite Hsnap; left|].
  split; [by apply last_Some_elem_of|].
  intros x Hx. split.
  - rewrite Hsnap in Hx, Hsrt. apply StronglySorted_inv in Hsrt as [_ Hall].
    apply elem_of_cons in Hx as [->|Hx].
    + unfold not_after. rewrite (cmp_refl cmp Hc). lia.
    + rewrite Forall_forall in Hall. by apply Hall.
  - apply last_Some in Hlast as [l' Hl']. rewrite Hl' in Hx, Hsrt.
    apply elem_of_app in Hx as [Hx|Hx].
    + eapply StronglySorted_app_1_elem_of; [exact Hsrt|done|left].
    + apply list_elem_of_singleton in Hx as ->.
      unfold not_after. rewrite (cmp_refl cmp Hc). lia.
Qed.

Lemma X16_shift_least_pop_greatest_witness :
  let s := run NumericSort [MAdd [4; 2]] (new_SortedArray (Some [5; 3; 1])) in
  consistent NumericSort /\ array s <> [] /\
  fst (shift NumericSort s) = Return 1 /\ fst (pop NumericSort s) = Return 5.
Proof.
  intros s. subst s. split; [exact consistent_NumericSort|].
  match goal with |- ?P /\ _ => assert P as Hne by (vm_compute; discriminate) end.
  split; [exact Hne|].
  destruct (X16_shift_least_pop_greatest NumericSort (Some [5; 3; 1]) [MAdd [4; 2]]
              consistent_NumericSort Hne) as (lo & hi & Hlo & Hhi & _).
  split; [rewrite Hlo; vm_compute in Hlo|rewrite Hhi; vm_compute in Hhi]; congruence.
Defined.



(** X18.  Assigning [length] through the proxy.  A value [n] with
    [0 <= n <= length] cuts the backing array down to its first [n] nodes
    without sorting it first, and [length] then reads [n]: on a collection
    that is clean these are the first [n] elements of the sorted view; on a
    dirty one they are the first [n] nodes as stored, the elements added
    last going first.  A negative value, a value that is no integer and a
    value above the length throw a [RangeError] and change nothing. *)
Theorem X18_length_assignment {T : Type} `{EqDecision T}
    (cmp : T -> T -> number) (s : SortedArray T) (n : Z) :
  let len := Z.of_nat (length (array s)) in
  (0 <= n <= len ->
   exists s',
     Handler_set LengthKey (Some n) s = (Return true, s') /\
     unwrap (array s') = take (Z.to_nat n) (unwrap (array s)) /\
     sorted s' = sorted s /\
     fst (Handler_get cmp LengthKey s') = Return (LengthValue n) /\
     (sorted s = true ->
      fst (toArray cmp s) = Return (unwrap (array s)) /\
      fst (toArray cmp s') = Return (take (Z.to_nat n) (unwrap (array s))))) /\
  (n < 0 ->
   Handler_set LengthKey (Some n) s
   = (Throw (RangeError "Invalid array length"), s)) /\
  (len < n ->
   Handler_set LengthKey (Some n) s
   = (Throw (RangeError "The length of a SortedArray may not be extended"), s)) /\
  Handler_set LengthKey None s = (Throw (RangeError "Invalid array length"), s).
Proof.
  intros len. split; [|split; [|split]].
  - intros Hn. unfold Handler_set. fold len.
    destruct (Z.ltb_spec n 0) as [|_]; [lia|].
    destruct (Z.ltb_spec len n) as [|_]; [lia|].
    eexists. split; [done|]. cbn [array set_array sorted].
    split; [unfold unwrap; by rewrite fmap_take|]. split; [done|]. split.
    + unfold Handler_get. cbn [fst array set_array]. do 2 f_equal.
      rewrite length_take. lia.
    + intros Hs. unfold toArray. cbn [fst].
      rewrite !_sort_clean by done. cbn [array set_array].
      split; [done|]. unfold unwrap. by rewrite fmap_take.
  - intros Hn. unfold Handler_set. by destruct (Z.ltb_spec n 0) as [_|]; [|lia].
  - intros Hn. unfold Handler_set. fold len.
    destruct (Z.ltb_spec n 0) as [|_]; [lia|].
    by destruct (Z.ltb_spec len n) as [_|]; [|lia].
  - done.
Qed.

(** X19.  [splice(start, deleteCount)] without replacement items returns,
    in every state: it takes a stretch of consecutive elements out of the
    sorted view, starting at the position [start] denotes (counted from the
    end when negative, clamped to the view), and returns them; what it
    leaves, with the returned stretch put back at that position, is the
    sorted view before the call.  The stretch has [deleteCount] elements,
    clamped between zero and what is left of the view; with [deleteCount]
    omitted it is empty, so [splice(start)] removes nothing. *)
Theorem X19_splice_takes_a_stretch {T : Type} `{EqDecision T}
    (cmp : T -> T -> number) (s : SortedArray T) (start : Z)
    (deleteCount : option Z) :
  let snap := unwrap (array (_sort cmp s)) in
  let len := Z.of_nat (length snap) in
  let k := Z.to_nat (relative_index len start) in
  exists removed,
    fst (splice cmp start deleteCount [] s) = Return removed /\
    let after := unwrap (array (snd (splice cmp start deleteCount [] s))) in
    snap = take k after ++ removed ++ drop k after /\
    Z.of_nat (length removed)
    = Z.min (Z.max (default 0 deleteCount) 0) (len - relative_index len start) /\
    (deleteCount = None -> removed = [] /\ after = snap).
Proof.
  intros snap len k. unfold splice.
  change (0 <? Z.of_nat (length (@nil T))) with false. cbn iota. cbn [fst snd].
  eexists. split; [done|]. cbn [array set_array].
  assert (len = Z.of_nat (length (array (_sort cmp s)))) as Hlen
    by (unfold len, snap, unwrap; by rewrite length_fmap).
  rewrite <-Hlen. fold k.
  pose proof (relative_index_range len start) as Hk.
  set (adc := Z.min (Z.max (default 0 deleteCount) 0) (len - relative_index len start)).
  assert (0 <= adc) as Hadc by lia.
  assert (Z.to_nat (relative_index len start + adc) = (k + Z.to_nat adc)%nat)
    as -> by lia.
  set (arr := array (_sort cmp s)) in *.
  assert (length arr = Z.to_nat len) as Hl by lia.
  assert (unwrap (take k arr ++ drop (k + Z.to_nat adc) arr)
          = take k snap ++ drop (k + Z.to_nat adc) snap) as Hafter.
  { unfold snap, unwrap. by rewrite fmap_app, fmap_take, fmap_drop. }
  rewrite Hafter.
  assert (unwrap (take (Z.to_nat adc) (drop k arr))
          = take (Z.to_nat adc) (drop k snap)) as Hrem.
  { unfold snap, unwrap. by rewrite fmap_take, fmap_drop. }
  rewrite Hrem.
  assert (length snap = Z.to_nat len) as Hls by lia.
  assert (take k (take k snap ++ drop (k + Z.to_nat adc) snap) = take k snap) as Ht.
  { rewrite take_app_le by (rewrite length_take; lia).
    rewrite take_take. f_equal. lia. }
  assert (drop k (take k snap ++ drop (k + Z.to_nat adc) snap)
          = drop (k + Z.to_nat adc) snap) as Hd.
  { rewrite drop_app_ge by (rewrite length_take; lia).
    rewrite length_take. replace (k - k `min` length snap)%nat with O by lia.
    done. }
  split; [|split].
  - rewrite Ht, Hd.
    rewrite <-(take_drop k snap) at 1. f_equal.
    rewrite <-(take_drop (Z.to_nat adc) (drop k snap)) at 1. f_equal.
    rewrite drop_drop. done.
  - rewrite length_take, length_drop. lia.
  - intros ->. subst adc. cbn [default].
    replace (Z.min (Z.max 0 0) (len - relative_index len start)) with 0 by lia.
    change (Z.to_nat 0) with O. rewrite Nat.add_0_r, take_drop. done.
Qed.

(** X20.  Every read ends, whatever the compare function answers, be it
    inconsistent or [NaN]: the binary search of [search] and the scans of
    [searchAll] and [searchNth] stop within the bounds of the array, so that
    the call returns or throws one of its JavaScript exceptions. *)
Theorem X20_every_read_ends {T : Type} `{EqDecision T}
    (cmp : T -> T -> number) (s : SortedArray T) (r : reader T)
    (o : T) (min max : option Z) :
  ((exists v, fst (read cmp r s) = Return v) \/
   (exists e, fst (read cmp r s) = Throw e /\ e <> OutOfFuel)) /\
  ((exists v, fst (search cmp o min max s) = Return v) \/
   (exists e, fst (search cmp o min max s) = Throw e /\ e <> OutOfFuel)).
Proof.
  assert (forall A (c : completion A),
            no_fuel_error c ->
            (exists v, c = Return v) \/ (exists e, c = Throw e /\ e <> OutOfFuel))
    as Hcases.
  { intros A [v|e] Hc; [by eauto|]. right. exists e. split; [done|].
    by intros ->. }
  split; apply Hcases; [apply read_fuel|apply search_fuel].
Qed.

(** ** The compare functions *)

Lemma lex_compare_antisym (a b : list Z) :
  lex_compare b a = CompOpp (lex_compare a b).
Proof.
  revert b. induction a as [|x a IH]; intros [|y b]; simpl; try done.
  rewrite (Z.compare_antisym x y).
  destruct (x ?= y); simpl; [apply IH|done..].
Qed.

Lemma lex_compare_trans (a b d : list Z) :
  lex_compare a b <> Gt -> lex_compare b d <> Gt -> lex_compare a d <> Gt.
Proof.
  revert b d. induction a as [|x a IH]; intros [|y b] [|z d]; simpl; try done.
  destruct (Z.compare_spec x y) as [->|Hxy|Hxy]; [|..|done].
  - destruct (Z.compare_spec y z) as [->|Hyz|Hyz]; [apply IH|done..].
  - destruct (Z.compare_spec y z) as [->|Hyz|Hyz]; [|..|done]; intros _ _.
    + by destruct (Z.compare_spec x z) as [->| |]; [lia| |lia].
    + by destruct (Z.compare_spec x z) as [->| |]; [lia| |lia].
Qed.

Section DefaultSortOrder.

Context {V : Type}.
Variable strict_eq : V -> V -> bool.
Variable String_ : V -> jsstring.
Hypothesis Hstr : forall x y, strict_eq x y = true -> String_ x = String_ y.

Lemma DefaultSort_sign (a b : option V) :
  number_sign (DefaultSort strict_eq String_ a b) = Some (DefaultSort_order String_ a b).
Proof using Hstr.
  destruct a as [x|], b as [y|]; try done.
  unfold DefaultSort, DefaultSort_order. destruct (strict_eq x y) eqn:Heq.
  { rewrite (Hstr x y Heq), lex_compare_refl. done. }
  destruct (decide (String_ x = String_ y)) as [->|Hne].
  { by rewrite lex_compare_refl. }
  destruct (String_ x) as [|cx sx] eqn:Ex.
  { simpl. by destruct (String_ y). }
  destruct (String_ y) as [|cy sy] eqn:Ey; [done|].
  destruct (Z.eqb_spec (Z.of_nat (length (cx :: sx))) 0) as [Hl|_];
    [simpl in Hl; lia|].
  destruct (Z.eqb_spec (Z.of_nat (length (cy :: sy))) 0) as [Hl|_];
    [simpl in Hl; lia|].
  apply (DefaultSort_loop_spec (cx :: sx) (cy :: sy) [] []); try done.
  simpl length. lia.
Qed.

Lemma DefaultSort_order_antisym (a b : option V) :
  DefaultSort_order String_ b a = CompOpp (DefaultSort_order String_ a b).
Proof. destruct a, b; simpl; try done. apply lex_compare_antisym. Qed.

Lemma DefaultSort_order_trans (a b d : option V) :
  DefaultSort_order String_ a b <> Gt -> DefaultSort_order String_ b d <> Gt ->
  DefaultSort_order String_ a d <> Gt.
Proof. destruct a, b, d; simpl; try done. apply lex_compare_trans. Qed.

Lemma DefaultSort_SortCompare (a b : option V) :
  DefaultSort strict_eq String_ a b
  = Num (SortCompare (DefaultSort strict_eq String_) a b) /\
  (SortCompare (DefaultSort strict_eq String_) a b ?= 0) = DefaultSort_order String_ a b.
Proof using Hstr.
  pose proof (DefaultSort_sign a b) as Hs. unfold SortCompare.
  destruct (DefaultSort strict_eq String_ a b) as [z|]; [|done].
  simpl in Hs. by injection Hs as Hs.
Qed.

End DefaultSortOrder.

(** X21.  [DefaultSort] is a consistent compare function whenever two
    values that are [===] have the same string: it never answers [NaN],
    swapping its arguments swaps the sign of its answer, and "not after" is
    transitive.  The sorting and lookup properties shown for consistent
    compare functions therefore hold for a collection built without a
    compare function. *)
Theorem X21_DefaultSort_is_consistent {V : Type}
    (strict_eq : V -> V -> bool) (String_ : V -> jsstring) :
  (forall x y, strict_eq x y = true -> String_ x = String_ y) ->
  consistent (constructor_originalCompareFn strict_eq String_ None).
Proof.
  intros Hstr.
  change (constructor_originalCompareFn strict_eq String_ None)
    with (DefaultSort strict_eq String_).
  split; [|split].
  - intros a b. by destruct (DefaultSort_SortCompare strict_eq String_ Hstr a b) as [-> _].
  - intros a b.
    destruct (DefaultSort_SortCompare strict_eq String_ Hstr a b) as [_ Hab].
    destruct (DefaultSort_SortCompare strict_eq String_ Hstr b a) as [_ Hba].
    rewrite (DefaultSort_order_antisym String_ a b), <-Hab in Hba.
    destruct (Z.compare_spec (SortCompare (DefaultSort strict_eq String_) a b) 0)
      as [Heq|Hlt|Hgt]; simpl in Hba.
    + right. left. split; [done|]. by apply Z.compare_eq.
    + left. split; [done|]. by apply Z.compare_gt_iff in Hba.
    + right. right. split; [done|]. by apply Z.compare_lt_iff in Hba.
  - intros a b d Hab Hbd.
    destruct (DefaultSort_SortCompare strict_eq String_ Hstr a b) as [_ Hab'].
    destruct (DefaultSort_SortCompare strict_eq String_ Hstr b d) as [_ Hbd'].
    destruct (DefaultSort_SortCompare strict_eq String_ Hstr a d) as [_ Had'].
    unfold Z.le in *. rewrite Had'. rewrite Hab' in Hab. rewrite Hbd' in Hbd.
    by apply (DefaultSort_order_trans String_ a b d).
Qed.

Lemma X21_DefaultSort_is_consistent_witness :
  let strict_eq (x y : jsstring) := bool_decide (x = y) in
  (forall x y : jsstring, strict_eq x y = true -> id x = id y) /\
  consistent (constructor_originalCompareFn strict_eq id None).
Proof.
  intros strict_eq.
  assert (forall x y : jsstring, strict_eq x y = true -> id x = id y) as Hstr
    by (intros x y Hxy; exact (bool_decide_eq_true_1 _ Hxy)).
  split; [exact Hstr|].
  exact (X21_DefaultSort_is_consistent strict_eq id Hstr).
Defined.

Lemma StronglySorted_weaken {A} (R1 R2 : relation A) (l : list A) :
  (forall x y, R1 x y -> R2 x y) -> StronglySorted R1 l -> StronglySorted R2 l.
Proof.
  intros HR. induction 1 as [|x l Hl IH Hx]; constructor; [done|].
  eapply Forall_impl; [exact Hx|]. intros y. apply HR.
Qed.

Lemma SortCompare_SortInverter {U} (f : U -> U -> number) (a b : U) :
  SortCompare (SortInverter f) a b = - SortCompare f a b.
Proof. unfold SortCompare, SortInverter. by destruct (f a b). Qed.

Lemma consistent_SortInverter {U} (f : U -> U -> number) :
  consistent f -> consistent (SortInverter f).
Proof.
  intros Hf. split; [|split].
  - intros a b. unfold SortInverter. rewrite (consistent_Num f Hf a b). done.
  - intros a b. rewrite !SortCompare_SortInverter.
    pose proof (cmp_antisym f Hf a b). lia.
  - intros a b d. rewrite !SortCompare_SortInverter. intros Hab Hbd.
    assert (SortCompare f d b <= 0) by (pose proof (cmp_antisym f Hf b d); lia).
    assert (SortCompare f b a <= 0) by (pose proof (cmp_antisym f Hf a b); lia).
    pose proof (cmp_le_trans f Hf d b a).
    pose proof (cmp_antisym f Hf a d). lia.
Qed.

(** X22.  [SortInverter(f)] answers the negation of what [f] answers and is
    consistent when [f] is.  A collection built with it shows its elements
    in the opposite order: in every reachable state no element of the sorted
    view is before, under [f], an element that precedes it. *)
Theorem X22_SortInverter_reverses_the_order {T : Type} `{EqDecision T}
    (f : T -> T -> number) (elements : option (list T))
    (ms : list (mutation T)) :
  consistent f ->
  let s := run (SortInverter f) ms (new_SortedArray elements) in
  let snap := unwrap (array (_sort (SortInverter f) s)) in
  consistent (SortInverter f) /\
  (forall a b, SortCompare (SortInverter f) a b = - SortCompare f a b) /\
  fst (toArray (SortInverter f) s) = Return snap /\
  StronglySorted (fun x y => not_after f y x) snap.
Proof.
  intros Hf s snap. pose proof (consistent_SortInverter f Hf) as Hc.
  split; [done|]. split; [apply SortCompare_SortInverter|]. split; [done|].
  pose proof (reachable_lazy_ok (SortInverter f) elements ms Hc) as Hok.
  fold s in Hok.
  pose proof (unwrap_sorted _ Hc _ (_sort_array_sorted _ Hc s Hok)) as Hsrt.
  fold snap in Hsrt.
  eapply StronglySorted_weaken; [|exact Hsrt]. intros x y. unfold not_after.
  rewrite SortCompare_SortInverter. pose proof (cmp_antisym f Hf x y). lia.
Qed.

Lemma X22_SortInverter_reverses_the_order_witness :
  consistent NumericSort /\
  fst (toArray (SortInverter NumericSort)
         (run (SortInverter NumericSort) [MAdd [4; 2]]
            (new_SortedArray (Some [5; 3; 1]))))
  = Return [5; 4; 3; 2; 1].
Proof.
  split; [exact consistent_NumericSort|].
  destruct (X22_SortInverter_reverses_the_order NumericSort (Some [5; 3; 1])
              [MAdd [4; 2]] consistent_NumericSort) as (_ & _ & -> & _).
  vm_compute. reflexivity.
Defined.

(** ** The lazy sort and the sequence numbers *)

Section StableSort.

Context {T : Type} `{EqDecision T}.
Variable cmp : T -> T -> number.

Lemma compareFn_later (a b : SANode T) :
  index a < index b ->
  (SortCompare (compareFn cmp) a b <=? 0) = (SortCompare cmp (obj a) (obj b) <=? 0).
Proof.
  intros Hlt. unfold SortCompare, compareFn.
  destruct (cmp (obj a) (obj b)) as [z|]; simpl; [|done].
  destruct (Z.eqb_spec z 0) as [->|]; [|done].
  destruct (Z.leb_spec (index a - index b) 0); [done|lia].
Qed.

Lemma sorted_insert_nodes (nd : SANode T) (l : list (SANode T)) :
  Forall (fun y => index nd < index y) l ->
  unwrap (sorted_insert (compareFn cmp) nd l) = sorted_insert cmp (obj nd) (unwrap l).
Proof.
  induction 1 as [|y l Hy _ IH]; [done|].
  simpl. rewrite (compareFn_later nd y Hy).
  destruct (SortCompare cmp (obj nd) (obj y) <=? 0); [done|].
  simpl. f_equal. apply IH.
Qed.

(** Sorting nodes that stand in the order of their sequence numbers is a
    stable sort of their payloads. *)
Lemma Array_sort_nodes (l : list (SANode T)) :
  StronglySorted (fun a b => index a < index b) l ->
  unwrap (Array_sort (compareFn cmp) l) = Array_sort cmp (unwrap l).
Proof.
  induction 1 as [|nd l Hl IH Hnd]; [done|].
  change (Array_sort (compareFn cmp) (nd :: l))
    with (sorted_insert (compareFn cmp) nd (Array_sort (compareFn cmp) l)).
  rewrite sorted_insert_nodes.
  - rewrite IH. done.
  - rewrite Forall_forall in Hnd |- *. intros y Hy. apply Hnd.
    by apply elem_of_Array_sort in Hy.
Qed.

Lemma wrapOne_fresh (o : T) (s : SortedArray T) :
  insertionCounter s + 1 < MAX_SAFE_INTEGER ->
  wrapOne o false None s
  = (mkNode o (insertionCounter s),
     set_insertionCounter (insertionCounter s + 1) s).
Proof.
  intros Hroom. unfold wrapOne. cbn [negb default].
  cbn [insertionCounter set_insertionCounter].
  destruct (Z.leb_spec MAX_SAFE_INTEGER (insertionCounter s + 1)); [lia|].
  by rewrite Z.add_0_r.
Qed.

Lemma numbered_snoc (nodes : list (SANode T)) (c : Z) (o : T) :
  numbered nodes c -> numbered (nodes ++ [mkNode o c]) (c + 1).
Proof.
  intros (Hs & Hb & Hc). split; [|split].
  - apply StronglySorted_app_2; [|done|repeat constructor].
    intros x y Hx ->%list_elem_of_singleton. simpl.
    rewrite Forall_forall in Hb. by apply Hb.
  - apply Forall_app. split; [|repeat constructor; simpl; lia].
    eapply Forall_impl; [exact Hb|]. intros n Hn. simpl in Hn. lia.
  - rewrite length_app. simpl. lia.
Qed.

Lemma fold_addAll_push_numbered (items : list T) (s : SortedArray T) :
  Z.of_nat (length (array s) + length items) <= 2 ^ 32 - 1 ->
  numbered (array s) (insertionCounter s) ->
  numbered (array (fold_left addAll_push items s))
           (insertionCounter (fold_left addAll_push items s)).
Proof.
  revert s. induction items as [|x items IH]; intros s Hroom Hn; [done|].
  cbn [fold_left]. apply IH.
  - unfold addAll_push. rewrite wrapOne_fresh.
    + cbn [array set_array set_insertionCounter]. rewrite length_app.
      simpl in *. lia.
    + destruct Hn as (_ & _ & ->). simpl in Hroom.
      change (2 ^ 32 - 1) with 4294967295 in Hroom.
      change MIN_SAFE_INTEGER with (-9007199254740991).
      change MAX_SAFE_INTEGER with 9007199254740991. lia.
  - unfold addAll_push. rewrite wrapOne_fresh.
    + cbn [array set_array set_insertionCounter insertionCounter].
      by apply numbered_snoc.
    + destruct Hn as (_ & _ & ->). simpl in Hroom.
      change (2 ^ 32 - 1) with 4294967295 in Hroom.
      change MIN_SAFE_INTEGER with (-9007199254740991).
      change MAX_SAFE_INTEGER with 9007199254740991. lia.
Qed.

Lemma fold_wrap_push_numbered (objs : list T)
    (acc : list (SANode T) * SortedArray T) :
  Z.of_nat (length (fst acc) + length objs) <= 2 ^ 32 - 1 ->
  numbered (fst acc) (insertionCounter (snd acc)) ->
  numbered (fst (fold_left wrap_push objs acc))
           (insertionCounter (snd (fold_left wrap_push objs acc))) /\
  unwrap (fst (fold_left wrap_push objs acc)) = unwrap (fst acc) ++ objs.
Proof.
  revert acc. induction objs as [|x objs IH]; intros [nodes s] Hroom Hn.
  - simpl. by rewrite app_nil_r.
  - cbn [fold_left]. cbn [fst snd] in *.
    assert (insertionCounter s + 1 < MAX_SAFE_INTEGER) as Hfresh.
    { destruct Hn as (_ & _ & ->). simpl in Hroom.
      change (2 ^ 32 - 1) with 4294967295 in Hroom.
      change MIN_SAFE_INTEGER with (-9007199254740991).
      change MAX_SAFE_INTEGER with 9007199254740991. lia. }
    unfold wrap_push at 2 4 6. cbn [fst snd]. rewrite (wrapOne_fresh x s Hfresh).
    destruct (IH (nodes ++ [mkNode x (insertionCounter s)],
                  set_insertionCounter (insertionCounter s + 1) s)) as [H1 H2].
    + cbn [fst]. rewrite length_app. simpl in *. lia.
    + cbn [fst snd insertionCounter set_insertionCounter]. by apply numbered_snoc.
    + split; [exact H1|]. rewrite H2. cbn [fst]. unfold unwrap.
      rewrite fmap_app. simpl. by rewrite <-app_assoc.
Qed.

Lemma run_adds_numbered (batches : list (list T)) (s : SortedArray T) :
  Z.of_nat (length (array s) + length (List.concat batches)) <= 2 ^ 32 - 1 ->
  numbered (array s) (insertionCounter s) ->
  sorted s = false -> sorting s = false ->
  let s' := run cmp (MAdd <$> batches) s in
  numbered (array s') (insertionCounter s') /\
  unwrap (array s') = unwrap (array s) ++ List.concat batches /\
  sorted s' = false /\ sorting s' = false.
Proof.
  revert s. induction batches as [|items batches IH]; intros s Hroom Hn Hs Hg.
  - simpl. by rewrite app_nil_r.
  - cbn [fmap list_fmap run fold_left step]. cbn [List.concat] in *.
    rewrite length_app in Hroom.
    assert (unwrap (array (snd (addAll items s))) = unwrap (array s) ++ items) as Hpay.
    { unfold addAll. cbn [snd]. by rewrite fold_addAll_push_payloads. }
    pose proof (f_equal length Hpay) as Hlen. unfold unwrap in Hlen.
    rewrite length_app, !length_fmap in Hlen.
    destruct (addAll_dirty items s) as [Hd Hg'].
    destruct (IH (snd (addAll items s))) as (H1 & H2 & H3 & H4).
    + lia.
    + unfold addAll. cbn [snd]. apply fold_addAll_push_numbered.
      * cbn [array set_sorted]. lia.
      * by destruct s.
    + done.
    + congruence.
    + split; [exact H1|]. split; [|done].
      unfold run in H2. rewrite H2, Hpay. by rewrite <-app_assoc.
Qed.

End StableSort.

(** X23.  Building a collection and adding to it, with no call in between
    that makes it sort, then reading it is a stable sort of everything that
    went in: [toArray] returns what [Array.prototype.sort] with the
    collection's compare function returns on the constructor's elements
    followed by the added items, in the order they were given. *)
Theorem X23_lazy_sort_is_a_stable_sort {T : Type} `{EqDecision T}
    (cmp : T -> T -> number) (elements : list T) (batches : list (list T)) :
  Z.of_nat (length (elements ++ List.concat batches)) <= 2 ^ 32 - 1 ->
  let s := run cmp (MAdd <$> batches) (new_SortedArray (Some elements)) in
  fst (toArray cmp s) = Return (Array_sort cmp (elements ++ List.concat batches)).
Proof.
  intros Hroom s. rewrite length_app in Hroom.
  pose proof (fold_wrap_push_numbered elements
                ([], mkSA [] false MIN_SAFE_INTEGER false)) as Hw.
  cbn [fst snd insertionCounter length] in Hw.
  destruct Hw as [Hn Hpay]; [lia|by repeat constructor|].
  assert (array (new_SortedArray (Some elements))
          = fst (fold_left wrap_push elements ([], mkSA [] false MIN_SAFE_INTEGER false))
          /\ insertionCounter (new_SortedArray (Some elements))
             = insertionCounter
                 (snd (fold_left wrap_push elements
                         ([], mkSA [] false MIN_SAFE_INTEGER false)))
          /\ sorted (new_SortedArray (Some elements)) = false
          /\ sorting (new_SortedArray (Some elements)) = false) as (Ha & Hi & Hs & Hg).
  { unfold new_SortedArray, wrap.
    pose proof (fold_wrap_push_flags elements
                  ([], mkSA [] false MIN_SAFE_INTEGER false)) as Hf.
    destruct (fold_left wrap_push elements _) as [nodes s1]. cbn [fst snd] in *.
    destruct Hf as [_ Hf]. done. }
  rewrite <-Ha, <-Hi in Hn. rewrite <-Ha in Hpay.
  change (unwrap [] ++ elements) with elements in Hpay.
  pose proof (f_equal length Hpay) as Hlen. unfold unwrap in Hlen.
  rewrite length_fmap in Hlen.
  destruct (run_adds_numbered cmp batches (new_SortedArray (Some elements)))
    as ((Hsorted & _) & Hall & Hs' & Hg'); [lia|done..|].
  fold s in Hsorted, Hall, Hs', Hg'.
  unfold toArray, _sort. cbn [fst]. rewrite Hs', Hg'. cbn [negb andb].
  cbn [array set_sorted set_sorting set_array].
  rewrite Array_sort_nodes by done. by rewrite Hall, Hpay.
Qed.

Lemma X23_lazy_sort_is_a_stable_sort_witness :
  Z.of_nat (length ([(2, 1); (1, 1)] ++ List.concat [[(1, 2)]; [(2, 2); (1, 3)]]))
  <= 2 ^ 32 - 1 /\
  fst (toArray by_first
         (run by_first (MAdd <$> [[(1, 2)]; [(2, 2); (1, 3)]])
            (new_SortedArray (Some [(2, 1); (1, 1)]))))
  = Return [(1, 1); (1, 2); (1, 3); (2, 1); (2, 2)].
Proof.
  assert (Z.of_nat (length ([(2, 1); (1, 1)] ++ List.concat [[(1, 2)]; [(2, 2); (1, 3)]]))
          <= 2 ^ 32 - 1) as Hroom by (vm_compute; discriminate).
  split; [exact Hroom|].
  rewrite (X23_lazy_sort_is_a_stable_sort by_first [(2, 1); (1, 1)]
             [[(1, 2)]; [(2, 2); (1, 3)]] Hroom).
  vm_compute. reflexivity.
Defined.

(** ** Renumbering and the sorted view *)

Section SortPairs.

Context {A B : Type}.
Variable cA : A -> A -> number.
Variable cB : B -> B -> number.

Local Abbreviation cP := (fun p q : A * B => cA (fst p) (fst q)).

Lemma sorted_insert_pairs (p : A * B) (P : list (A * B)) :
  (forall q, q ∈ P ->
             (SortCompare cA (fst p) (fst q) <=? 0)
             = (SortCompare cB (snd p) (snd q) <=? 0)) ->
  fst <$> sorted_insert cP p P = sorted_insert cA (fst p) (fst <$> P) /\
  snd <$> sorted_insert cP p P = sorted_insert cB (snd p) (snd <$> P).
Proof.
  induction P as [|q P IH]; intros Hagree; [done|].
  cbn [sorted_insert fmap list_fmap].
  rewrite <-(Hagree q) by left.
  change (SortCompare cP p q) with (SortCompare cA (fst p) (fst q)).
  destruct (SortCompare cA (fst p) (fst q) <=? 0); [done|].
  destruct IH as [IH1 IH2]; [intros q' Hq'; apply Hagree; by right|].
  cbn [fmap list_fmap]. fold (@fmap list _ _ _ (@fst A B)).
  fold (@fmap list _ _ _ (@snd A B)).
  by rewrite IH1, IH2.
Qed.

(** Two arrays whose elements, position by position, compare alike are
    sorted by the same rearrangement. *)
Lemma Array_sort_pairs (P : list (A * B)) :
  (forall p q, p ∈ P -> q ∈ P ->
               (SortCompare cA (fst p) (fst q) <=? 0)
               = (SortCompare cB (snd p) (snd q) <=? 0)) ->
  fst <$> Array_sort cP P = Array_sort cA (fst <$> P) /\
  snd <$> Array_sort cP P = Array_sort cB (snd <$> P).
Proof.
  induction P as [|p P IH]; intros Hagree; [done|].
  change (Array_sort cP (p :: P)) with (sorted_insert cP p (Array_sort cP P)).
  destruct IH as [IH1 IH2].
  { intros q q' Hq Hq'. apply Hagree; by right. }
  destruct (sorted_insert_pairs p (Array_sort cP P)) as [H1 H2].
  { intros q Hq. apply Hagree; [left|]. right. by apply elem_of_Array_sort in Hq. }
  rewrite H1, H2, IH1, IH2. done.
Qed.

End SortPairs.

Section RenumberedView.

Context {T : Type} `{EqDecision T}.
Variable cmp : T -> T -> number.

Lemma SortCompare_compareFn_raw (a b : SANode T) :
  SortCompare (compareFn cmp) a b
  = if is_zero (cmp (obj a) (obj b)) then index a - index b
    else SortCompare cmp (obj a) (obj b).
Proof.
  unfold SortCompare, compareFn. by destruct (is_zero (cmp (obj a) (obj b))).
Qed.

Lemma renumbered_sort (arr : list (SANode T)) :
  NoDup (index <$> arr) ->
  unwrap (Array_sort (compareFn cmp)
            (imap (fun p nd =>
                     mkNode (obj nd)
                       (MIN_SAFE_INTEGER + Z.of_nat (renumber_rank arr p))) arr))
  = unwrap (Array_sort (compareFn cmp) arr).
Proof.
  intros Hnd.
  set (f := fun (p : nat) (nd : SANode T) =>
              mkNode (obj nd) (MIN_SAFE_INTEGER + Z.of_nat (renumber_rank arr p))).
  set (P := imap (fun p nd => (nd, f p nd)) arr).
  assert (fst <$> P = arr) as HP1.
  { unfold P. rewrite fmap_imap. apply imap_id_ext. done. }
  assert (snd <$> P = imap f arr) as HP2.
  { unfold P. by rewrite fmap_imap. }
  assert (forall q, q ∈ P -> exists p nd, arr !! p = Some nd /\ q = (nd, f p nd))
    as HP.
  { intros q Hq. unfold P in Hq. apply elem_of_lookup_imap in Hq.
    destruct Hq as (p & nd & -> & Hp). eauto. }
  destruct (Array_sort_pairs (compareFn cmp) (compareFn cmp) P) as [H1 H2].
  { intros q q' Hq Hq'.
    destruct (HP q Hq) as (p & nd & Hp & ->).
    destruct (HP q' Hq') as (p' & nd' & Hp' & ->).
    cbn [fst snd]. rewrite !SortCompare_compareFn_raw. unfold f. cbn [obj index].
    destruct (is_zero (cmp (obj nd) (obj nd'))); [|done].
    pose proof (lookup_lt_Some _ _ _ Hp) as Hlt.
    pose proof (lookup_lt_Some _ _ _ Hp') as Hlt'.
    assert (index_at arr p = index nd) as Hip by (unfold index_at; by rewrite Hp).
    assert (index_at arr p' = index nd') as Hip' by (unfold index_at; by rewrite Hp').
    destruct (decide (p = p')) as [->|Hne].
    { assert (nd = nd') as -> by congruence.
      rewrite !Z.sub_diag. done. }
    assert (index nd <> index nd') as Hidx.
    { intros Heq. apply Hne.
      apply (NoDup_lookup (index <$> arr) p p' (index nd)); [done|..].
      - by rewrite list_lookup_fmap, Hp.
      - by rewrite list_lookup_fmap, Hp', Heq. }
    destruct (Z.lt_ge_cases (index nd) (index nd')) as [Hlti|Hgei].
    - pose proof (renumber_rank_mono arr p p' Hlt Hlt') as Hm.
      rewrite Hip, Hip' in Hm. specialize (Hm Hlti).
      destruct (Z.leb_spec (index nd - index nd') 0); [|lia].
      destruct (Z.leb_spec
                  (MIN_SAFE_INTEGER + Z.of_nat (renumber_rank arr p)
                   - (MIN_SAFE_INTEGER + Z.of_nat (renumber_rank arr p'))) 0);
        [done|lia].
    - pose proof (renumber_rank_mono arr p' p Hlt' Hlt) as Hm.
      rewrite Hip, Hip' in Hm. assert (index nd' < index nd) as Hgt by lia.
      specialize (Hm Hgt).
      destruct (Z.leb_spec (index nd - index nd') 0); [lia|].
      destruct (Z.leb_spec
                  (MIN_SAFE_INTEGER + Z.of_nat (renumber_rank arr p)
                   - (MIN_SAFE_INTEGER + Z.of_nat (renumber_rank arr p'))) 0);
        [lia|done]. }
  rewrite HP1 in H1. rewrite HP2 in H2. fold f.
  rewrite <-H1, <-H2. unfold unwrap. rewrite <-!list_fmap_compose.
  apply list_fmap_ext. intros i q Hq.
  apply list_elem_of_lookup_2, elem_of_Array_sort, HP in Hq
    as (p & nd & _ & ->).
  done.
Qed.

End RenumberedView.

(** X24.  The renumbering pass does not change what the collection shows:
    on a state whose nodes carry distinct sequence numbers, [toArray] after
    [reduceInsertionOrders] returns what it returns without it, whether or
    not the array still has to be sorted. *)
Theorem X24_renumbering_keeps_the_view {T : Type} `{EqDecision T}
    (cmp : T -> T -> number) (s : SortedArray T) :
  NoDup (index <$> array s) ->
  fst (toArray cmp (reduceInsertionOrders s)) = fst (toArray cmp s).
Proof.
  intros Hnd. unfold toArray, _sort. cbn [fst].
  destruct (reduceInsertionOrders_flags s) as [-> ->].
  destruct (reduceInsertionOrders_spec s) as [_ Harr].
  destruct (negb (sorted s) && negb (sorting s));
    cbn [array set_sorted set_sorting set_array]; rewrite Harr; f_equal.
  - by apply renumbered_sort.
  - unfold unwrap. apply list_eq. intros p.
    rewrite !list_lookup_fmap, list_lookup_imap. by destruct (array s !! p).
Qed.

Lemma X24_renumbering_keeps_the_view_witness :
  let s := mkSA [mkNode 3 7; mkNode 1 9; mkNode 3 2; mkNode 1 4] false 10 false in
  NoDup (index <$> array s) /\
  fst (toArray NumericSort (reduceInsertionOrders s)) = Return [1; 1; 3; 3] /\
  (index <$> array (reduceInsertionOrders s))
  = [MIN_SAFE_INTEGER + 2; MIN_SAFE_INTEGER + 3; MIN_SAFE_INTEGER + 0;
     MIN_SAFE_INTEGER + 1].
Proof.
  intros s. subst s.
  match goal with
  | |- ?P /\ _ => assert P as Hnd by (by apply (bool_decide_unpack _))
  end.
  split; [exact Hnd|]. split; [|vm_compute; reflexivity].
  rewrite (X24_renumbering_keeps_the_view NumericSort _ Hnd).
  vm_compute. reflexivity.
Defined.

(** ** [removeAll] on an index that is out of bounds *)

Section RemoveAllPartial.

Context {T : Type} `{EqDecision T}.
Variable cmp : T -> T -> number.

Lemma removeAll_loop_app (xs ys : list Z) (i : Z) (acc : list T)
    (s : SortedArray T) :
  removeAll_loop (xs ++ ys) i acc s
  = match removeAll_loop xs i acc s with
    | (Return acc', s') => removeAll_loop ys (i + Z.of_nat (length xs)) acc' s'
    | (Throw e, s') => (Throw e, s')
    end.
Proof.
  revert i acc s. induction xs as [|x xs IH]; intros i acc s.
  - simpl. by rewrite Z.add_0_r.
  - cbn [app removeAll_loop].
    destruct ((x - i <? 0) || (Z.of_nat (length (array s)) <=? x - i)); [done|].
    destruct (nth_js (array s) (x - i)) as [nd|]; [|done].
    rewrite IH. cbn [length].
    replace (i + 1 + Z.of_nat (length xs)) with (i + Z.of_nat (S (length xs))) by lia.
    done.
Qed.

Lemma sorted_split (n : Z) (l : list Z) :
  StronglySorted Z.lt l ->
  l = filter (fun x => x < n) l ++ filter (fun x => n <= x) l.
Proof.
  induction 1 as [|x l Hl IH Hx]; [done|].
  rewrite !filter_cons. destruct (decide (x < n)) as [Hlt|Hge].
  - destruct (decide (n <= x)); [lia|]. simpl. by f_equal.
  - destruct (decide (n <= x)); [|lia].
    assert (filter (fun x => x < n) l = []) as Hnil.
    { apply filter_none. eapply Forall_impl; [exact Hx|].
      intros y Hy. simpl in Hy. lia. }
    rewrite Hnil in *. simpl in IH. simpl. by f_equal.
Qed.

End RemoveAllPartial.

(** X25.  [removeAll] is not all-or-nothing.  Given distinct indices: when
    none is negative and some lie at or past the length, it first removes
    the elements at the indices that are in range and then throws the
    [RangeError] of [oob] for the least index that is not, with that index
    and the upper bound both lowered by the number of elements already
    removed; the collection is left without the removed elements.  When
    some index is negative it throws for the least index at once and removes
    nothing. *)
Theorem X25_removeAll_stops_at_the_first_bad_index {T : Type} `{EqDecision T}
    (cmp : T -> T -> number) (s : SortedArray T) (indices : list Z) (bad : Z) :
  NoDup indices ->
  bad ∈ indices ->
  let snap := unwrap (array (_sort cmp s)) in
  let len := Z.of_nat (length snap) in
  let good := filter (fun x => x < len) indices in
  let removed := Z.of_nat (length good) in
  (Forall (fun x => 0 <= x) indices ->
   len <= bad ->
   (forall x, x ∈ indices -> len <= x -> bad <= x) ->
   fst (removeAll cmp indices s)
   = Throw (OutOfBounds (bad - removed) (len - removed - 1)) /\
   unwrap (array (snd (removeAll cmp indices s))) = keep_except good 0 snap) /\
  (bad < 0 ->
   (forall x, x ∈ indices -> bad <= x) ->
   removeAll cmp indices s = (Throw (OutOfBounds bad (len - 1)), _sort cmp s)).
Proof.
  intros Hnd Hbad snap len good removed.
  destruct (ascending_indices indices Hnd) as [Hasc Hperm].
  assert (len = Z.of_nat (length (array (_sort cmp s)))) as Hlen
    by (unfold len, snap, unwrap; by rewrite length_fmap).
  unfold removeAll. change (fun a b : Z => Num (a - b)) with NumericSort.
  set (ascending := Array_sort NumericSort indices) in *.
  split.
  - intros Hpos Hout Hleast.
    pose proof (sorted_split len ascending Hasc) as Hsplit.
    assert (StronglySorted Z.lt (filter (fun x => len <= x) ascending)) as Hhead
      by (eapply StronglySorted_sublist; [apply sublist_filter|exact Hasc]).
    set (goodA := filter (fun x => x < len) ascending) in *.
    assert (goodA ≡ₚ good) as Hgood by (unfold goodA, good; by rewrite Hperm).
    destruct (filter (fun x => len <= x) ascending) as [|y rest] eqn:Ebad.
    { assert (bad ∈ filter (fun x => len <= x) ascending) as Hin
        by (apply list_elem_of_filter; split; [done|by rewrite Hperm]).
      rewrite Ebad in Hin. by apply elem_of_nil in Hin. }
    assert (y = bad) as ->.
    { assert (y ∈ filter (fun x => len <= x) ascending) as Hy by (rewrite Ebad; left).
      apply list_elem_of_filter in Hy as [Hy1 Hy2]. rewrite Hperm in Hy2.
      pose proof (Hleast y Hy2 Hy1).
      assert (bad ∈ y :: rest) as Hb.
      { rewrite <-Ebad. apply list_elem_of_filter. split; [done|by rewrite Hperm]. }
      apply StronglySorted_inv in Hhead as [_ Hall].
      apply elem_of_cons in Hb as [->|Hb]; [done|].
      rewrite Forall_forall in Hall. specialize (Hall bad Hb). lia. }
    rewrite Hsplit, removeAll_loop_app.
    rewrite (removeAll_loop_in_range goodA 0 [] (array (_sort cmp s)));
      [| |
       |done|simpl; lia].
    2:{ eapply StronglySorted_sublist; [apply sublist_filter|exact Hasc]. }
    2:{ apply Forall_forall. intros x [Hx1 Hx2]%list_elem_of_filter.
        rewrite Hperm in Hx2. rewrite Forall_forall in Hpos.
        specialize (Hpos x Hx2). lia. }
    cbn [app]. cbn [removeAll_loop array set_array].
    assert (length (keep_except goodA 0 (array (_sort cmp s)))
            = (length (array (_sort cmp s)) - length goodA)%nat) as Hkeep.
    { pose proof (removeAll_loop_in_range goodA 0 [] (array (_sort cmp s)) 0 []
                    (_sort cmp s)) as Hrun.
      assert (forall xs i acc (s1 : SortedArray T) r s',
                removeAll_loop xs i acc s1 = (Return r, s') ->
                (length (array s') + length xs = length (array s1))%nat) as Hcount.
      { induction xs as [|x xs IH]; intros i acc s1 r s' Heq.
        - simpl in Heq. injection Heq as _ <-. simpl. lia.
        - simpl in Heq.
          destruct ((x - i <? 0) || (Z.of_nat (length (array s1)) <=? x - i));
            [done|].
          destruct (nth_js (array s1) (x - i)) as [nd|] eqn:End; [|done].
          apply IH in Heq. cbn [array set_array] in Heq.
          apply nth_js_Some in End as [_ End].
          rewrite length_delete in Heq by (by eexists).
          apply lookup_lt_Some in End. simpl. lia. }
      specialize (Hcount goodA 0 [] (_sort cmp s) _ _
                    (Hrun
                       ltac:(eapply StronglySorted_sublist;
                             [apply sublist_filter|exact Hasc])
                       ltac:(apply Forall_forall;
                             intros x [Hx1 Hx2]%list_elem_of_filter;
                             rewrite Hperm in Hx2; rewrite Forall_forall in Hpos;
                             specialize (Hpos x Hx2); lia)
                       eq_refl ltac:(simpl; lia))).
      cbn [array set_array app] in Hcount. lia. }
    assert (length goodA = length good) as Hlg by (by rewrite Hgood).
    assert ((length goodA <= length (array (_sort cmp s)))%nat) as Hle.
    { assert (NoDup goodA) as Hnd'.
      { apply (NoDup_filter _), (NoDup_Permutation_proper _ _ Hperm), Hnd. }
      assert (goodA ⊆ seqZ 0 len) as Hsub.
      { intros x [Hx1 Hx2]%list_elem_of_filter. rewrite Hperm in Hx2.
        rewrite Forall_forall in Hpos. specialize (Hpos x Hx2).
        apply elem_of_seqZ. lia. }
      pose proof (submseteq_length _ _ (NoDup_submseteq _ _ Hnd' Hsub)) as Hl.
      rewrite length_seqZ in Hl. lia. }
    rewrite Hkeep.
    destruct (Z.ltb_spec (bad - (0 + Z.of_nat (length goodA))) 0) as [|_]; [lia|].
    destruct (Z.leb_spec
                (Z.of_nat (length (array (_sort cmp s)) - length goodA))
                (bad - (0 + Z.of_nat (length goodA)))) as [_|]; [|lia].
    cbn [orb fst snd]. unfold oob. cbn [array set_array]. rewrite Hkeep.
    split.
    + do 2 f_equal; unfold removed; lia.
    + unfold snap, unwrap. rewrite keep_except_fmap.
      apply keep_except_ext. intros x. by rewrite Hgood.
  - intros Hneg Hleast.
    destruct ascending as [|y rest] eqn:Ea.
    { assert (bad ∈ @nil Z) as Hin by (by rewrite Hperm). by apply elem_of_nil in Hin. }
    assert (y = bad) as ->.
    { assert (y ∈ indices) as Hy by (rewrite <-Hperm; left).
      pose proof (Hleast y Hy).
      assert (bad ∈ y :: rest) as Hb by (by rewrite Hperm).
      apply StronglySorted_inv in Hasc as [_ Hall].
      apply elem_of_cons in Hb as [->|Hb]; [done|].
      rewrite Forall_forall in Hall. specialize (Hall bad Hb). lia. }
    cbn [removeAll_loop]. rewrite Z.sub_0_r.
    destruct (Z.ltb_spec bad 0) as [_|]; [|lia]. cbn [orb]. unfold oob.
    by rewrite <-Hlen.
Qed.

Lemma X25_removeAll_stops_at_the_first_bad_index_witness :
  let s := new_SortedArray (Some [30; 10; 20]) in
  NoDup [5; 0; 2] /\ 5 ∈ [5; 0; 2] /\
  fst (removeAll NumericSort [5; 0; 2] s) = Throw (OutOfBounds 3 0) /\
  unwrap (array (snd (removeAll NumericSort [5; 0; 2] s))) = [20].
Proof.
  intros s. subst s.
  assert (NoDup [5; 0; 2]) as Hnd by (by apply (bool_decide_unpack _)).
  assert (5 ∈ [5; 0; 2]) as Hin by (by apply (bool_decide_unpack _)).
  split; [exact Hnd|]. split; [exact Hin|].
  destruct (X25_removeAll_stops_at_the_first_bad_index NumericSort
              (new_SortedArray (Some [30; 10; 20])) [5; 0; 2] 5 Hnd Hin)
    as [Hthrow _].
  destruct Hthrow as [H1 H2].
  - by apply (bool_decide_unpack _).
  - vm_compute. discriminate.
  - intros x Hx Hlen. vm_compute in Hlen.
    apply elem_of_cons in Hx as [->|Hx]; [lia|].
    apply elem_of_cons in Hx as [->|Hx]; [by destruct Hlen|].
    apply list_elem_of_singleton in Hx as ->. by destruct Hlen.
  - split; [rewrite H1|rewrite H2]; vm_compute; reflexivity.
Defined.

(** ** Lookups of the very payload *)



(** ** Iterating while the collection changes *)

(** X27.  The iterator sorts once, when it is made, and then reads the
    live array: elements added after [j] elements have been read are
    yielded after all the others, in the order they were added, not at
    their sorted place. *)
Theorem X27_iterator_reads_the_live_array {T : Type} `{EqDecision T}
    (cmp : T -> T -> number) (s : SortedArray T) (items : list T) (j : nat) :
  let s1 := snd (iterator cmp s) in
  let snap := unwrap (array s1) in
  let s2 := snd (addAll items s1) in
  fst (iterator cmp s) = O /\
  fst (toArray cmp s) = Return snap /\
  iterator_drain (S (length (array s1))) j s1 = Return (drop j snap) /\
  iterator_drain (S (length (array s2))) j s2 = Return (drop j (snap ++ items)).
Proof.
  intros s1 snap s2. split; [done|]. split; [done|].
  assert (unwrap (array s2) = snap ++ items) as Hs2
    by (unfold s2, addAll; cbn [snd]; by rewrite fold_addAll_push_payloads).
  rewrite !iterator_drain_all by lia. unfold unwrap in *. rewrite !fmap_drop.
  by rewrite Hs2.
Qed.
